(** * Search monitors, limits, restarts and selectors of the constraint solver

    A shallow embedding of the parts of [constraint_solver/search.cc] that the
    specification of the search driver makes claims about: the Luby restart
    schedule, the regular search limit, the solution collectors, the objective
    monitor, the three metaheuristics and the random value selector; and, with
    properties of their own, of the cheapest variable selector, the center
    value selector and the constant restart of the same file, of the bit
    operations of [util/bitset.h] and of the XML writer of
    [util/xml_helper.cc].

    Conventions.  [int64] values are integers of [Z] with the wrap-around of
    the machine written out ([Int64.add], [Int64.sub], ...); [double] and
    [float] values are IEEE 754 numbers of [SpecFloat] at precision 53 and 24;
    a method that mutates its object is a function from the old object to the
    new one; a method whose C++ behaviour is undefined or does not return on
    some input yields [None] there. *)

From Stdlib Require Import ZArith Lia List Bool.
From Stdlib Require Import Floats.SpecFloat.
From Stdlib Require Strings.String Strings.Ascii.
From stdpp Require Import base option list gmap.

Local Open Scope Z_scope.

(** ** Machine integers *)

Module Int64.

Definition kint64max : Z := 2 ^ 63 - 1.
Definition kint64min : Z := - 2 ^ 63.
Definition kint32max : Z := 2 ^ 31 - 1.

Definition in_range (z : Z) : Prop := kint64min <= z <= kint64max.

(** Two's complement reduction to 64 bits. *)
Definition wrap (z : Z) : Z := (z + 2 ^ 63) mod 2 ^ 64 - 2 ^ 63.

Definition add (x y : Z) : Z := wrap (x + y).
Definition sub (x y : Z) : Z := wrap (x - y).
Definition mul (x y : Z) : Z := wrap (x * y).

(** Reduction of an [int] to 32 bits. *)
Definition wrap32 (z : Z) : Z := (z + 2 ^ 31) mod 2 ^ 32 - 2 ^ 31.

End Int64.

(** ** The Luby restart schedule *)

Module Luby.

Import Int64.

(** The loop [while (power < (i + 1)) power <<= 1] of [NextLuby]; [fuel]
    bounds the number of turns. *)
Fixpoint least_power (fuel : nat) (power i : Z) : option Z :=
  if power <? i + 1 then
    match fuel with
    | O => None
    | S fuel' => least_power fuel' (Z.shiftl power 1) i
    end
  else Some power.

(** [NextLuby(i)].  The source recurses on [i - power / 2 + 1]; for [i <= 0]
    that argument is [i] again and the call never returns, which the fuel
    turns into [None]. *)
Fixpoint NextLuby_fuel (fuel : nat) (i : Z) : option Z :=
  match fuel with
  | O => None
  | S fuel' =>
      match least_power 64 2 i with
      | None => None
      | Some power =>
          if power =? i + 1 then Some (power / 2)
          else NextLuby_fuel fuel' (i - power / 2 + 1)
      end
  end.

(** [i] levels of recursion are always enough, see [NextLuby_fuel_enough]. *)
Definition NextLuby (i : Z) : option Z := NextLuby_fuel (Z.to_nat i) i.

(** The value of the schedule, 0 where [NextLuby] has none. *)
Definition luby (i : Z) : Z := default 0 (NextLuby i).

(** [sum_luby k] is the sum of [luby 1 .. luby k]. *)
Fixpoint sum_luby (k : nat) : Z :=
  match k with
  | O => 0
  | S k' => sum_luby k' + luby (Z.of_nat k)
  end.

(** *** The restart monitor *)

Record LubyRestart := mkLubyRestart {
  scale_factor_ : Z;
  iteration_ : Z;
  current_fails_ : Z;
  next_step_ : Z
}.

(** The constructor, for a scale factor of at least 1; below,
    [CHECK_GE(scale_factor, 1)] aborts. *)
Definition MakeLubyRestart (scale_factor : Z) : LubyRestart :=
  {| scale_factor_ := scale_factor;
     iteration_ := 1;
     current_fails_ := 0;
     next_step_ := scale_factor |}.

(** [BeginFail]: the new monitor and whether [RestartCurrentSearch] was
    requested. *)
Definition BeginFail (m : LubyRestart) : option (LubyRestart * bool) :=
  let fails := add (current_fails_ m) 1 in
  if next_step_ m <=? fails then
    let it := wrap32 (iteration_ m + 1) in
    match NextLuby it with
    | None => None
    | Some l =>
        Some ({| scale_factor_ := scale_factor_ m;
                 iteration_ := it;
                 current_fails_ := 0;
                 next_step_ := mul l (scale_factor_ m) |}, true)
    end
  else
    Some ({| scale_factor_ := scale_factor_ m;
             iteration_ := iteration_ m;
             current_fails_ := fails;
             next_step_ := next_step_ m |}, false).

(** Modelled from the spec: the [EnterSearch] hook of the [SearchMonitor]
    base class, which [LubyRestart] does not override; the default of every
    hook is a no-op. *)
Definition EnterSearch (m : LubyRestart) : LubyRestart := m.

(** [n] failures in a row: the final monitor and the number of restarts
    requested on the way. *)
Fixpoint fail_n (n : nat) (m : LubyRestart) : option (LubyRestart * Z) :=
  match n with
  | O => Some (m, 0)
  | S n' =>
      match BeginFail m with
      | None => None
      | Some (m', r) =>
          match fail_n n' m' with
          | None => None
          | Some (m'', c) => Some (m'', (if r then 1 else 0) + c)
          end
      end
  end.

(** The monitor between two restarts: [c] failures counted in iteration [j]. *)
Definition counting (scale j c : Z) : LubyRestart :=
  {| scale_factor_ := scale;
     iteration_ := j;
     current_fails_ := c;
     next_step_ := luby j * scale |}.

End Luby.

(** ** Search limits *)

Module Limit.

Import Int64.

(** The counters of the solver that a limit reads. *)
Record Solver := mkSolver {
  wall_time : Z;
  branches : Z;
  failures : Z;
  solutions : Z
}.

(** [RegularLimit], with the [crossed_] flag of its base class
    [SearchLimit]. *)
Record RegularLimit := mkRegularLimit {
  crossed_ : bool;
  wall_time_ : Z;
  wall_time_offset_ : Z;
  check_count_ : Z;
  next_check_ : Z;
  smart_time_check_ : bool;
  branches_ : Z;
  branches_offset_ : Z;
  failures_ : Z;
  failures_offset_ : Z;
  solutions_ : Z;
  solutions_offset_ : Z
}.

(** The constructor, reached through [Solver::MakeLimit]. *)
Definition MakeLimit (time branches failures solutions : Z)
    (smart_time_check : bool) : RegularLimit :=
  {| crossed_ := false;
     wall_time_ := time;
     wall_time_offset_ := 0;
     check_count_ := 0;
     next_check_ := 0;
     smart_time_check_ := smart_time_check;
     branches_ := branches;
     branches_offset_ := 0;
     failures_ := failures;
     failures_offset_ := 0;
     solutions_ := solutions;
     solutions_offset_ := 0 |}.

Definition Init (s : Solver) (l : RegularLimit) : RegularLimit :=
  {| crossed_ := crossed_ l;
     wall_time_ := wall_time_ l;
     wall_time_offset_ := wall_time s;
     check_count_ := 0;
     next_check_ := 0;
     smart_time_check_ := smart_time_check_ l;
     branches_ := branches_ l;
     branches_offset_ := branches s;
     failures_ := failures_ l;
     failures_offset_ := failures s;
     solutions_ := solutions_ l;
     solutions_offset_ := solutions s |}.

Definition set_crossed (b : bool) (l : RegularLimit) : RegularLimit :=
  {| crossed_ := b;
     wall_time_ := wall_time_ l;
     wall_time_offset_ := wall_time_offset_ l;
     check_count_ := check_count_ l;
     next_check_ := next_check_ l;
     smart_time_check_ := smart_time_check_ l;
     branches_ := branches_ l;
     branches_offset_ := branches_offset_ l;
     failures_ := failures_ l;
     failures_offset_ := failures_offset_ l;
     solutions_ := solutions_ l;
     solutions_offset_ := solutions_offset_ l |}.

Definition set_checks (count next : Z) (l : RegularLimit) : RegularLimit :=
  {| crossed_ := crossed_ l;
     wall_time_ := wall_time_ l;
     wall_time_offset_ := wall_time_offset_ l;
     check_count_ := count;
     next_check_ := next;
     smart_time_check_ := smart_time_check_ l;
     branches_ := branches_ l;
     branches_offset_ := branches_offset_ l;
     failures_ := failures_ l;
     failures_offset_ := failures_offset_ l;
     solutions_ := solutions_ l;
     solutions_offset_ := solutions_offset_ l |}.

(** [SearchLimit::EnterSearch]. *)
Definition EnterSearch (s : Solver) (l : RegularLimit) : RegularLimit :=
  Init s (set_crossed false l).

Definition kMaxSkip : Z := 100.
Definition kCheckWarmupIterations : Z := 100.

(** [RegularLimit::CheckTime]: the answer and the limit with its poll
    counters updated. *)
Definition CheckTime (s : Solver) (l : RegularLimit) : bool * RegularLimit :=
  let count := add (check_count_ l) 1 in
  if negb (wall_time_ l =? kint64max) && (next_check_ l <=? count) then
    let time_delta := sub (wall_time s) (wall_time_offset_ l) in
    let next :=
      if smart_time_check_ l && (kCheckWarmupIterations <? count)
         && (0 <? time_delta)
      then
        let approximate_calls := Z.quot (mul (wall_time_ l) count) time_delta in
        add count (Z.min kMaxSkip approximate_calls)
      else next_check_ l in
    (wall_time_ l <? time_delta, set_checks count next l)
  else (false, set_checks count (next_check_ l) l).

(** [RegularLimit::Check]; the disjunction is evaluated left to right and
    stops at the first true operand, so [CheckTime] runs only when neither
    the branches nor the failures decide. *)
Definition Check (s : Solver) (l : RegularLimit) : bool * RegularLimit :=
  if branches_ l <? sub (branches s) (branches_offset_ l) then (true, l)
  else if failures_ l <? sub (failures s) (failures_offset_ l) then (true, l)
  else
    let (t, l') := CheckTime s l in
    if t then (true, l')
    else (solutions_ l <=? sub (solutions s) (solutions_offset_ l), l').

(** [SearchLimit::PeriodicCheck]: the limit and whether the solver is made
    to fail. *)
Definition PeriodicCheck (s : Solver) (l : RegularLimit) : RegularLimit * bool :=
  if crossed_ l then (set_crossed true l, true)
  else
    let (c, l') := Check s l in
    if c then (set_crossed true l', true) else (l', false).

(** The four counters measured from the offsets of [EnterSearch]. *)
Definition time_delta (s : Solver) (l : RegularLimit) : Z :=
  sub (wall_time s) (wall_time_offset_ l).


(** The smart time check has put the next poll of the clock after this
    call. *)
Definition poll_skipped (l : RegularLimit) : Prop :=
  add (check_count_ l) 1 < next_check_ l.

(** A sequence of calls of [Check], one for each state of the solver in
    [ss]: the limit after the last call. *)
Fixpoint checks (ss : list Solver) (l : RegularLimit) : RegularLimit :=
  match ss with
  | [] => l
  | s :: ss' => checks ss' (snd (Check s l))
  end.

End Limit.

(** ** Solution collectors *)

Module Collector.

Definition Var := nat.

(** What a collector reads from the solver when a solution is reached: the
    three counters and the current state of the variables. *)
Record Solver := mkSolver {
  wall_time : Z;
  branches : Z;
  failures : Z;
  var_value : Var -> Z;
  var_min : Var -> Z;
  var_max : Var -> Z
}.

(** Modelled from the spec: the [Assignment] container, a snapshot binding a
    sequence of variables, and optionally one objective variable, to values;
    [Store] captures the current values. *)
Record Assignment := mkAssignment {
  a_vars : list Var;
  a_values : list Z;
  a_objective : option Var;
  a_objective_value : Z
}.

Definition Store (s : Solver) (a : Assignment) : Assignment :=
  {| a_vars := a_vars a;
     a_values := map (var_value s) (a_vars a);
     a_objective := a_objective a;
     a_objective_value :=
       match a_objective a with
       | Some v => var_value s v
       | None => 0
       end |}.

Definition ObjectiveValue (a : Assignment) : Z := a_objective_value a.

(** The base class.  A vector is a list with its back at the end; an
    [Assignment*] that may be [NULL] is an option. *)
Record SolutionCollector := mkSolutionCollector {
  prototype_ : option Assignment;
  solutions_ : list (option Assignment);
  recycle_solutions_ : list Assignment;
  times_ : list Z;
  branches_ : list Z;
  failures_ : list Z;
  objective_values_ : list Z
}.

Definition MakeSolutionCollector (a : option Assignment) : SolutionCollector :=
  {| prototype_ := a;
     solutions_ := [];
     recycle_solutions_ := [];
     times_ := [];
     branches_ := [];
     failures_ := [];
     objective_values_ := [] |}.

(** [SolutionCollector::EnterSearch]. *)
Definition BaseEnterSearch (c : SolutionCollector) : SolutionCollector :=
  {| prototype_ := prototype_ c;
     solutions_ := [];
     recycle_solutions_ := [];
     times_ := [];
     branches_ := [];
     failures_ := [];
     objective_values_ := [] |}.

Definition PushSolution (s : Solver) (c : SolutionCollector) : SolutionCollector :=
  let '(new_sol, recycle) :=
    match prototype_ c with
    | Some p =>
        match last (recycle_solutions_ c) with
        | Some r => (Some (Store s r), removelast (recycle_solutions_ c))
        | None => (Some (Store s p), recycle_solutions_ c)
        end
    | None => (None, recycle_solutions_ c)
    end in
  {| prototype_ := prototype_ c;
     solutions_ := solutions_ c ++ [new_sol];
     recycle_solutions_ := recycle;
     times_ := times_ c ++ [wall_time s];
     branches_ := branches_ c ++ [branches s];
     failures_ := failures_ c ++ [failures s];
     objective_values_ :=
       objective_values_ c ++
       [match new_sol with Some a => ObjectiveValue a | None => 0 end] |}.

Definition PopSolution (c : SolutionCollector) : SolutionCollector :=
  match last (solutions_ c) with
  | None => c
  | Some popped =>
      {| prototype_ := prototype_ c;
         solutions_ := removelast (solutions_ c);
         recycle_solutions_ :=
           match popped with
           | Some a => recycle_solutions_ c ++ [a]
           | None => recycle_solutions_ c
           end;
         times_ := removelast (times_ c);
         branches_ := removelast (branches_ c);
         failures_ := removelast (failures_ c);
         objective_values_ := removelast (objective_values_ c) |}
  end.

(** The four collectors. *)
Inductive Collector :=
| FirstSolutionCollector (base : SolutionCollector) (done_ : bool)
| LastSolutionCollector (base : SolutionCollector)
| BestValueSolutionCollector (base : SolutionCollector)
    (maximize_ : bool) (best_ : Z)
| AllSolutionCollector (base : SolutionCollector).

Definition base_of (c : Collector) : SolutionCollector :=
  match c with
  | FirstSolutionCollector b _ => b
  | LastSolutionCollector b => b
  | BestValueSolutionCollector b _ _ => b
  | AllSolutionCollector b => b
  end.

Definition EnterSearch (c : Collector) : Collector :=
  match c with
  | FirstSolutionCollector b _ =>
      FirstSolutionCollector (BaseEnterSearch b) false
  | LastSolutionCollector b => LastSolutionCollector (BaseEnterSearch b)
  | BestValueSolutionCollector b maximize _ =>
      BestValueSolutionCollector (BaseEnterSearch b) maximize
        (if maximize then Int64.kint64min else Int64.kint64max)
  | AllSolutionCollector b => AllSolutionCollector (BaseEnterSearch b)
  end.

(** [AtSolution]: the collector and the value returned to the driver. *)
Definition AtSolution (s : Solver) (c : Collector) : Collector * bool :=
  match c with
  | FirstSolutionCollector b done =>
      if done then (c, false)
      else (FirstSolutionCollector (PushSolution s b) true, false)
  | LastSolutionCollector b =>
      (LastSolutionCollector (PushSolution s (PopSolution b)), true)
  | BestValueSolutionCollector b maximize best =>
      match prototype_ b with
      | Some p =>
          match a_objective p with
          | Some objective =>
              if maximize && (best <? var_max s objective) then
                (BestValueSolutionCollector (PushSolution s (PopSolution b))
                   maximize (var_max s objective), true)
              else if negb maximize && (var_min s objective <? best) then
                (BestValueSolutionCollector (PushSolution s (PopSolution b))
                   maximize (var_min s objective), true)
              else (c, true)
          | None => (c, true)
          end
      | None => (c, true)
      end
  | AllSolutionCollector b => (AllSolutionCollector (PushSolution s b), true)
  end.

(** The accessors; [check_index] aborts on an index out of range. *)
Definition check_index (c : Collector) (n : Z) : bool :=
  (0 <=? n) && (n <? Z.of_nat (length (solutions_ (base_of c)))).

Definition solution_count (c : Collector) : Z :=
  Z.of_nat (length (solutions_ (base_of c))).

Definition at_index {A : Type} (c : Collector) (l : list A) (n : Z) : option A :=
  if check_index c n then l !! Z.to_nat n else None.

Definition solution (c : Collector) (n : Z) : option (option Assignment) :=
  at_index c (solutions_ (base_of c)) n.
Definition solution_wall_time (c : Collector) (n : Z) : option Z :=
  at_index c (times_ (base_of c)) n.
Definition solution_branches (c : Collector) (n : Z) : option Z :=
  at_index c (branches_ (base_of c)) n.
Definition solution_failures (c : Collector) (n : Z) : option Z :=
  at_index c (failures_ (base_of c)) n.
Definition objective_value (c : Collector) (n : Z) : option Z :=
  at_index c (objective_values_ (base_of c)) n.

(** The first-solution flag, false for the collectors that have none. *)
Definition done_flag (c : Collector) : bool :=
  match c with
  | FirstSolutionCollector _ d => d
  | _ => false
  end.

(** The solutions reached in a search, each with the state of the solver at
    that moment, seen by the collector in order. *)
Fixpoint at_solutions (ss : list Solver) (c : Collector) : Collector :=
  match ss with
  | [] => c
  | s :: ss' => at_solutions ss' (fst (AtSolution s c))
  end.

(** What the collector records for a solution reached in solver state [s]. *)
Definition stored (p : option Assignment) (s : Solver) : option Assignment :=
  match p with
  | Some a => Some (Store s a)
  | None => None
  end.

Definition stored_objective (p : option Assignment) (s : Solver) : Z :=
  match stored p s with
  | Some a => ObjectiveValue a
  | None => 0
  end.

(** The invariant of a collector during a search whose solutions so far were
    reached in the solver states [evs]: the five vectors are aligned and every
    entry, and every recycled slot, was recorded from one of these states. *)
Definition from_search (p : option Assignment) (evs : list Solver)
    (b : SolutionCollector) : Prop :=
  prototype_ b = p /\
  (exists ss,
      Forall (fun s => In s evs) ss /\
      solutions_ b = map (stored p) ss /\
      times_ b = map wall_time ss /\
      branches_ b = map branches ss /\
      failures_ b = map failures ss /\
      objective_values_ b = map (stored_objective p) ss) /\
  Forall (fun a => exists s, In s evs /\ Some a = stored p s)
    (recycle_solutions_ b).

(** A collector of all solutions that still holds a solution of an earlier
    search, entered into a new search that reaches one solution. *)
Definition stale_collector : Collector :=
  let p := mkAssignment [0%nat] [0] None 0 in
  let old := mkSolver 5 6 7 (fun _ => 9) (fun _ => 9) (fun _ => 9) in
  fst (AtSolution old (AllSolutionCollector (MakeSolutionCollector (Some p)))).

Definition fresh_solver : Solver :=
  mkSolver 1 2 3 (fun _ => 4) (fun _ => 4) (fun _ => 4).

(** The vectors of a collector that holds, in order, what was recorded at the
    solver states [ss], with nothing to recycle. *)
Definition recorded (p : option Assignment) (ss : list Solver)
    : SolutionCollector :=
  {| prototype_ := p;
     solutions_ := map (stored p) ss;
     recycle_solutions_ := [];
     times_ := map wall_time ss;
     branches_ := map branches ss;
     failures_ := map failures ss;
     objective_values_ := map (stored_objective p) ss |}.

(** The bound of the objective that [BestValueSolutionCollector] compares:
    its maximum when maximizing, its minimum when minimizing. *)
Definition objective_bound (maximize : bool) (objective : Var) (s : Solver)
    : Z :=
  if maximize then var_max s objective else var_min s objective.

(** [x] is strictly better than [y] in the direction of the search. *)
Definition better (maximize : bool) (x y : Z) : Prop :=
  if maximize then y < x else x < y.

End Collector.

(** ** Integer variables *)

Module IntVar.

(** Modelled from the spec: [IntVar], the finite-integer decision variable of
    the engine, through the capabilities the search driver consumes; a
    variable is the list of the values of its current domain, without
    repetition. *)
Record IntVar := mkIntVar { domain : list Z }.

Definition Min (v : IntVar) : Z :=
  match domain v with
  | [] => 0
  | k :: ks => fold_right Z.min k ks
  end.

Definition Max (v : IntVar) : Z :=
  match domain v with
  | [] => 0
  | k :: ks => fold_right Z.max k ks
  end.

Definition Size (v : IntVar) : Z := Z.of_nat (length (domain v)).

Definition Contains (v : IntVar) (k : Z) : bool :=
  existsb (Z.eqb k) (domain v).

Definition Bound (v : IntVar) : bool := Size v =? 1.

(** [Value] is defined only when the variable is bound. *)
Definition Value (v : IntVar) : option Z :=
  match domain v with
  | [k] => Some k
  | _ => None
  end.

(** A domain reduction that leaves no value is a failure, [None]. *)
Definition restrict (keep : Z -> bool) (v : IntVar) : option IntVar :=
  match filter (fun k => Is_true (keep k)) (domain v) with
  | [] => None
  | ks => Some (mkIntVar ks)
  end.

Definition SetMin (v : IntVar) (m : Z) : option IntVar :=
  restrict (fun k => m <=? k) v.

Definition SetMax (v : IntVar) (m : Z) : option IntVar :=
  restrict (fun k => k <=? m) v.

End IntVar.

(** ** Decisions *)

Module Decision.

(** Modelled from the spec: a decision is an opaque branching action for the
    monitors, which only tell the balancing decision of the solver, a
    sentinel, from the others. *)
Inductive Decision :=
| balancing_decision
| branching_decision (id : nat).

Definition is_balancing (d : Decision) : bool :=
  match d with
  | balancing_decision => true
  | branching_decision _ => false
  end.

End Decision.

(** ** Objective management *)

Module Optimize.

Import Int64 IntVar Decision.

(** [OptimizeVar]; the objective variable [var_] lives in the solver and is
    passed to the hooks that read or reduce it. *)
Record OptimizeVar := mkOptimizeVar {
  step_ : Z;
  best_ : Z;
  maximize_ : bool
}.

(** The constructor: [CHECK_GT(step, 0)] aborts otherwise. *)
Definition MakeOptimize (maximize : bool) (step : Z) : option OptimizeVar :=
  if 0 <? step then
    Some {| step_ := step; best_ := kint64max; maximize_ := maximize |}
  else None.

Definition EnterSearch (o : OptimizeVar) : OptimizeVar :=
  {| step_ := step_ o;
     best_ := if maximize_ o then kint64min else kint64max;
     maximize_ := maximize_ o |}.

Definition ApplyBound (o : OptimizeVar) (var : IntVar) : option IntVar :=
  if maximize_ o then SetMin var (add (best_ o) (step_ o))
  else SetMax var (sub (best_ o) (step_ o)).

Definition RestartSearch (o : OptimizeVar) (var : IntVar) : option IntVar :=
  ApplyBound o var.

Definition RefuteDecision (o : OptimizeVar) (d : Decision) (var : IntVar)
    : option IntVar :=
  ApplyBound o var.

Definition AcceptSolution (o : OptimizeVar) (var : IntVar) : option bool :=
  match Value var with
  | Some val =>
      Some ((maximize_ o && (best_ o <? val))
            || (negb (maximize_ o) && (val <? best_ o)))
  | None => None
  end.

(** [AtSolution]; a failed [CHECK_GT] or [CHECK_LT] aborts. *)
Definition AtSolution (o : OptimizeVar) (var : IntVar)
    : option (OptimizeVar * bool) :=
  match Value var with
  | Some val =>
      if (if maximize_ o then best_ o <? val else val <? best_ o) then
        Some ({| step_ := step_ o; best_ := val; maximize_ := maximize_ o |},
              true)
      else None
  | None => None
  end.

(** The monitors of a search, as far as the vote on a solution goes: an
    [OptimizeVar], or another monitor, whose hook [virtual bool
    AcceptSolution()] answers with a boolean. *)
Inductive Monitor :=
| OptimizeMonitor (o : OptimizeVar)
| OtherMonitor (accept : IntVar -> bool).

Definition accept_solution (m : Monitor) (objective : IntVar) : option bool :=
  match m with
  | OptimizeMonitor o => AcceptSolution o objective
  | OtherMonitor accept => Some (accept objective)
  end.

(** Modelled from the spec: the [AcceptSolution] broadcast of the search
    driver, a fold whose result is the conjunction of the answers of the
    monitors. *)
Fixpoint AcceptSolution_fold (ms : list Monitor) (objective : IntVar)
    : option bool :=
  match ms with
  | [] => Some true
  | m :: ms' =>
      match accept_solution m objective with
      | None => None
      | Some b =>
          match AcceptSolution_fold ms' objective with
          | None => None
          | Some b' => Some (b && b')
          end
      end
  end.

(** The value strictly improves the incumbent. *)
Definition improves (o : OptimizeVar) (val : Z) : Prop :=
  (maximize_ o = true /\ best_ o < val) \/
  (maximize_ o = false /\ val < best_ o).

(** The bound posted by [ApplyBound], as a condition on a value of the
    objective. *)
Definition within_bound (o : OptimizeVar) (k : Z) : Prop :=
  if maximize_ o then add (best_ o) (step_ o) <= k
  else k <= sub (best_ o) (step_ o).

End Optimize.

(** ** Floating-point numbers *)

Module Double.

(** [double] is IEEE 754 binary64 and [float] binary32, both with rounding
    to nearest, ties to even. *)
Definition prec : Z := 53.
Definition emax : Z := 1024.
Definition float_prec : Z := 24.
Definition float_emax : Z := 128.

Definition zero : spec_float := S754_zero false.

(** Conversion of an integer to [double]. *)
Definition of_int64 (z : Z) : spec_float := binary_normalize prec emax z 0 false.

Definition one : spec_float := of_int64 1.

Definition add : spec_float -> spec_float -> spec_float := SFadd prec emax.
Definition mul : spec_float -> spec_float -> spec_float := SFmul prec emax.
Definition div : spec_float -> spec_float -> spec_float := SFdiv prec emax.
Definition eqb : spec_float -> spec_float -> bool := SFeqb.
Definition ltb : spec_float -> spec_float -> bool := SFltb.

(** Conversion of a [double] to [int64]: the fractional part is discarded;
    the behaviour is undefined, here [None], when the result does not fit. *)
Definition to_int64 (x : spec_float) : option Z :=
  match x with
  | S754_zero _ => Some 0
  | S754_finite s m e =>
      let a := if 0 <=? e then Zpos m * 2 ^ e else Zpos m / 2 ^ (- e) in
      let z := if s then - a else a in
      if (Int64.kint64min <=? z) && (z <=? Int64.kint64max) then Some z
      else None
  | S754_infinity _ => None
  | S754_nan => None
  end.

(** Conversion of a [double] to [float]. *)
Definition to_float (x : spec_float) : spec_float :=
  match x with
  | S754_finite s m e =>
      binary_normalize float_prec float_emax (if s then Zneg m else Zpos m) e s
  | _ => x
  end.

End Double.

(** ** Simulated annealing *)

Module Annealing.

Import Int64 IntVar Decision.

(** [SimulatedAnnealing] with the members of its base class [Metaheuristic];
    the random generator [rand_], which only [ApplyDecision] advances, is left
    out. *)
Record SimulatedAnnealing := mkSimulatedAnnealing {
  maximize_ : bool;
  step_ : Z;
  current_ : Z;
  best_ : Z;
  temperature0_ : Z;
  iteration_ : Z
}.


Definition set_best_current (best current : Z) (m : SimulatedAnnealing)
    : SimulatedAnnealing :=
  {| maximize_ := maximize_ m;
     step_ := step_ m;
     current_ := current;
     best_ := best;
     temperature0_ := temperature0_ m;
     iteration_ := iteration_ m |}.

Definition set_iteration (iteration : Z) (m : SimulatedAnnealing)
    : SimulatedAnnealing :=
  {| maximize_ := maximize_ m;
     step_ := step_ m;
     current_ := current_ m;
     best_ := best_ m;
     temperature0_ := temperature0_ m;
     iteration_ := iteration |}.

Definition EnterSearch (objective : IntVar) (m : SimulatedAnnealing)
    : SimulatedAnnealing :=
  let best := if maximize_ m then Min objective else Max objective in
  set_best_current best best m.

(** [Temperature]: the quotient is a [double], the result a [float]. *)
Definition Temperature (m : SimulatedAnnealing) : spec_float :=
  if 0 <? iteration_ m then
    Double.to_float
      (Double.div (Double.mul Double.one (Double.of_int64 (temperature0_ m)))
                  (Double.of_int64 (iteration_ m)))
  else Double.zero.

(** [ApplyDecision] posts one constraint on the objective and draws from
    [rand_]; it writes to no member of the record. *)
Definition ApplyDecision (d : Decision) (m : SimulatedAnnealing)
    : SimulatedAnnealing := m.

(** [Metaheuristic::RefuteDecision] may fail the solver and writes to no
    member. *)
Definition RefuteDecision (d : Decision) (m : SimulatedAnnealing)
    : SimulatedAnnealing := m.

Definition AtSolution (objective : IntVar) (m : SimulatedAnnealing)
    : option (SimulatedAnnealing * bool) :=
  match Value objective with
  | Some val =>
      let best := if maximize_ m then Z.max val (best_ m)
                  else Z.min val (best_ m) in
      Some (set_best_current best val m, true)
  | None => None
  end.

Definition LocalOptimum (m : SimulatedAnnealing) : SimulatedAnnealing * bool :=
  let m1 :=
    set_best_current (best_ m) (if maximize_ m then kint64min else kint64max) m in
  let m2 := set_iteration (add (iteration_ m1) 1) m1 in
  (m2, Double.ltb Double.zero (Temperature m2)).

Definition AcceptNeighbor (m : SimulatedAnnealing) : SimulatedAnnealing :=
  if 0 <? iteration_ m then set_iteration (add (iteration_ m) 1) m else m.

(** The events a search sends to the monitor. *)
Inductive Event :=
| OnEnterSearch (objective : IntVar)
| OnApplyDecision (d : Decision)
| OnRefuteDecision (d : Decision)
| OnAtSolution (objective : IntVar)
| OnLocalOptimum
| OnAcceptNeighbor.

Definition handle (e : Event) (m : SimulatedAnnealing)
    : option SimulatedAnnealing :=
  match e with
  | OnEnterSearch objective => Some (EnterSearch objective m)
  | OnApplyDecision d => Some (ApplyDecision d m)
  | OnRefuteDecision d => Some (RefuteDecision d m)
  | OnAtSolution objective =>
      match AtSolution objective m with
      | Some (m', _) => Some m'
      | None => None
      end
  | OnLocalOptimum => Some (fst (LocalOptimum m))
  | OnAcceptNeighbor => Some (AcceptNeighbor m)
  end.

Fixpoint run (evs : list Event) (m : SimulatedAnnealing)
    : option SimulatedAnnealing :=
  match evs with
  | [] => Some m
  | e :: evs' =>
      match handle e m with
      | Some m' => run evs' m'
      | None => None
      end
  end.



End Annealing.

(** ** Guided local search *)

Module GLS.

Import Int64.

Definition Arc : Type := Z * Z.

(** The abstract class of the penalties, the penalty frequency of each
    (variable, value) arc.  A method is [None] where the source indexes a
    vector or a bitmap out of its bounds. *)
Class GuidedLocalSearchPenalties (P : Type) := {
  HasValues : P -> bool;
  Increment : P -> Arc -> option P;
  Value : P -> Arc -> option Z
}.

(** *** The dense implementation: a matrix *)

Record GuidedLocalSearchPenaltiesTable := mkTable {
  table_penalties_ : list (list Z);
  has_values_ : bool
}.

Definition MakeTable (size : Z) : GuidedLocalSearchPenaltiesTable :=
  {| table_penalties_ := replicate (Z.to_nat size) []; has_values_ := false |}.

(** [second >= first_penalties.size()] compares as unsigned, so a negative
    [second] asks for a resize that throws or leaves the index out of
    bounds. *)
Definition Table_Increment (t : GuidedLocalSearchPenaltiesTable) (arc : Arc)
    : option GuidedLocalSearchPenaltiesTable :=
  let (first, second) := arc in
  if (first <? 0) || (second <? 0) then None
  else
    match table_penalties_ t !! Z.to_nat first with
    | None => None
    | Some first_penalties =>
        let resized :=
          if Z.of_nat (length first_penalties) <=? second then
            first_penalties ++
            replicate (Z.to_nat (second + 1) - length first_penalties) 0
          else first_penalties in
        match resized !! Z.to_nat second with
        | None => None
        | Some p =>
            Some {| table_penalties_ :=
                      <[Z.to_nat first := <[Z.to_nat second := add p 1]> resized]>
                        (table_penalties_ t);
                    has_values_ := true |}
        end
    end.

Definition Table_Value (t : GuidedLocalSearchPenaltiesTable) (arc : Arc)
    : option Z :=
  let (first, second) := arc in
  if first <? 0 then None
  else
    match table_penalties_ t !! Z.to_nat first with
    | None => None
    | Some first_penalties =>
        if (second <? 0) || (Z.of_nat (length first_penalties) <=? second)
        then Some 0
        else first_penalties !! Z.to_nat second
    end.

#[export] Instance Table_penalties
    : GuidedLocalSearchPenalties GuidedLocalSearchPenaltiesTable :=
  {| HasValues := has_values_;
     Increment := Table_Increment;
     Value := Table_Value |}.

(** *** The sparse implementation: a hash map guarded by a bitmap *)

(** Modelled from the spec: the per-variable bitmap that guards the sparse
    store, a vector of bits of fixed size. *)
Record GuidedLocalSearchPenaltiesMap := mkMap {
  penalized_ : list bool;
  map_penalties_ : gmap (Z * Z) Z
}.

Definition MakeMap (size : Z) : GuidedLocalSearchPenaltiesMap :=
  {| penalized_ := replicate (Z.to_nat size) false; map_penalties_ := ∅ |}.

Definition Map_Increment (m : GuidedLocalSearchPenaltiesMap) (arc : Arc)
    : option GuidedLocalSearchPenaltiesMap :=
  if (fst arc <? 0) || (Z.of_nat (length (penalized_ m)) <=? fst arc) then None
  else
    Some {| penalized_ := <[Z.to_nat (fst arc) := true]> (penalized_ m);
            map_penalties_ :=
              <[arc := add (default 0 (map_penalties_ m !! arc)) 1]>
                (map_penalties_ m) |}.

Definition Map_Value (m : GuidedLocalSearchPenaltiesMap) (arc : Arc)
    : option Z :=
  if fst arc <? 0 then None
  else
    match penalized_ m !! Z.to_nat (fst arc) with
    | None => None
    | Some true => Some (default 0 (map_penalties_ m !! arc))
    | Some false => Some 0
    end.

#[export] Instance Map_penalties
    : GuidedLocalSearchPenalties GuidedLocalSearchPenaltiesMap :=
  {| HasValues := fun m => negb (Nat.eqb (size (map_penalties_ m)) 0);
     Increment := Map_Increment;
     Value := Map_Value |}.

(** *** The monitor *)

(** The objective callback of the binary and of the ternary search. *)
Inductive ObjectiveFunction :=
| Binary (objective_function : Z -> Z -> Z)
| Ternary (objective_function : Z -> Z -> Z -> Z).

(** The stored assignment: the value of [vars_[i]] and, for the ternary
    search, of [secondary_vars_[i]], for each index [i]. *)
Record Assignment := mkAssignment {
  values : list Z;
  secondary_values : list Z
}.

(** [GuidedLocalSearch], with the members that [LocalOptimum] reads or
    writes. *)
Record GuidedLocalSearch (P : Type) := mkGuidedLocalSearch {
  maximize_ : bool;
  current_ : Z;
  size_ : Z;
  assignment_ : Assignment;
  objective_function_ : ObjectiveFunction;
  penalties_ : P
}.

Arguments maximize_ {P}.
Arguments current_ {P}.
Arguments size_ {P}.
Arguments assignment_ {P}.
Arguments objective_function_ {P}.
Arguments penalties_ {P}.
Arguments mkGuidedLocalSearch {P}.

Section LocalOptimum.

Context {P : Type} `{GuidedLocalSearchPenalties P}.

(** [AssignmentPenalty] of [BinaryGuidedLocalSearch] and of
    [TernaryGuidedLocalSearch]; the callbacks return an [int64]. *)
Definition AssignmentPenalty (g : GuidedLocalSearch P) (index next : Z)
    : option Z :=
  match objective_function_ g with
  | Binary f => Some (wrap (f index next))
  | Ternary f =>
      match secondary_values (assignment_ g) !! Z.to_nat index with
      | Some k => Some (wrap (f index next k))
      | None => None
      end
  end.

(** One turn of the first loop of [LocalOptimum]: the arc of index [i] and
    its utility [value / (penalty + 1.0)]. *)
Definition utility_of (g : GuidedLocalSearch P) (i : Z)
    : option (Arc * spec_float) :=
  match values (assignment_ g) !! Z.to_nat i with
  | None => None
  | Some var_value =>
      match (if var_value =? i then Some 0
             else AssignmentPenalty g i var_value) with
      | None => None
      | Some value =>
          let arc := (i, var_value) in
          match Value (penalties_ g) arc with
          | None => None
          | Some penalty =>
              Some (arc,
                    Double.div (Double.of_int64 value)
                      (Double.add (Double.of_int64 penalty) Double.one))
          end
      end
  end.

Definition utilities (g : GuidedLocalSearch P)
    : option (list (Arc * spec_float)) :=
  mapM (utility_of g) (seqZ 0 (size_ g)).

(** [Comparator]: a greater utility comes first. *)
Definition Comparator (i j : Arc * spec_float) : bool :=
  Double.ltb (snd j) (snd i).

(** [std::sort] with [Comparator].  The library leaves the order of equal
    utilities open; here they keep the order of their indices. *)
Fixpoint insert_by (x : Arc * spec_float) (l : list (Arc * spec_float))
    : list (Arc * spec_float) :=
  match l with
  | [] => [x]
  | y :: l' => if Comparator y x then y :: insert_by x l' else x :: l
  end.

Definition sort (l : list (Arc * spec_float)) : list (Arc * spec_float) :=
  foldr insert_by [] l.

(** The loop [for (i = 1; i < utility.size() && utility_value ==
    utility[i].second; ++i)]: [utility_value] is an [int64], converted back
    for each comparison. *)
Fixpoint increment_while (utility_value : Z) (rest : list (Arc * spec_float))
    (p : P) : option P :=
  match rest with
  | [] => Some p
  | (arc, u) :: rest' =>
      if Double.eqb (Double.of_int64 utility_value) u then
        match Increment p arc with
        | Some p' => increment_while utility_value rest' p'
        | None => None
        end
      else Some p
  end.

(** The second half of [LocalOptimum], from the sorted vector on:
    [int64 utility_value = utility[0].second] converts the greatest utility
    to an integer. *)
Definition penalize (sorted : list (Arc * spec_float)) (p : P) : option P :=
  match sorted with
  | [] => None
  | (arc, u) :: rest =>
      match Double.to_int64 u with
      | None => None
      | Some utility_value =>
          match Increment p arc with
          | Some p' => increment_while utility_value rest p'
          | None => None
          end
      end
  end.

Definition LocalOptimum (g : GuidedLocalSearch P)
    : option (GuidedLocalSearch P * bool) :=
  match utilities g with
  | None => None
  | Some utility =>
      match penalize (sort utility) (penalties_ g) with
      | None => None
      | Some p' =>
          Some ({| maximize_ := maximize_ g;
                   current_ := if maximize_ g then kint64min else kint64max;
                   size_ := size_ g;
                   assignment_ := assignment_ g;
                   objective_function_ := objective_function_ g;
                   penalties_ := p' |}, true)
      end
  end.

End LocalOptimum.

(** Two variables that point at each other, every arc of cost 3: the state
    of a binary search over a dense table after its first solution. *)
Definition two_arcs : GuidedLocalSearch GuidedLocalSearchPenaltiesTable :=
  {| maximize_ := false;
     current_ := 6;
     size_ := 2;
     assignment_ := mkAssignment [1; 0] [];
     objective_function_ := Binary (fun _ _ => 3);
     penalties_ := MakeTable 2 |}.

(** The same search over the sparse store. *)
Definition two_arcs_sparse : GuidedLocalSearch GuidedLocalSearchPenaltiesMap :=
  {| maximize_ := false;
     current_ := 6;
     size_ := 2;
     assignment_ := mkAssignment [1; 0] [];
     objective_function_ := Binary (fun _ _ => 3);
     penalties_ := MakeMap 2 |}.

End GLS.

(** ** Tabu search *)

Module Tabu.

Import Int64 Decision.

(** A variable of the solver, by its handle. *)
Definition Var := nat.

(** Modelled from the spec: the expression and constraint factories of the
    solver that [TabuSearch::ApplyDecision] calls ([MakeBoolVar], [MakeSum],
    [MakeIs...CstCt], [MakeGreaterOrEqual], [MakeLessOrEqual],
    [MakeNonEquality], [AddConstraint]).  The constant of a factory is an
    [int64]; a constraint [Is...CstCt e c b] ties the boolean variable [b] to
    the truth of the comparison of [e] with [c]. *)
Inductive IntExpr :=
| EVar (v : Var)
| ESum (vs : list Var).

Inductive Constraint :=
| IsGreaterOrEqualCstCt (e : IntExpr) (c : Z) (b : Var)
| IsLessOrEqualCstCt (e : IntExpr) (c : Z) (b : Var)
| IsEqualCstCt (e : IntExpr) (c : Z) (b : Var)
| IsDifferentCstCt (e : IntExpr) (c : Z) (b : Var)
| GreaterOrEqual (e : IntExpr) (c : Z)
| LessOrEqual (e : IntExpr) (c : Z)
| NonEquality (e : IntExpr) (c : Z).

(** The part of the solver that posting changes: the next fresh variable and
    the constraints added so far, the latest first. *)
Record Solver := mkSolver {
  next_var : Var;
  constraints : list Constraint
}.

(** Solver actions thread the solver and stop at undefined behaviour. *)
Definition Action (A : Type) : Type := Solver -> option (A * Solver).

Definition ret {A : Type} (a : A) : Action A := fun s => Some (a, s).

Definition bind {A B : Type} (m : Action A) (k : A -> Action B) : Action B :=
  fun s =>
    match m s with
    | Some (a, s') => k a s'
    | None => None
    end.

Definition undefined {A : Type} : Action A := fun _ => None.

#[export] Instance Action_ret : MRet Action := @ret.
#[export] Instance Action_bind : MBind Action :=
  fun A B k m => bind m k.

Definition MakeBoolVar : Action Var :=
  fun s => Some (next_var s,
                 {| next_var := S (next_var s); constraints := constraints s |}).

Definition AddConstraint (c : Constraint) : Action unit :=
  fun s => Some (tt, {| next_var := next_var s;
                        constraints := c :: constraints s |}).

(** An entry of a tabu list. *)
Record VarValue := mkVarValue {
  var_ : Var;
  value_ : Z;
  stamp_ : Z
}.

(** The values of the variables of the solver: the variables are all bound
    at a solution, and a constraint is judged under such values. *)
Definition Valuation := Var -> Z.

(** [TabuSearch] with the members of [Metaheuristic]; a [std::list] is a list
    with its front first.  Modelled from the spec: [assignment_], the
    [Assignment] that holds the value stored last for each of the variables
    of [vars_], in their order; the value of a variable is not defined before
    the first [Store]. *)
Record TabuSearch := mkTabuSearch {
  maximize_ : bool;
  objective_ : Var;
  step_ : Z;
  current_ : Z;
  best_ : Z;
  vars_ : list Var;
  assignment_ : list (option Z);
  last_ : Z;
  keep_tabu_list_ : list VarValue;
  keep_tenure_ : Z;
  forbid_tabu_list_ : list VarValue;
  forbid_tenure_ : Z;
  tabu_factor_ : spec_float;
  stamp : Z
}.

(** The constructor, through [Solver::MakeTabuSearch]: [size_] is the size of
    the vector of variables, so that [CHECK_GE(size_, 0)] passes. *)
Definition MakeTabuSearch (maximize : bool) (v : Var) (step : Z)
    (vars : list Var) (keep_tenure forbid_tenure : Z)
    (tabu_factor : spec_float) : TabuSearch :=
  {| maximize_ := maximize;
     objective_ := v;
     step_ := step;
     current_ := kint64max;
     best_ := kint64max;
     vars_ := vars;
     assignment_ := map (fun _ => None) vars;
     last_ := kint64max;
     keep_tabu_list_ := [];
     keep_tenure_ := keep_tenure;
     forbid_tabu_list_ := [];
     forbid_tenure_ := forbid_tenure;
     tabu_factor_ := tabu_factor;
     stamp := 0 |}.

(** [EnterSearch] reads the bounds of the objective variable. *)
Definition EnterSearch (t : TabuSearch) (objective : IntVar.IntVar)
    : TabuSearch :=
  let best :=
    if maximize_ t then IntVar.Min objective else IntVar.Max objective in
  {| maximize_ := maximize_ t;
     objective_ := objective_ t;
     step_ := step_ t;
     current_ := best;
     best_ := best;
     vars_ := vars_ t;
     assignment_ := assignment_ t;
     last_ := last_ t;
     keep_tabu_list_ := keep_tabu_list_ t;
     keep_tenure_ := keep_tenure_ t;
     forbid_tabu_list_ := forbid_tabu_list_ t;
     forbid_tenure_ := forbid_tenure_ t;
     tabu_factor_ := tabu_factor_ t;
     stamp := stamp t |}.

(** The loop of [AtSolution] over the tracked variables: a variable whose
    value differs from the stored one is pushed at the front of both lists,
    with its new value to keep and its old value to forbid. *)
Fixpoint push_changed (stamp_now : Z) (sol : Valuation) (vars : list Var)
    (stored : list (option Z)) (keep forbid : list VarValue)
    : option (list VarValue * list VarValue) :=
  match vars, stored with
  | var :: vars', Some old_value :: stored' =>
      let new_value := sol var in
      if old_value =? new_value then
        push_changed stamp_now sol vars' stored' keep forbid
      else
        push_changed stamp_now sol vars' stored'
          (mkVarValue var new_value stamp_now :: keep)
          (mkVarValue var old_value stamp_now :: forbid)
  | _ :: _, None :: _ => None
  | _, _ => Some (keep, forbid)
  end.

(** [AtSolution], at the solution [sol]. *)
Definition AtSolution (t : TabuSearch) (sol : Valuation)
    : option (TabuSearch * bool) :=
  let val := sol (objective_ t) in
  let best :=
    if maximize_ t then Z.max val (best_ t) else Z.min val (best_ t) in
  match
    (if stamp t =? 0 then Some (keep_tabu_list_ t, forbid_tabu_list_ t)
     else push_changed (stamp t) sol (vars_ t) (assignment_ t)
            (keep_tabu_list_ t) (forbid_tabu_list_ t))
  with
  | Some (keep, forbid) =>
      Some ({| maximize_ := maximize_ t;
               objective_ := objective_ t;
               step_ := step_ t;
               current_ := val;
               best_ := best;
               vars_ := vars_ t;
               assignment_ := map (fun var => Some (sol var)) (vars_ t);
               last_ := val;
               keep_tabu_list_ := keep;
               keep_tenure_ := keep_tenure_ t;
               forbid_tabu_list_ := forbid;
               forbid_tenure_ := forbid_tenure_ t;
               tabu_factor_ := tabu_factor_ t;
               stamp := stamp t |}, true)
  | None => None
  end.

(** [AgeList]: entries leave at the back while their stamp is below
    [stamp_ - tenure]; [from_back] is the list read from its back. *)
Fixpoint pop_back_while (bound : Z) (from_back : list VarValue)
    : list VarValue :=
  match from_back with
  | [] => []
  | entry :: rest =>
      if stamp_ entry <? bound then pop_back_while bound rest else from_back
  end.

Definition AgeList (stamp_now tenure : Z) (l : list VarValue)
    : list VarValue :=
  rev (pop_back_while (sub stamp_now tenure) (rev l)).

Definition AgeLists (t : TabuSearch) : TabuSearch :=
  {| maximize_ := maximize_ t;
     objective_ := objective_ t;
     step_ := step_ t;
     current_ := current_ t;
     best_ := best_ t;
     vars_ := vars_ t;
     assignment_ := assignment_ t;
     last_ := last_ t;
     keep_tabu_list_ :=
       AgeList (stamp t) (keep_tenure_ t) (keep_tabu_list_ t);
     keep_tenure_ := keep_tenure_ t;
     forbid_tabu_list_ :=
       AgeList (stamp t) (forbid_tenure_ t) (forbid_tabu_list_ t);
     forbid_tenure_ := forbid_tenure_ t;
     tabu_factor_ := tabu_factor_ t;
     stamp := add (stamp t) 1 |}.

Definition LocalOptimum (t : TabuSearch) : TabuSearch * bool :=
  let t' := AgeLists t in
  ({| maximize_ := maximize_ t';
      objective_ := objective_ t';
      step_ := step_ t';
      current_ := if maximize_ t' then kint64min else kint64max;
      best_ := best_ t';
      vars_ := vars_ t';
      assignment_ := assignment_ t';
      last_ := last_ t';
      keep_tabu_list_ := keep_tabu_list_ t';
      keep_tenure_ := keep_tenure_ t';
      forbid_tabu_list_ := forbid_tabu_list_ t';
      forbid_tenure_ := forbid_tenure_ t';
      tabu_factor_ := tabu_factor_ t';
      stamp := stamp t' |}, true).

Definition AcceptNeighbor (t : TabuSearch) : TabuSearch :=
  if stamp t =? 0 then t else AgeLists t.

(** One turn of the loop over a tabu list: a fresh boolean variable tied to
    the literal of the entry. *)
Definition post_literal (literal : IntExpr -> Z -> Var -> Constraint)
    (entry : VarValue) : Action Var :=
  tabu_var ← MakeBoolVar;
  AddConstraint (literal (EVar (var_ entry)) (value_ entry) tabu_var) ;;
  ret tabu_var.

Fixpoint post_literals (literal : IntExpr -> Z -> Var -> Constraint)
    (entries : list VarValue) : Action (list Var) :=
  match entries with
  | [] => ret []
  | entry :: entries' =>
      tabu_var ← post_literal literal entry;
      tabu_vars ← post_literals literal entries';
      ret (tabu_var :: tabu_vars)
  end.

(** The constant [tabu_vars.size() * tabu_factor_] is a [double]; passing it
    to the factory converts it to [int64]. *)
Definition tabu_threshold (n : nat) (tabu_factor : spec_float) : option Z :=
  Double.to_int64 (Double.mul (Double.of_int64 (Z.of_nat n)) tabu_factor).

Definition ApplyDecision (t : TabuSearch) (d : Decision) : Action unit :=
  if is_balancing d then ret tt
  else
    aspiration ← MakeBoolVar;
    AddConstraint
      (if maximize_ t then
         IsGreaterOrEqualCstCt (EVar (objective_ t)) (add (best_ t) (step_ t))
           aspiration
       else
         IsLessOrEqualCstCt (EVar (objective_ t)) (sub (best_ t) (step_ t))
           aspiration) ;;
    keep_vars ← post_literals IsEqualCstCt (keep_tabu_list_ t);
    forbid_vars ← post_literals IsDifferentCstCt (forbid_tabu_list_ t);
    let tabu_vars := keep_vars ++ forbid_vars in
    (if 0 <? Z.of_nat (length tabu_vars) then
       tabu ← MakeBoolVar;
       match tabu_threshold (length tabu_vars) (tabu_factor_ t) with
       | None => undefined
       | Some c =>
           AddConstraint (IsGreaterOrEqualCstCt (ESum tabu_vars) c tabu) ;;
           AddConstraint (GreaterOrEqual (ESum [aspiration; tabu]) 1)
       end
     else ret tt) ;;
    AddConstraint
      (if maximize_ t then
         GreaterOrEqual (EVar (objective_ t)) (add (current_ t) (step_ t))
       else
         LessOrEqual (EVar (objective_ t)) (sub (current_ t) (step_ t))) ;;
    AddConstraint (NonEquality (EVar (objective_ t)) (last_ t)).

(** *** The meaning of the posted constraints *)

Definition eval (rho : Valuation) (e : IntExpr) : Z :=
  match e with
  | EVar v => rho v
  | ESum vs => fold_right Z.add 0 (map rho vs)
  end.

(** [b] is 1 when [P] holds and 0 when it does not. *)
Definition reifies (rho : Valuation) (b : Var) (P : Prop) : Prop :=
  (P /\ rho b = 1) \/ (~ P /\ rho b = 0).

Definition holds (rho : Valuation) (c : Constraint) : Prop :=
  match c with
  | IsGreaterOrEqualCstCt e c b => reifies rho b (c <= eval rho e)
  | IsLessOrEqualCstCt e c b => reifies rho b (eval rho e <= c)
  | IsEqualCstCt e c b => reifies rho b (eval rho e = c)
  | IsDifferentCstCt e c b => reifies rho b (eval rho e <> c)
  | GreaterOrEqual e c => c <= eval rho e
  | LessOrEqual e c => eval rho e <= c
  | NonEquality e c => eval rho e <> c
  end.

(** The number of entries of the keep list whose variable has the kept value,
    and of the forbid list whose variable avoids the forbidden value. *)
Fixpoint kept (rho : Valuation) (entries : list VarValue) : Z :=
  match entries with
  | [] => 0
  | entry :: entries' =>
      (if rho (var_ entry) =? value_ entry then 1 else 0) + kept rho entries'
  end.

Fixpoint avoided (rho : Valuation) (entries : list VarValue) : Z :=
  match entries with
  | [] => 0
  | entry :: entries' =>
      (if rho (var_ entry) =? value_ entry then 0 else 1) + avoided rho entries'
  end.

Definition satisfied_literals (rho : Valuation) (t : TabuSearch) : Z :=
  kept rho (keep_tabu_list_ t) + avoided rho (forbid_tabu_list_ t).

(** The aspiration criterion: the objective improves on the best solution by
    at least the step. *)
Definition aspiration_holds (rho : Valuation) (t : TabuSearch) : Prop :=
  if maximize_ t then add (best_ t) (step_ t) <= rho (objective_ t)
  else rho (objective_ t) <= sub (best_ t) (step_ t).

(** The descent from the current solution. *)
Definition descent_holds (rho : Valuation) (t : TabuSearch) : Prop :=
  if maximize_ t then add (current_ t) (step_ t) <= rho (objective_ t)
  else rho (objective_ t) <= sub (current_ t) (step_ t).

(** The number of entries of both lists. *)
Definition entries (t : TabuSearch) : nat :=
  length (keep_tabu_list_ t) + length (forbid_tabu_list_ t).

(** The exact value of a finite [double], as a fraction [n / d]. *)
Definition exact_value (x : spec_float) : option (Z * Z) :=
  match x with
  | S754_zero _ => Some (0, 1)
  | S754_finite s m e =>
      let n := if s then Zneg m else Zpos m in
      Some (if 0 <=? e then (n * 2 ^ e, 1) else (n, 2 ^ (- e)))
  | _ => None
  end.

(** The ceiling of the product of the number of entries by the tabu factor,
    as the claim words the threshold. *)
Definition ceiling_threshold (n : nat) (tabu_factor : spec_float) : option Z :=
  match exact_value tabu_factor with
  | Some (num, den) => Some (- ((- (Z.of_nat n * num)) / den))
  | None => None
  end.

(** The two constraints on the objective that depend on the direction. *)
Definition aspiration_ct (t : TabuSearch) (b : Var) : Constraint :=
  if maximize_ t then
    IsGreaterOrEqualCstCt (EVar (objective_ t)) (add (best_ t) (step_ t)) b
  else IsLessOrEqualCstCt (EVar (objective_ t)) (sub (best_ t) (step_ t)) b.

Definition descent_ct (t : TabuSearch) : Constraint :=
  if maximize_ t then
    GreaterOrEqual (EVar (objective_ t)) (add (current_ t) (step_ t))
  else LessOrEqual (EVar (objective_ t)) (sub (current_ t) (step_ t)).

(** The truth value, 0 or 1, of the literal of an entry. *)
Definition keep_truth (rho : Valuation) (e : VarValue) : Z :=
  if rho (var_ e) =? value_ e then 1 else 0.

Definition forbid_truth (rho : Valuation) (e : VarValue) : Z :=
  if rho (var_ e) =? value_ e then 0 else 1.

(** The aspiration literal, as a boolean. *)
Definition aspiration_test (rho : Valuation) (t : TabuSearch) : bool :=
  if maximize_ t then add (best_ t) (step_ t) <=? rho (objective_ t)
  else rho (objective_ t) <=? sub (best_ t) (step_ t).

(** The variables that [ApplyDecision] mentions exist in the solver. *)
Definition scoped (t : TabuSearch) (s : Solver) : Prop :=
  (objective_ t < next_var s)%nat /\
  Forall (fun e => (var_ e < next_var s)%nat)
    (keep_tabu_list_ t ++ forbid_tabu_list_ t).

(** The values given to the boolean variables that [ApplyDecision] creates
    from [next_var s] on: the aspiration, a literal for each entry of the
    keep list, then of the forbid list, and the tabu criterion of constant
    [c]; the other variables keep their values. *)
Definition extend (t : TabuSearch) (s : Solver) (c : Z) (rho : Valuation)
    : Valuation :=
  fun v =>
    let n := next_var s in
    let k := length (keep_tabu_list_ t) in
    let f := length (forbid_tabu_list_ t) in
    if (v <? n)%nat then rho v
    else if (v =? n)%nat then (if aspiration_test rho t then 1 else 0)
    else if (v <? n + 1 + k)%nat then
      match keep_tabu_list_ t !! (v - (n + 1))%nat with
      | Some e => keep_truth rho e
      | None => 0
      end
    else if (v <? n + 1 + k + f)%nat then
      match forbid_tabu_list_ t !! (v - (n + 1 + k))%nat with
      | Some e => forbid_truth rho e
      | None => 0
      end
    else if (v =? n + 1 + k + f)%nat then
      (if c <=? satisfied_literals rho t then 1 else 0)
    else rho v.

(** A minimizing search over one variable, number 1, with tenures of 10 and a
    tabu factor of three quarters, run from its construction: a first
    solution of cost 60 where the variable is 3, a local optimum, and a second
    solution of cost 70 where the variable is 5. *)
Definition three_quarters : spec_float :=
  Double.div (Double.of_int64 3) (Double.of_int64 4).

Definition first_solution : Valuation :=
  fun v => match v with 0%nat => 60 | 1%nat => 3 | _ => 0 end.

Definition second_solution : Valuation :=
  fun v => match v with 0%nat => 70 | 1%nat => 5 | _ => 0 end.

Definition one_move : option TabuSearch :=
  let t0 := MakeTabuSearch false 0%nat 1 [1%nat] 10 10 three_quarters in
  let t1 := EnterSearch t0 (IntVar.mkIntVar [60; 65; 70]) in
  match AtSolution t1 first_solution with
  | Some (t2, _) =>
      let (t3, _) := LocalOptimum t2 in
      match AtSolution t3 second_solution with
      | Some (t4, _) => Some t4
      | None => None
      end
  | None => None
  end.

(** The state that [one_move] reaches: the variable changed from 3 to 5, so
    that the value 5 is to keep and the value 3 is forbidden. *)
Definition after_one_move : TabuSearch :=
  {| maximize_ := false;
     objective_ := 0%nat;
     step_ := 1;
     current_ := 70;
     best_ := 60;
     vars_ := [1%nat];
     assignment_ := [Some 5];
     last_ := 70;
     keep_tabu_list_ := [mkVarValue 1%nat 5 1];
     keep_tenure_ := 10;
     forbid_tabu_list_ := [mkVarValue 1%nat 3 1];
     forbid_tenure_ := 10;
     tabu_factor_ := three_quarters;
     stamp := 1 |}.

(** A valuation for the next decision: cost 65, the variable at 4, which is
    neither the value to keep nor the forbidden one, so that exactly one of
    the two literals is true; the variables 10 to 13 are the booleans that
    [ApplyDecision] creates in a solver whose next variable is 10. *)
Definition one_literal : Valuation :=
  fun v =>
    match v with
    | 0%nat => 65 | 1%nat => 4
    | 10%nat => 0 | 11%nat => 0 | 12%nat => 1 | 13%nat => 1
    | _ => 0
    end.

(** The value of a sum of variables. *)
Definition sum_of (rho : Valuation) (vs : list Var) : Z :=
  fold_right Z.add 0 (map rho vs).

(** *** The events of a search, for the tabu lists *)

(** The hooks of [TabuSearch] that change it, in the order the search calls
    them. *)
Inductive Event :=
| OnEnterSearch (objective : IntVar.IntVar)
| OnAtSolution (sol : Valuation)
| OnLocalOptimum
| OnAcceptNeighbor.

Definition handle (t : TabuSearch) (e : Event) : option TabuSearch :=
  match e with
  | OnEnterSearch objective => Some (EnterSearch t objective)
  | OnAtSolution sol =>
      match AtSolution t sol with
      | Some (t', _) => Some t'
      | None => None
      end
  | OnLocalOptimum => Some (fst (LocalOptimum t))
  | OnAcceptNeighbor => Some (AcceptNeighbor t)
  end.

Fixpoint run (evs : list Event) (t : TabuSearch) : option TabuSearch :=
  match evs with
  | [] => Some t
  | e :: evs' =>
      match handle t e with
      | Some t' => run evs' t'
      | None => None
      end
  end.

(** The stamps of a list do not increase from its front to its back, and
    none is above [bound]. *)
Fixpoint newest_first (bound : Z) (l : list VarValue) : Prop :=
  match l with
  | [] => True
  | e :: l' => stamp_ e <= bound /\ newest_first (stamp_ e) l'
  end.


(** The entries that are not older than the tenure. *)
Definition recent (stamp_now tenure : Z) (l : list VarValue)
    : list VarValue :=
  List.filter (fun e => stamp_now - tenure <=? stamp_ e) l.


End Tabu.

(** ** The random value selector *)

Module RandomValue.

Import Int64 IntVar.

(** Modelled from the spec: [Rand64(n)], the random generator of the solver,
    returns a number of [0, n); the selector takes the results of its
    successive calls as the list [draws]. *)

(** The loop [for (;;)] of the dense case, one draw per turn; it has no
    result when the draws run out. *)
Fixpoint sample (v : IntVar) (draws : list Z) : option Z :=
  match draws with
  | [] => None
  | r :: draws' =>
      let value := add (Min v) r in
      if Contains v value then Some value else sample v draws'
  end.

(** The loop [for (i = v->Min(); i <= v->Max(); ++i)]: [inl i] when it
    returns [i], [inr index] when it runs to its end, [None] when the fuel
    does not reach the end. *)
Fixpoint count_up (v : IntVar) (fuel : nat) (i index : Z) : option (Z + Z) :=
  match fuel with
  | O => None
  | S fuel' =>
      if i <=? Max v then
        if Contains v i then
          let index' := sub index 1 in
          if index' =? 0 then Some (inl i)
          else count_up v fuel' (add i 1) index'
        else count_up v fuel' (add i 1) index
      else Some (inr index)
  end.

(** The loop [for (i = v->Max(); i > v->Min(); --i)]. *)
Fixpoint count_down (v : IntVar) (fuel : nat) (i index : Z) : option (Z + Z) :=
  match fuel with
  | O => None
  | S fuel' =>
      if Min v <? i then
        if Contains v i then
          let index' := sub index 1 in
          if index' =? 0 then Some (inl i)
          else count_down v fuel' (sub i 1) index'
        else count_down v fuel' (sub i 1) index
      else Some (inr index)
  end.

(** After a counting loop: the value it returned, or [CHECK_LE(index, 0)]
    and the final [return 0LL]. *)
Definition after_loop (r : option (Z + Z)) : option Z :=
  match r with
  | Some (inl i) => Some i
  | Some (inr index) => if index <=? 0 then Some 0 else None
  | None => None
  end.

(** [RandomValueSelector::Select]. *)
Definition Select (v : IntVar) (draws : list Z) : option Z :=
  let span := add (sub (Max v) (Min v)) 1 in
  let size := Size v in
  if Z.quot span 4 <? size then sample v draws
  else
    match draws with
    | [] => None
    | index :: _ =>
        let fuel := Z.to_nat (span + 1) in
        if index <=? Z.quot size 2 then
          after_loop (count_up v fuel (Min v) index)
        else
          after_loop (count_down v fuel (Max v) index)
    end.

(** A variable of the engine: a non-empty domain without repetition whose
    span fits an [int64]. *)
Definition well_formed (v : IntVar) : Prop :=
  domain v <> [] /\ NoDup (domain v) /\
  kint64min <= Min v /\ Max v < kint64max /\
  Max v - Min v + 1 <= kint64max.

(** The number of values of the domain among the [n] integers from [i]. *)
Definition contained_from (v : IntVar) (i n : Z) : Z :=
  Z.of_nat (length (filter (fun k => Is_true (Contains v k)) (seqZ i n))).

End RandomValue.

(** ** Variable and value selectors *)

Module Selectors.

Import Int64 IntVar.

(** [CheapestVarSelector::Select]: the loop over the variables, from index
    [i], with the evaluation and the index of the best variable so far;
    [var_evaluator_->Run] is the function [var_evaluator]. *)
Fixpoint cheapest_loop (var_evaluator : Z -> Z) (vars : list IntVar) (i : Z)
    (best_eval index : Z) : Z * Z :=
  match vars with
  | [] => (best_eval, index)
  | var :: vars' =>
      if Bound var then
        cheapest_loop var_evaluator vars' (i + 1) best_eval index
      else
        let eval := var_evaluator i in
        if eval <? best_eval then
          cheapest_loop var_evaluator vars' (i + 1) eval i
        else cheapest_loop var_evaluator vars' (i + 1) best_eval index
  end.

(** The index of the variable returned, [None] for [NULL], and [*id]. *)
Definition CheapestVarSelector_Select (var_evaluator : Z -> Z)
    (vars : list IntVar) : option Z * Z :=
  let (_, index) := cheapest_loop var_evaluator vars 0 kint64max (-1) in
  if index =? -1 then (None, Z.of_nat (length vars))
  else (Some index, index).

(** The variable of index [i]. *)
Definition var_at (vars : list IntVar) (i : Z) : option IntVar :=
  if 0 <=? i then vars !! Z.to_nat i else None.

Definition unbound_at (vars : list IntVar) (i : Z) : Prop :=
  exists var, var_at vars i = Some var /\ Bound var = false.

(** [CenterValueSelector::Select]: the loop [for (i = 1; i <= diameter;
    ++i)], with as many turns left as [fuel]; after the loop, [return 0LL]. *)
Fixpoint center_loop (v : IntVar) (mid i : Z) (fuel : nat) : Z :=
  match fuel with
  | O => 0
  | S fuel' =>
      if Contains v (add mid i) then add mid i
      else if Contains v (sub mid i) then sub mid i
      else center_loop v mid (add i 1) fuel'
  end.

Definition CenterValueSelector_Select (v : IntVar) : Z :=
  let vmin := Min v in
  let vmax := Max v in
  let mid := Z.quot (add vmin vmax) 2 in
  if Contains v mid then mid
  else
    let diameter := sub vmax mid in
    center_loop v mid 1 (Z.to_nat diameter).

End Selectors.

(** ** The constant restart *)

Module ConstantRestart.

Import Int64.

Record ConstantRestart := mkConstantRestart {
  frequency_ : Z;
  current_fails_ : Z
}.

(** The constructor: [CHECK_GE(frequency, 1)] aborts below 1. *)
Definition MakeConstantRestart (frequency : Z) : option ConstantRestart :=
  if 1 <=? frequency then
    Some {| frequency_ := frequency; current_fails_ := 0 |}
  else None.

(** [BeginFail]: the new monitor and whether [RestartCurrentSearch] was
    requested. *)
Definition BeginFail (m : ConstantRestart) : ConstantRestart * bool :=
  let fails := add (current_fails_ m) 1 in
  if frequency_ m <=? fails then
    ({| frequency_ := frequency_ m; current_fails_ := 0 |}, true)
  else ({| frequency_ := frequency_ m; current_fails_ := fails |}, false).

(** [n] failures in a row: the final monitor and the number of restarts
    requested on the way. *)
Fixpoint fail_n (n : nat) (m : ConstantRestart) : ConstantRestart * Z :=
  match n with
  | O => (m, 0)
  | S n' =>
      let (m', r) := BeginFail m in
      let (m'', c) := fail_n n' m' in
      (m'', (if r then 1 else 0) + c)
  end.

End ConstantRestart.

(** ** The XML writer ([util/xml_helper.cc]) *)

Module Xml.

Import Ascii.
Import (notations) String.

(** A [string] is the list of its characters. *)
Definition str := list ascii.

Definition quote : ascii := ascii_of_nat 34.
Definition apostrophe : ascii := ascii_of_nat 39.
Definition newline : ascii := ascii_of_nat 10.
Definition nul : ascii := ascii_of_nat 0.

Definition text (s : String.string) : str := String.list_ascii_of_string s.

(** [c_str()] printed with [%s]: the characters before the first NUL. *)
Fixpoint c_str (s : str) : str :=
  match s with
  | [] => []
  | c :: s' => if Ascii.eqb c nul then [] else c :: c_str s'
  end.

Record XmlHelper := mkXmlHelper {
  content_ : str;
  direction_down_ : bool;
  tags_ : list str
}.

(** [StartDocument]: ["<?xml version=\"1.0\"?>\n"]. *)
Definition header : str :=
  text "<?xml version=" ++ [quote] ++ text "1.0" ++ [quote] ++ text "?>"
  ++ [newline].

Definition StartDocument (x : XmlHelper) : XmlHelper :=
  {| content_ := header; direction_down_ := false; tags_ := tags_ x |}.

Definition StartElement (name : str) (x : XmlHelper) : XmlHelper :=
  let content :=
    if direction_down_ x then content_ x ++ text ">" ++ [newline]
    else content_ x in
  {| content_ := content ++ text "<" ++ c_str name;
     direction_down_ := true;
     tags_ := name :: tags_ x |}.

(** The [switch] of [AddAttribute] on one character. *)
Definition escape_char (c : ascii) : str :=
  if Ascii.eqb c quote then text "&quot;"
  else if Ascii.eqb c apostrophe then text "&apos;"
  else if Ascii.eqb c "<" then text "&lt;"
  else if Ascii.eqb c ">" then text "&gt;"
  else if Ascii.eqb c "&" then text "&amp;"
  else [c].

Fixpoint escape (value : str) : str :=
  match value with
  | [] => []
  | c :: value' => escape_char c ++ escape value'
  end.

Definition AddAttribute (key value : str) (x : XmlHelper) : XmlHelper :=
  {| content_ :=
       content_ x ++ text " " ++ c_str key ++ text "=" ++ [quote]
       ++ c_str (escape value) ++ [quote];
     direction_down_ := direction_down_ x;
     tags_ := tags_ x |}.

(** [EndElement]; [tags_.top()] on an empty stack is undefined. *)
Definition EndElement (x : XmlHelper) : option XmlHelper :=
  match tags_ x with
  | [] => None
  | tag :: tags' =>
      Some {| content_ :=
                if direction_down_ x then
                  content_ x ++ text " />" ++ [newline]
                else
                  content_ x ++ text "</" ++ c_str tag ++ text ">"
                  ++ [newline];
              direction_down_ := false;
              tags_ := tags' |}
  end.

Definition EndDocument (x : XmlHelper) : XmlHelper := x.

Definition GetContent (x : XmlHelper) : str := content_ x.

(** *** Documents *)

(** An element with its attributes and its children. *)
Inductive Element :=
| Elem (name : str) (attributes : list (str * str)) (children : list Element).

(** The calls that write an element: [StartElement], an [AddAttribute] for
    each attribute, the children, [EndElement]. *)
Definition add_attributes (attributes : list (str * str)) (x : XmlHelper)
    : XmlHelper :=
  fold_left (fun x kv => AddAttribute (fst kv) (snd kv) x) attributes x.

Fixpoint write (e : Element) (x : XmlHelper) : option XmlHelper :=
  match e with
  | Elem name attributes children =>
      let fix write_all (es : list Element) (x : XmlHelper)
          : option XmlHelper :=
        match es with
        | [] => Some x
        | e' :: es' =>
            match write e' x with
            | Some x' => write_all es' x'
            | None => None
            end
        end in
      match
        write_all children (add_attributes attributes (StartElement name x))
      with
      | Some x' => EndElement x'
      | None => None
      end
  end.

(** The text of an element: an empty element closes itself, another one
    encloses its children. *)
Definition attribute_text (kv : str * str) : str :=
  text " " ++ c_str (fst kv) ++ text "=" ++ [quote] ++ c_str (escape (snd kv))
  ++ [quote].

Fixpoint element_text (e : Element) : str :=
  match e with
  | Elem name attributes children =>
      text "<" ++ c_str name ++ concat (map attribute_text attributes)
      ++ match children with
         | [] => text " />" ++ [newline]
         | _ :: _ =>
             text ">" ++ [newline]
             ++ concat (map element_text children)
             ++ text "</" ++ c_str name ++ text ">" ++ [newline]
         end
  end.

(** The text that [StartElement] writes before a child when the parent is
    still open. *)
Definition closing (x : XmlHelper) : str :=
  if direction_down_ x then text ">" ++ [newline] else [].

(** The reading of an escaped value: each of the five entities stands for
    its character. *)
Fixpoint unescape (s : str) : str :=
  match s with
  | [] => []
  | c :: rest =>
      if Ascii.eqb c "&" then
        match rest with
        | "q" :: "u" :: "o" :: "t" :: ";" :: r => quote :: unescape r
        | "a" :: "p" :: "o" :: "s" :: ";" :: r => apostrophe :: unescape r
        | "l" :: "t" :: ";" :: r => "<"%char :: unescape r
        | "g" :: "t" :: ";" :: r => ">"%char :: unescape r
        | "a" :: "m" :: "p" :: ";" :: r => "&"%char :: unescape r
        | _ => c :: unescape rest
        end
      else c :: unescape rest
  end%char.

End Xml.

(** ** Bit operations on words and bitsets ([util/bitset.h]) *)

Module Bitset.

(** A [uint64] or [uint32] is an integer of [Z] reduced modulo the width. *)
Definition uint64 (z : Z) : Z := z mod 2 ^ 64.
Definition uint32 (z : Z) : Z := z mod 2 ^ 32.

Definition kAllBits64 : Z := 0xFFFFFFFFFFFFFFFF.
Definition kAllBits32 : Z := 0xFFFFFFFF.

(** [OneBit64] and [OneBit32]; the shift is defined for a position within
    the width, as every position below is. *)
Definition OneBit64 (pos : Z) : Z := uint64 (Z.shiftl 1 pos).
Definition OneBit32 (pos : Z) : Z := uint32 (Z.shiftl 1 pos).

Definition BitCount64 (n : Z) : Z :=
  let m1 := 0x5555555555555555 in
  let m2 := 0x3333333333333333 in
  let m4 := 0x0F0F0F0F0F0F0F0F in
  let h01 := 0x0101010101010101 in
  let n := uint64 (n - Z.land (Z.shiftr n 1) m1) in
  let n := uint64 (Z.land n m2 + Z.land (Z.shiftr n 2) m2) in
  let n := Z.land (uint64 (n + Z.shiftr n 4)) m4 in
  Z.shiftr (uint64 (n * h01)) 56.

Definition BitCount32 (n : Z) : Z :=
  let n := uint32 (n - Z.land (Z.shiftr n 1) 0x55555555) in
  let n := uint32 (Z.land n 0x33333333 + Z.land (Z.shiftr n 2) 0x33333333) in
  let n := Z.land (uint32 (n + Z.shiftr n 4)) 0x0F0F0F0F in
  let n := uint32 (n + Z.shiftr n 8) in
  let n := uint32 (n + Z.shiftr n 16) in
  Z.land n 0x0000003F.

Definition LeastSignificantBitWord64 (n : Z) : Z :=
  Z.land n (uint64 (Z.lnot (uint64 (n - 1)))).

Definition LeastSignificantBitWord32 (n : Z) : Z :=
  Z.land n (uint32 (Z.lnot (uint32 (n - 1)))).

(** [LeastSignificantBitPosition64] and [LeastSignificantBitPosition32], in
    the variant that [USE_DEBRUIJN] selects when no assembly is used. *)
Definition kSeq64 : Z := 0x0218a392dd5fb34f.

Definition kTab64 : list Z :=
  [ 0;  1;  2;  7;  3; 13;  8; 19;  4; 25; 14; 28;  9; 52; 20; 58;
    5; 17; 26; 56; 15; 38; 29; 40; 10; 49; 53; 31; 21; 34; 59; 42;
   63;  6; 12; 18; 24; 27; 51; 57; 16; 55; 37; 39; 48; 30; 33; 41;
   62; 11; 23; 50; 54; 36; 47; 32; 61; 22; 35; 46; 60; 45; 44; 43].

Definition LeastSignificantBitPosition64 (n : Z) : option Z :=
  kTab64 !! Z.to_nat
    (Z.shiftr (uint64 (Z.land n (uint64 (- n)) * kSeq64)) 58).

Definition kSeq32 : Z := 0x077CB531.

Definition kTab32 : list Z :=
  [ 0;  1;  3;  7; 14; 29; 27; 23; 15; 31; 30; 28; 25; 18;  5; 11;
   22; 13; 26; 21; 10; 20;  9; 19;  6; 12; 24; 17;  2;  4;  8; 16].

Definition LeastSignificantBitPosition32 (n : Z) : option Z :=
  kTab32 !! Z.to_nat
    (Z.shiftr (uint32 (Z.land n (uint32 (- n)) * kSeq32)) 27).

(** [MostSignificantBitPosition64] and [MostSignificantBitPosition32], in
    the variant without assembly.  One of the tests that shift:
    [if (0 != (n & (kAllBits64 << k))) { b |= k; n >>= k; }]; the last test
    only sets the lowest bit of [b]. *)
Definition msb_step64 (k : Z) (bn : Z * Z) : Z * Z :=
  let (b, n) := bn in
  if Z.land n (uint64 (Z.shiftl kAllBits64 k)) =? 0 then (b, n)
  else (Z.lor b k, Z.shiftr n k).

Definition MostSignificantBitPosition64 (n : Z) : Z :=
  let (b, n) :=
    msb_step64 2 (msb_step64 4 (msb_step64 8
      (msb_step64 16 (msb_step64 32 (0, n))))) in
  if Z.land n (uint64 (Z.shiftl kAllBits64 1)) =? 0 then b else Z.lor b 1.

Definition msb_step32 (k : Z) (bn : Z * Z) : Z * Z :=
  let (b, n) := bn in
  if Z.land n (uint32 (Z.shiftl kAllBits32 k)) =? 0 then (b, n)
  else (Z.lor b k, Z.shiftr n k).

Definition MostSignificantBitPosition32 (n : Z) : Z :=
  let (b, n) :=
    msb_step32 2 (msb_step32 4 (msb_step32 8 (msb_step32 16 (0, n)))) in
  if Z.land n (uint32 (Z.shiftl kAllBits32 1)) =? 0 then b else Z.lor b 1.

Definition OneRange64 (s e : Z) : Z :=
  Z.lxor (uint64 (Z.shiftl kAllBits64 s))
         (uint64 (Z.shiftl (kAllBits64 - 1) e)).

Definition OneRange32 (s e : Z) : Z :=
  Z.lxor (uint32 (Z.shiftl kAllBits32 s))
         (uint32 (Z.shiftl (kAllBits32 - 1) e)).

Definition IntervalUp64 (s : Z) : Z := uint64 (Z.shiftl kAllBits64 s).
Definition IntervalUp32 (s : Z) : Z := uint32 (Z.shiftl kAllBits32 s).
Definition IntervalDown64 (s : Z) : Z := Z.shiftr kAllBits64 (63 - s).
Definition IntervalDown32 (s : Z) : Z := Z.shiftr kAllBits32 (31 - s).

Definition BitPos64 (pos : Z) : Z := Z.land pos 63.
Definition BitPos32 (pos : Z) : Z := Z.land pos 31.
Definition BitOffset64 (pos : Z) : Z := Z.shiftr pos 6.
Definition BitOffset32 (pos : Z) : Z := Z.shiftr pos 5.
Definition BitLength64 (size : Z) : Z := Z.shiftr (uint64 (size + 63)) 6.
Definition BitLength32 (size : Z) : Z := Z.shiftr (uint32 (size + 31)) 5.
Definition BitShift64 (v : Z) : Z := uint64 (Z.shiftl v 6).
Definition BitShift32 (v : Z) : Z := uint32 (Z.shiftl v 5).

(** A bitset is an array of words; indexing past its end is undefined. *)
Definition IsBitSet64 (bitset : list Z) (pos : Z) : option bool :=
  match bitset !! Z.to_nat (BitOffset64 pos) with
  | Some w => Some (negb (Z.land w (OneBit64 (BitPos64 pos)) =? 0))
  | None => None
  end.

Definition SetBit64 (bitset : list Z) (pos : Z) : option (list Z) :=
  match bitset !! Z.to_nat (BitOffset64 pos) with
  | Some w =>
      Some (<[Z.to_nat (BitOffset64 pos) :=
                Z.lor w (OneBit64 (BitPos64 pos))]> bitset)
  | None => None
  end.

Definition ClearBit64 (bitset : list Z) (pos : Z) : option (list Z) :=
  match bitset !! Z.to_nat (BitOffset64 pos) with
  | Some w =>
      Some (<[Z.to_nat (BitOffset64 pos) :=
                Z.land w (uint64 (Z.lnot (OneBit64 (BitPos64 pos))))]> bitset)
  | None => None
  end.

Definition IsBitSet32 (bitset : list Z) (pos : Z) : option bool :=
  match bitset !! Z.to_nat (BitOffset32 pos) with
  | Some w => Some (negb (Z.land w (OneBit32 (BitPos32 pos)) =? 0))
  | None => None
  end.

Definition SetBit32 (bitset : list Z) (pos : Z) : option (list Z) :=
  match bitset !! Z.to_nat (BitOffset32 pos) with
  | Some w =>
      Some (<[Z.to_nat (BitOffset32 pos) :=
                Z.lor w (OneBit32 (BitPos32 pos))]> bitset)
  | None => None
  end.

Definition ClearBit32 (bitset : list Z) (pos : Z) : option (list Z) :=
  match bitset !! Z.to_nat (BitOffset32 pos) with
  | Some w =>
      Some (<[Z.to_nat (BitOffset32 pos) :=
                Z.land w (uint32 (Z.lnot (OneBit32 (BitPos32 pos))))]> bitset)
  | None => None
  end.

(** The number of bits set in a non-negative integer. *)
Fixpoint popcount_pos (p : positive) : Z :=
  match p with
  | xH => 1
  | xO q => popcount_pos q
  | xI q => 1 + popcount_pos q
  end.

Definition popcount (n : Z) : Z :=
  match n with
  | Zpos p => popcount_pos p
  | _ => 0
  end.

(** The position of a bit in the whole bitset: word [i], bit [j]. *)
Definition bit_at (bitset : list Z) (pos : Z) : option bool :=
  match bitset !! Z.to_nat (pos / 64) with
  | Some w => Some (Z.testbit w (pos mod 64))
  | None => None
  end.

(** The three masked additions of [BitCount64] and [BitCount32] on a word of
    [k] bytes, before reduction modulo the width; [rep k] is the word
    [0x01...01]. *)
Fixpoint rep (k : nat) : Z :=
  match k with
  | O => 0
  | S k' => 1 + 256 * rep k'
  end.

Definition pairs (k : nat) (n : Z) : Z :=
  n - Z.land (Z.shiftr n 1) (0x55 * rep k).

Definition nibbles (k : nat) (n : Z) : Z :=
  Z.land n (0x33 * rep k) + Z.land (Z.shiftr n 2) (0x33 * rep k).

Definition octets (k : nat) (n : Z) : Z :=
  Z.land (n + Z.shiftr n 4) (0x0F * rep k).

(** The word whose byte [i] is the number of bits set in byte [i] of [n]. *)
Fixpoint bytesum (k : nat) (n : Z) : Z :=
  match k with
  | O => 0
  | S k' => popcount (n mod 256) + 256 * bytesum k' (n / 256)
  end.

End Bitset.

(** * Properties *)

Module Int64Facts.

Import Int64.

Lemma wrap_id (z : Z) : in_range z -> wrap z = z.
Proof.
  unfold in_range, wrap, kint64min, kint64max. intros H.
  rewrite Z.mod_small; lia.
Qed.


Lemma wrap32_id (z : Z) : - 2 ^ 31 <= z <= kint32max -> wrap32 z = z.
Proof.
  unfold wrap32, kint32max. intros H. rewrite Z.mod_small; lia.
Qed.

End Int64Facts.

Module LubyFacts.

Import Int64 Int64Facts Luby.

Lemma least_power_spec (fuel : nat) :
  forall k i,
    1 <= k -> 1 <= i ->
    2 ^ (k - 1) < i + 1 ->
    i + 1 <= 2 ^ (k + Z.of_nat fuel) ->
    exists k', k <= k' /\ least_power fuel (2 ^ k) i = Some (2 ^ k') /\
               2 ^ (k' - 1) < i + 1 <= 2 ^ k'.
Proof.
  induction fuel as [|fuel IH]; intros k i Hk Hi Hlow Hup; simpl.
  - rewrite Z.add_0_r in Hup.
    destruct (Z.ltb_spec (2 ^ k) (i + 1)) as [Hlt|Hge]; [lia|].
    exists k. repeat split; lia.
  - destruct (Z.ltb_spec (2 ^ k) (i + 1)) as [Hlt|Hge].
    + rewrite Z.shiftl_mul_pow2 by lia.
      replace (2 ^ k * 2 ^ 1) with (2 ^ (k + 1))
        by (rewrite Z.pow_add_r by lia; reflexivity).
      destruct (IH (k + 1) i) as (k' & Hk' & Heq & Hb); try lia.
      * replace (k + 1 - 1) with k by lia. exact Hlt.
      * replace (k + 1 + Z.of_nat fuel) with (k + Z.of_nat (S fuel)) by lia.
        exact Hup.
      * exists k'. repeat split; [lia | exact Heq | lia | lia].
    + exists k. repeat split; lia.
Qed.

(** On the domain asserted by the source, the loop finds the least power
    of two that is at least [i + 1]. *)
Lemma least_power_64 (i : Z) :
  1 <= i < kint32max ->
  exists k, 1 <= k /\ least_power 64 2 i = Some (2 ^ k) /\
            2 ^ (k - 1) < i + 1 <= 2 ^ k.
Proof.
  intros Hi. unfold kint32max in Hi.
  assert (H1 : 2 ^ (1 - 1) < i + 1) by (change (2 ^ (1 - 1)) with 1; lia).
  assert (H2 : i + 1 <= 2 ^ (1 + Z.of_nat 64))
    by (change (2 ^ (1 + Z.of_nat 64)) with (2 ^ 65); lia).
  destruct (least_power_spec 64 1 i ltac:(lia) ltac:(lia) H1 H2)
    as (k & Hk & Heq & Hb).
  exists k. repeat split; [lia | exact Heq | lia | lia].
Qed.

Lemma pow2_half (k : Z) : 1 <= k -> 2 ^ k / 2 = 2 ^ (k - 1).
Proof.
  intros Hk. replace k with (k - 1 + 1) at 1 by lia.
  rewrite Z.pow_add_r by lia. change (2 ^ 1) with 2.
  rewrite Z.div_mul by lia. reflexivity.
Qed.

Lemma pow2_double (k : Z) : 1 <= k -> 2 ^ k = 2 * 2 ^ (k - 1).
Proof.
  intros Hk. replace k with (k - 1 + 1) at 1 by lia.
  rewrite Z.pow_add_r by lia. lia.
Qed.

Lemma NextLuby_fuel_S (fuel : nat) (i : Z) :
  NextLuby_fuel (S fuel) i =
  match least_power 64 2 i with
  | None => None
  | Some power =>
      if power =? i + 1 then Some (power / 2)
      else NextLuby_fuel fuel (i - power / 2 + 1)
  end.
Proof. reflexivity. Qed.

(** Enough fuel gives a value, and that value is between 1 and
    [(i + 1) / 2]. *)
Lemma NextLuby_fuel_enough (fuel : nat) :
  forall i, 1 <= i < kint32max -> (Z.to_nat i <= fuel)%nat ->
            exists v, NextLuby_fuel fuel i = Some v /\ 1 <= v /\ 2 * v <= i + 1.
Proof.
  induction fuel as [|fuel IH]; intros i Hi Hf; [lia|].
  destruct (least_power_64 i Hi) as (k & Hk & Heq & Hlow & Hup).
  rewrite NextLuby_fuel_S, Heq.
  pose proof (pow2_double k Hk) as Hd.
  assert (0 < 2 ^ (k - 1)) by (apply Z.pow_pos_nonneg; lia).
  destruct (Z.eqb_spec (2 ^ k) (i + 1)) as [He|Hne].
  - exists (2 ^ k / 2). rewrite pow2_half by lia.
    repeat split; lia.
  - rewrite pow2_half by lia.
    assert (2 <= k).
    { destruct (Z.eq_dec k 1) as [->|]; [|lia]. simpl in *. lia. }
    assert (2 <= 2 ^ (k - 1)).
    { replace (k - 1) with (k - 2 + 1) by lia.
      rewrite Z.pow_add_r by lia.
      assert (0 < 2 ^ (k - 2)) by (apply Z.pow_pos_nonneg; lia). lia. }
    destruct (IH (i - 2 ^ (k - 1) + 1)) as (v & Hv & Hv1 & Hv2);
      [lia | lia |].
    exists v. repeat split; [exact Hv | lia | lia].
Qed.

(** More fuel does not change a value already found. *)
Lemma NextLuby_fuel_mono (fuel : nat) :
  forall fuel' i v,
    NextLuby_fuel fuel i = Some v -> (fuel <= fuel')%nat ->
    NextLuby_fuel fuel' i = Some v.
Proof.
  induction fuel as [|fuel IH]; intros fuel' i v Hv Hle; [discriminate|].
  destruct fuel' as [|fuel']; [lia|].
  rewrite NextLuby_fuel_S in *.
  destruct (least_power 64 2 i) as [p|]; [|discriminate].
  destruct (p =? i + 1); [exact Hv|].
  apply IH; [exact Hv | lia].
Qed.

Lemma NextLuby_some (i : Z) :
  1 <= i < kint32max ->
  exists v, NextLuby i = Some v /\ 1 <= v /\ 2 * v <= i + 1.
Proof.
  intros Hi. apply NextLuby_fuel_enough; [exact Hi | lia].
Qed.

Lemma NextLuby_unfold (i : Z) :
  1 <= i < kint32max ->
  exists k, 1 <= k /\ 2 ^ (k - 1) < i + 1 <= 2 ^ k /\
    NextLuby i =
      if 2 ^ k =? i + 1 then Some (2 ^ (k - 1))
      else NextLuby (i - 2 ^ (k - 1) + 1).
Proof.
  intros Hi.
  destruct (least_power_64 i Hi) as (k & Hk & Heq & Hlow & Hup).
  exists k. split; [exact Hk|]. split; [lia|].
  pose proof (pow2_double k Hk) as Hd.
  assert (0 < 2 ^ (k - 1)) by (apply Z.pow_pos_nonneg; lia).
  unfold NextLuby at 1.
  destruct (Z.to_nat i) as [|n] eqn:Hn; [lia|].
  rewrite NextLuby_fuel_S, Heq, pow2_half by lia.
  destruct (Z.eqb_spec (2 ^ k) (i + 1)) as [He|Hne]; [reflexivity|].
  assert (2 <= 2 ^ (k - 1)).
  { destruct (Z.eq_dec k 1) as [->|]; [simpl in *; lia|].
    replace (k - 1) with (k - 2 + 1) by lia.
    rewrite Z.pow_add_r by lia.
    assert (0 < 2 ^ (k - 2)) by (apply Z.pow_pos_nonneg; lia). lia. }
  destruct (NextLuby_some (i - 2 ^ (k - 1) + 1)) as (v & Hv & _); [lia|].
  rewrite Hv. apply NextLuby_fuel_mono with (fuel := Z.to_nat (i - 2 ^ (k - 1) + 1));
    [exact Hv | lia].
Qed.

(** C5.  On the domain the source asserts ([0 < i < kint32max]) [NextLuby]
    returns, and its value obeys the classical recurrence: with [2 ^ k] the
    least power of two that is at least [i + 1], it is [2 ^ (k - 1)] when
    [i + 1 = 2 ^ k] and [NextLuby (i - 2 ^ (k - 1) + 1)] otherwise; on
    1, ..., 16 it yields 1,1,2,1,1,2,4,1,1,2,1,1,2,4,8,1. *)
Theorem NextLuby_recurrence :
  (forall i, 0 < i < kint32max ->
     exists k v,
       1 <= k /\ 2 ^ (k - 1) < i + 1 <= 2 ^ k /\
       NextLuby i = Some v /\
       (i + 1 = 2 ^ k -> v = 2 ^ (k - 1)) /\
       (i + 1 <> 2 ^ k -> NextLuby (i - 2 ^ (k - 1) + 1) = Some v)) /\
  map NextLuby [1; 2; 3; 4; 5; 6; 7; 8; 9; 10; 11; 12; 13; 14; 15; 16] =
  map Some [1; 1; 2; 1; 1; 2; 4; 1; 1; 2; 1; 1; 2; 4; 8; 1].
Proof.
  split; [|vm_compute; reflexivity].
  intros i Hi.
  destruct (NextLuby_unfold i) as (k & Hk & Hb & Hrec); [lia|].
  destruct (NextLuby_some i) as (v & Hv & _); [lia|].
  exists k, v. repeat split; try lia; try exact Hv.
  - intros He. rewrite Hrec, He, Z.eqb_refl in Hv. congruence.
  - intros Hne. rewrite Hrec in Hv.
    destruct (Z.eqb_spec (2 ^ k) (i + 1)); [lia | exact Hv].
Qed.

Lemma NextLuby_recurrence_witness :
  0 < 6 < kint32max /\
  exists k v,
    1 <= k /\ 2 ^ (k - 1) < 6 + 1 <= 2 ^ k /\
    NextLuby 6 = Some v /\
    (6 + 1 = 2 ^ k -> v = 2 ^ (k - 1)) /\
    (6 + 1 <> 2 ^ k -> NextLuby (6 - 2 ^ (k - 1) + 1) = Some v).
Proof.
  split; [unfold kint32max; lia|].
  apply (proj1 NextLuby_recurrence 6). unfold kint32max; lia.
Defined.

(** *** The restart monitor *)

Lemma luby_bounds (i : Z) :
  1 <= i < kint32max -> NextLuby i = Some (luby i) /\ 1 <= luby i /\ 2 * luby i <= i + 1.
Proof.
  intros Hi. destruct (NextLuby_some i Hi) as (v & Hv & Hb).
  unfold luby. rewrite Hv. simpl. split; [reflexivity | exact Hb].
Qed.

Lemma sum_luby_nonneg (k : nat) :
  Z.of_nat k < kint32max -> 0 <= sum_luby k.
Proof.
  induction k as [|k IH]; intros Hk; [simpl; lia|].
  change (sum_luby (S k)) with (sum_luby k + luby (Z.of_nat (S k))).
  pose proof (luby_bounds (Z.of_nat (S k)) ltac:(lia)). lia.
Qed.

Lemma fail_n_app (a b : nat) (m : LubyRestart) :
  fail_n (a + b) m =
  match fail_n a m with
  | None => None
  | Some (m', c) =>
      match fail_n b m' with
      | None => None
      | Some (m'', c') => Some (m'', c + c')
      end
  end.
Proof.
  revert m. induction a as [|a IH]; intros m; simpl.
  - destruct (fail_n b m) as [[m' c]|]; reflexivity.
  - destruct (BeginFail m) as [[m1 r]|]; [|reflexivity].
    rewrite IH. destruct (fail_n a m1) as [[m2 c]|]; [|reflexivity].
    destruct (fail_n b m2) as [[m3 c']|]; [|reflexivity].
    f_equal. f_equal. lia.
Qed.

Section Schedule.

Variable scale : Z.
Hypothesis scale_range : 1 <= scale <= kint32max.

Lemma threshold_bounds (j : Z) :
  1 <= j < kint32max -> 1 <= luby j * scale < 2 ^ 62.
Proof.
  intros Hj. destruct (luby_bounds j Hj) as (_ & H1 & H2).
  unfold kint32max in *. split; [nia|].
  assert (luby j <= 2 ^ 30) by lia.
  assert (luby j * scale <= 2 ^ 30 * 2 ^ 31) by nia.
  change (2 ^ 30 * 2 ^ 31) with (2 ^ 61) in *. lia.
Qed.

(** Below the threshold a failure is only counted. *)
Lemma BeginFail_count (j c : Z) :
  1 <= j < kint32max -> 0 <= c -> c + 1 < luby j * scale ->
  BeginFail (counting scale j c) = Some (counting scale j (c + 1), false).
Proof.
  intros Hj Hc Hlt. pose proof (threshold_bounds j Hj) as Hb.
  unfold BeginFail, counting; simpl. unfold add.
  rewrite wrap_id by (unfold in_range, kint64min, kint64max; lia).
  destruct (Z.leb_spec (luby j * scale) (c + 1)); [lia | reflexivity].
Qed.

(** The failure that reaches the threshold requests a restart and opens the
    next iteration. *)
Lemma BeginFail_restart (j c : Z) :
  1 <= j -> j + 1 < kint32max -> 0 <= c -> c + 1 = luby j * scale ->
  BeginFail (counting scale j c) = Some (counting scale (j + 1) 0, true).
Proof.
  intros Hj Hj' Hc Heq.
  pose proof (threshold_bounds j ltac:(lia)) as Hb.
  pose proof (threshold_bounds (j + 1) ltac:(lia)) as Hb'.
  destruct (luby_bounds (j + 1) ltac:(lia)) as (Hl & _).
  unfold BeginFail, counting; simpl. unfold add, mul.
  rewrite wrap_id by (unfold in_range, kint64min, kint64max; lia).
  destruct (Z.leb_spec (luby j * scale) (c + 1)); [|lia].
  rewrite wrap32_id by (unfold kint32max in *; lia).
  rewrite Hl.
  rewrite wrap_id by (unfold in_range, kint64min, kint64max; lia).
  reflexivity.
Qed.

Lemma fail_n_count (n : nat) :
  forall j c,
    1 <= j < kint32max -> 0 <= c -> c + Z.of_nat n < luby j * scale ->
    fail_n n (counting scale j c) = Some (counting scale j (c + Z.of_nat n), 0).
Proof.
  induction n as [|n IH]; intros j c Hj Hc Hlt.
  - simpl. rewrite Z.add_0_r. reflexivity.
  - cbn [fail_n]. rewrite BeginFail_count by lia.
    rewrite IH by lia. do 3 f_equal. lia.
Qed.

(** One whole iteration: [luby j * scale] failures end in the restart. *)
Lemma fail_n_iteration (j : Z) :
  1 <= j -> j + 1 < kint32max ->
  fail_n (Z.to_nat (luby j * scale)) (counting scale j 0) =
  Some (counting scale (j + 1) 0, 1).
Proof.
  intros Hj Hj'. pose proof (threshold_bounds j ltac:(lia)) as Hb.
  replace (Z.to_nat (luby j * scale))
    with (Z.to_nat (luby j * scale - 1) + 1)%nat by lia.
  rewrite fail_n_app, fail_n_count by lia.
  cbn [fail_n]. rewrite BeginFail_restart by lia. reflexivity.
Qed.

Lemma MakeLubyRestart_counting : MakeLubyRestart scale = counting scale 1 0.
Proof.
  unfold MakeLubyRestart, counting. f_equal.
  change (luby 1) with 1. lia.
Qed.

(** After [scale * sum_luby k] failures the monitor has requested [k] restarts
    and starts iteration [k + 1]. *)
Lemma fail_n_restarts (k : nat) :
  Z.of_nat k + 1 < kint32max ->
  fail_n (Z.to_nat (scale * sum_luby k)) (MakeLubyRestart scale) =
  Some (counting scale (Z.of_nat k + 1) 0, Z.of_nat k).
Proof.
  induction k as [|k IH]; intros Hk.
  - simpl sum_luby. rewrite Z.mul_0_r. simpl.
    rewrite MakeLubyRestart_counting. reflexivity.
  - change (sum_luby (S k)) with (sum_luby k + luby (Z.of_nat (S k))).
    pose proof (sum_luby_nonneg k ltac:(lia)) as Hs.
    pose proof (threshold_bounds (Z.of_nat (S k)) ltac:(lia)) as Hb.
    replace (Z.to_nat (scale * (sum_luby k + luby (Z.of_nat (S k)))))
      with (Z.to_nat (scale * sum_luby k) +
            Z.to_nat (luby (Z.of_nat (S k)) * scale))%nat by nia.
    rewrite fail_n_app, IH by lia.
    replace (Z.of_nat k + 1) with (Z.of_nat (S k)) by lia.
    rewrite fail_n_iteration by lia.
    do 2 f_equal. lia.
Qed.

End Schedule.

(** C6, as amended.  Failures are counted from the construction of the monitor
    (no hook resets the counters).  For a scale factor between 1 and
    [kint32max], the number of restarts requested in the first [n] failures is
    [k] exactly while [scale * sum_luby k <= n < scale * sum_luby (k + 1)]:
    the request number [k] is made by failure number
    [scale * (luby 1 + ... + luby k)]. *)
Theorem LubyRestart_schedule (scale : Z) (k n : nat) :
  1 <= scale <= kint32max ->
  Z.of_nat k + 1 < kint32max ->
  scale * sum_luby k <= Z.of_nat n < scale * sum_luby (S k) ->
  exists m, fail_n n (MakeLubyRestart scale) = Some (m, Z.of_nat k).
Proof.
  intros Hs Hk [Hlo Hhi].
  change (sum_luby (S k)) with (sum_luby k + luby (Z.of_nat (S k))) in Hhi.
  pose proof (sum_luby_nonneg k ltac:(lia)) as Hn.
  replace n with (Z.to_nat (scale * sum_luby k) +
                  (n - Z.to_nat (scale * sum_luby k)))%nat by nia.
  rewrite fail_n_app, (fail_n_restarts scale Hs k Hk).
  replace (Z.of_nat (S k)) with (Z.of_nat k + 1) in Hhi by lia.
  rewrite fail_n_count; [| exact Hs | lia | lia | nia].
  eexists. do 2 f_equal. lia.
Qed.

Lemma LubyRestart_schedule_witness :
  exists m, fail_n 8 (MakeLubyRestart 2) = Some (m, 3).
Proof.
  apply (LubyRestart_schedule 2 3 8); vm_compute; split; congruence.
Defined.

(** C6, as stated, fails: the counters survive [EnterSearch].  A monitor of
    scale 2 that saw one failure in a first search requests its next restart
    at the first failure of the second search, before the
    [2 * luby 1 = 2] failures of the claim. *)
Lemma LubyRestart_not_reset_by_EnterSearch :
  exists m1 m2,
    fail_n 1 (MakeLubyRestart 2) = Some (m1, 0) /\
    fail_n 1 (EnterSearch m1) = Some (m2, 1) /\
    1 < 2 * sum_luby 1.
Proof.
  do 2 eexists. repeat split.
Qed.

End LubyFacts.

Module LimitFacts.

Import Int64 Int64Facts Limit.



(** Without the smart time check the poll counters never schedule a skip. *)
Lemma CheckTime_next_check (s : Solver) (l : RegularLimit) :
  smart_time_check_ l = false ->
  next_check_ (snd (CheckTime s l)) = next_check_ l /\
  smart_time_check_ (snd (CheckTime s l)) = false.
Proof.
  intros Hs. unfold CheckTime. rewrite Hs. simpl.
  destruct (negb (wall_time_ l =? kint64max) &&
            (next_check_ l <=? add (check_count_ l) 1)); simpl; auto.
Qed.


(** In a limit without the smart time check that has been through
    [EnterSearch], the clock is polled at every call as long as the count of
    calls fits an [int64]. *)
Lemma Check_never_skips (l : RegularLimit) :
  next_check_ l = 0 -> 0 <= check_count_ l < kint64max ->
  ~ poll_skipped l.
Proof.
  unfold poll_skipped, add. intros Hn Hc.
  rewrite wrap_id by (unfold in_range, kint64min, kint64max in *; lia). lia.
Qed.


(** Each call of [Check] counts at most one poll, and without the smart time
    check it leaves [next_check_] alone. *)
Lemma Check_counters (s : Solver) (l : RegularLimit) :
  smart_time_check_ l = false ->
  0 <= check_count_ l < kint64max ->
  smart_time_check_ (snd (Check s l)) = false /\
  next_check_ (snd (Check s l)) = next_check_ l /\
  check_count_ l <= check_count_ (snd (Check s l)) <= check_count_ l + 1.
Proof.
  intros Hs Hc. unfold Check.
  destruct (branches_ l <? sub (branches s) (branches_offset_ l));
    [simpl; repeat split; auto; lia|].
  destruct (failures_ l <? sub (failures s) (failures_offset_ l));
    [simpl; repeat split; auto; lia|].
  assert (Hadd : add (check_count_ l) 1 = check_count_ l + 1).
  { unfold add. apply wrap_id.
    unfold in_range, kint64min, kint64max in *. lia. }
  assert (H : smart_time_check_ (snd (CheckTime s l)) = false /\
              next_check_ (snd (CheckTime s l)) = next_check_ l /\
              check_count_ (snd (CheckTime s l)) = check_count_ l + 1).
  { unfold CheckTime. rewrite Hs, Hadd. simpl.
    destruct (negb (wall_time_ l =? kint64max) &&
              (next_check_ l <=? check_count_ l + 1)); simpl; auto. }
  destruct (CheckTime s l) as [t l']. simpl in H.
  destruct t; simpl; repeat split; try tauto; lia.
Qed.

(** A limit without the smart time check polls the clock at every call of
    [Check] after [EnterSearch], for as many calls as an [int64] counts. *)
Lemma unsmart_limit_always_polls (ss : list Solver) :
  forall l,
    smart_time_check_ l = false ->
    next_check_ l = 0 ->
    0 <= check_count_ l ->
    check_count_ l + Z.of_nat (length ss) < kint64max ->
    ~ poll_skipped (checks ss l).
Proof.
  induction ss as [|s ss IH]; intros l Hs Hn Hc Hlen; simpl in *.
  - apply (Check_never_skips l); [exact Hn | lia].
  - destruct (Check_counters s l Hs ltac:(lia)) as (Hs' & Hn' & Hc').
    apply IH; [exact Hs' | congruence | lia | lia].
Qed.

(** With the smart time check a poll can be skipped while the time budget is
    exceeded: after 101 calls at time 1 with a budget of 1000, the next poll
    is scheduled 100 calls later, and a call at time 5000 answers false. *)
Lemma smart_limit_skips_poll :
  let s0 := mkSolver 0 0 0 0 in
  let l := EnterSearch s0 (MakeLimit 1000 kint64max kint64max kint64max true) in
  let l' := checks (replicate 101 (mkSolver 1 0 0 0)) l in
  let s := mkSolver 5000 0 0 0 in
  next_check_ l' = 201 /\
  wall_time_ l' < time_delta s l' /\
  fst (Check s l') = false.
Proof. vm_compute. repeat split; congruence. Qed.

End LimitFacts.

Module CollectorFacts.

Import Collector.

Lemma Store_Store (s s' : Solver) (a : Assignment) :
  Store s (Store s' a) = Store s a.
Proof. reflexivity. Qed.

Lemma from_search_BaseEnterSearch (b : SolutionCollector) :
  from_search (prototype_ b) [] (BaseEnterSearch b).
Proof.
  split; [reflexivity|]. split; [|constructor].
  exists []. repeat split; constructor.
Qed.

Lemma from_search_weaken (p : option Assignment) (evs evs' : list Solver)
    (b : SolutionCollector) :
  (forall s, In s evs -> In s evs') ->
  from_search p evs b -> from_search p evs' b.
Proof.
  intros Hsub (Hp & (ss & Hss & Heqs) & Hr).
  split; [exact Hp|]. split.
  - exists ss. split; [|exact Heqs].
    eapply Forall_impl; [exact Hss|]. intros s Hs; simpl in *; auto.
  - eapply Forall_impl; [exact Hr|]. simpl.
    intros a (s & Hs & Ha). exists s. auto.
Qed.

Lemma Forall_removelast {A : Type} (P : A -> Prop) (l : list A) :
  Forall P l -> Forall P (removelast l).
Proof.
  intros H. destruct (last l) as [x|] eqn:Hl.
  - apply last_Some in Hl as [l' ->]. rewrite removelast_last.
    apply Forall_app in H. tauto.
  - apply last_None in Hl. subst l. constructor.
Qed.

Lemma from_search_PushSolution (p : option Assignment) (evs : list Solver)
    (s : Solver) (b : SolutionCollector) :
  In s evs -> from_search p evs b -> from_search p evs (PushSolution s b).
Proof.
  intros Hs (Hp & (ss & Hss & Hsol & Ht & Hb & Hf & Ho) & Hr).
  assert (Hnew :
    exists recycle,
      (match prototype_ b with
       | Some p0 =>
           match last (recycle_solutions_ b) with
           | Some r => (Some (Store s r), removelast (recycle_solutions_ b))
           | None => (Some (Store s p0), recycle_solutions_ b)
           end
       | None => (None, recycle_solutions_ b)
       end) = (stored p s, recycle) /\
      Forall (fun a => exists s, In s evs /\ Some a = stored p s) recycle).
  { rewrite Hp. destruct p as [p0|]; simpl.
    - destruct (last (recycle_solutions_ b)) as [r|] eqn:Hl.
      + exists (removelast (recycle_solutions_ b)).
        split; [|apply Forall_removelast; exact Hr].
        apply last_Some in Hl as [l' Hl]. rewrite Hl in Hr.
        apply Forall_app in Hr as [_ Hr]. apply Forall_inv in Hr.
        destruct Hr as (s' & _ & Hx). simpl in Hx. injection Hx as ->.
        reflexivity.
      + exists (recycle_solutions_ b). split; [reflexivity | exact Hr].
    - exists (recycle_solutions_ b). split; [reflexivity | exact Hr]. }
  destruct Hnew as (recycle & Heq & Hrec).
  unfold PushSolution. rewrite Heq.
  split; [exact Hp|]. split; [|exact Hrec]. simpl.
  exists (ss ++ [s]). rewrite !map_app. simpl.
  rewrite Hsol, Ht, Hb, Hf, Ho.
  repeat split; try reflexivity.
  apply Forall_app. split; [exact Hss | repeat constructor; exact Hs].
Qed.

Lemma from_search_PopSolution (p : option Assignment) (evs : list Solver)
    (b : SolutionCollector) :
  from_search p evs b -> from_search p evs (PopSolution b).
Proof.
  intros (Hp & (ss & Hss & Hsol & Ht & Hb & Hf & Ho) & Hr).
  unfold PopSolution.
  destruct (last (solutions_ b)) as [popped|] eqn:Hl.
  2:{ split; [exact Hp|]. split; [|exact Hr]. exists ss. tauto. }
  destruct (last ss) as [s|] eqn:Hls.
  2:{ apply last_None in Hls. subst ss. rewrite Hsol in Hl. discriminate. }
  apply last_Some in Hls as [ss' ->].
  rewrite Hsol, map_app in Hl. simpl in Hl. rewrite last_snoc in Hl.
  injection Hl as <-.
  apply Forall_app in Hss as [Hss' Hs]. apply Forall_inv in Hs as Hin.
  split; [exact Hp|]. simpl. split.
  - exists ss'. rewrite Hsol, Ht, Hb, Hf, Ho, !map_app. simpl.
    rewrite !removelast_last. tauto.
  - destruct (stored p s) as [a|] eqn:Ha; [|exact Hr].
    apply Forall_app. split; [exact Hr|]. repeat constructor.
    exists s. split; [exact Hin | congruence].
Qed.

Lemma from_search_AtSolution (p : option Assignment) (evs : list Solver)
    (s : Solver) (c : Collector) :
  from_search p evs (base_of c) ->
  from_search p (evs ++ [s]) (base_of (fst (AtSolution s c))).
Proof.
  intros H.
  assert (Hin : In s (evs ++ [s])) by (apply in_or_app; right; left; reflexivity).
  assert (H' : from_search p (evs ++ [s]) (base_of c)).
  { eapply from_search_weaken; [|exact H]. intros; apply in_or_app; auto. }
  pose proof (from_search_PushSolution _ _ _ _ Hin H') as Hpush.
  pose proof (from_search_PushSolution _ _ _ _ Hin
                (from_search_PopSolution _ _ _ H')) as Hpoppush.
  destruct c as [b d|b|b m best|b]; simpl in *.
  - destruct d; simpl; assumption.
  - assumption.
  - destruct (prototype_ b) as [p0|]; [|exact H'].
    destruct (a_objective p0) as [o|]; [|exact H'].
    destruct (m && (best <? var_max s o)); [exact Hpoppush|].
    destruct (negb m && (var_min s o <? best)); [exact Hpoppush | exact H'].
  - assumption.
Qed.

Lemma from_search_at_solutions (p : option Assignment) (ss : list Solver) :
  forall evs c,
    from_search p evs (base_of c) ->
    from_search p (evs ++ ss) (base_of (at_solutions ss c)).
Proof.
  induction ss as [|s ss IH]; intros evs c H; simpl.
  - rewrite app_nil_r. exact H.
  - replace (evs ++ s :: ss) with ((evs ++ [s]) ++ ss)
      by (rewrite <- app_assoc; reflexivity).
    apply IH. apply from_search_AtSolution. exact H.
Qed.

Lemma prototype_EnterSearch (c : Collector) :
  prototype_ (base_of (EnterSearch c)) = prototype_ (base_of c).
Proof. destruct c; reflexivity. Qed.

Lemma from_search_EnterSearch (c : Collector) :
  from_search (prototype_ (base_of c)) [] (base_of (EnterSearch c)).
Proof.
  destruct c; simpl; apply from_search_BaseEnterSearch.
Qed.

(** Under the invariant, the accessors at a valid index all report the same
    solution of the search. *)
Lemma from_search_accessors (p : option Assignment) (evs : list Solver)
    (c : Collector) (n : Z) :
  from_search p evs (base_of c) ->
  check_index c n = true ->
  exists s, In s evs /\
    solution c n = Some (stored p s) /\
    solution_wall_time c n = Some (wall_time s) /\
    solution_branches c n = Some (branches s) /\
    solution_failures c n = Some (failures s) /\
    objective_value c n = Some (stored_objective p s).
Proof.
  intros (Hp & (ss & Hss & Hsol & Ht & Hb & Hf & Ho) & _) Hn.
  unfold solution, solution_wall_time, solution_branches, solution_failures,
    objective_value, at_index.
  rewrite Hn. unfold check_index in Hn. rewrite Hsol, length_map in Hn.
  apply andb_true_iff in Hn as [H0 H1].
  apply Z.leb_le in H0. apply Z.ltb_lt in H1.
  destruct (lookup_lt_is_Some_2 ss (Z.to_nat n) ltac:(lia)) as [s Hs].
  exists s. split.
  - rewrite Forall_forall in Hss. apply Hss.
    eapply list_elem_of_lookup_2. exact Hs.
  - rewrite Hsol, Ht, Hb, Hf, Ho, !list_lookup_fmap, Hs. simpl. tauto.
Qed.

Lemma solutions_PushSolution (s : Solver) (b : SolutionCollector) :
  length (solutions_ (PushSolution s b)) = S (length (solutions_ b)).
Proof.
  unfold PushSolution.
  destruct (prototype_ b) as [p|];
    [destruct (last (recycle_solutions_ b))|]; simpl;
    rewrite length_app; simpl; lia.
Qed.

(** C9.  For each of the four collectors, [EnterSearch] empties the solutions,
    the recycled slots and the four vectors of statistics, so that
    [solution_count] is 0 right after it, and leaves the first-solution flag
    down, so that [FirstSolutionCollector] captures the next solution; whatever
    the collector held before, every valid index of every accessor after the
    solutions [ss] of the new search reports a solution recorded in one of
    the solver states of [ss]. *)
Theorem EnterSearch_discards (c : Collector) :
  let c0 := EnterSearch c in
  solution_count c0 = 0 /\
  solutions_ (base_of c0) = [] /\
  recycle_solutions_ (base_of c0) = [] /\
  times_ (base_of c0) = [] /\
  branches_ (base_of c0) = [] /\
  failures_ (base_of c0) = [] /\
  objective_values_ (base_of c0) = [] /\
  done_flag c0 = false /\
  (forall b d s,
      c = FirstSolutionCollector b d ->
      solution_count (fst (AtSolution s c0)) = 1) /\
  (forall ss n,
      check_index (at_solutions ss c0) n = true ->
      exists s, In s ss /\
        solution (at_solutions ss c0) n =
          Some (stored (prototype_ (base_of c)) s) /\
        solution_wall_time (at_solutions ss c0) n = Some (wall_time s) /\
        solution_branches (at_solutions ss c0) n = Some (branches s) /\
        solution_failures (at_solutions ss c0) n = Some (failures s) /\
        objective_value (at_solutions ss c0) n =
          Some (stored_objective (prototype_ (base_of c)) s)).
Proof.
  cbv zeta. repeat split; try (destruct c; reflexivity).
  - intros b d s ->. unfold solution_count. simpl.
    rewrite solutions_PushSolution. reflexivity.
  - intros ss n Hn.
    apply (from_search_accessors (prototype_ (base_of c)) ss); [|exact Hn].
    apply (from_search_at_solutions _ ss [] (EnterSearch c)).
    apply from_search_EnterSearch.
Qed.

Lemma EnterSearch_discards_witness :
  solution_count stale_collector = 1 /\
  exists s, In s [fresh_solver] /\
    solution (at_solutions [fresh_solver] (EnterSearch stale_collector)) 0 =
      Some (stored (prototype_ (base_of stale_collector)) s) /\
    solution_wall_time
      (at_solutions [fresh_solver] (EnterSearch stale_collector)) 0 =
      Some (wall_time s) /\
    solution_branches
      (at_solutions [fresh_solver] (EnterSearch stale_collector)) 0 =
      Some (branches s) /\
    solution_failures
      (at_solutions [fresh_solver] (EnterSearch stale_collector)) 0 =
      Some (failures s) /\
    objective_value
      (at_solutions [fresh_solver] (EnterSearch stale_collector)) 0 =
      Some (stored_objective (prototype_ (base_of stale_collector)) s).
Proof.
  split; [reflexivity|].
  apply (EnterSearch_discards stale_collector). reflexivity.
Defined.

End CollectorFacts.

Module IntVarFacts.

Import IntVar.

Lemma Contains_In (v : IntVar) (k : Z) :
  Contains v k = true <-> In k (domain v).
Proof.
  unfold Contains. rewrite existsb_exists. split.
  - intros (x & Hx & He). apply Z.eqb_eq in He. subst. exact Hx.
  - intros H. exists k. split; [exact H | apply Z.eqb_refl].
Qed.

(** A reduction keeps exactly the values that pass, and fails exactly when
    none does. *)
Lemma restrict_Some (keep : Z -> bool) (v v' : IntVar) (k : Z) :
  restrict keep v = Some v' ->
  (Contains v' k = true <-> Contains v k = true /\ keep k = true).
Proof.
  unfold restrict. intros H.
  assert (Hd : domain v' = filter (fun k => Is_true (keep k)) (domain v)).
  { destruct (filter _ (domain v)); [discriminate|].
    injection H as <-. reflexivity. }
  rewrite !Contains_In, Hd, <- !list_elem_of_In, list_elem_of_filter.
  rewrite Is_true_true. tauto.
Qed.

Lemma restrict_None (keep : Z -> bool) (v : IntVar) :
  restrict keep v = None <->
  forall k, Contains v k = true -> keep k = false.
Proof.
  unfold restrict. split.
  - intros H k Hk.
    destruct (filter _ (domain v)) eqn:Hf; [|discriminate].
    destruct (keep k) eqn:Hkeep; [|reflexivity].
    assert (Hin : k ∈ filter (fun k => Is_true (keep k)) (domain v)).
    { apply list_elem_of_filter. split; [apply Is_true_true; exact Hkeep|].
      apply list_elem_of_In, Contains_In. exact Hk. }
    rewrite Hf in Hin. inversion Hin.
  - intros H. destruct (filter _ (domain v)) as [|k ks] eqn:Hf; [reflexivity|].
    assert (Hin : k ∈ filter (fun k => Is_true (keep k)) (domain v))
      by (rewrite Hf; left).
    apply list_elem_of_filter in Hin as [Hk Hin].
    apply Is_true_true in Hk.
    rewrite H in Hk; [discriminate|].
    apply Contains_In, list_elem_of_In. exact Hin.
Qed.

Lemma fold_min_le (k : Z) (ks : list Z) :
  fold_right Z.min k ks <= k /\ forall x, In x ks -> fold_right Z.min k ks <= x.
Proof.
  induction ks as [|y ks [IH1 IH2]]; simpl; [split; [lia | tauto]|].
  split; [lia|]. intros x [->|Hx]; [lia|]. specialize (IH2 x Hx). lia.
Qed.

Lemma fold_max_ge (k : Z) (ks : list Z) :
  k <= fold_right Z.max k ks /\ forall x, In x ks -> x <= fold_right Z.max k ks.
Proof.
  induction ks as [|y ks [IH1 IH2]]; simpl; [split; [lia | tauto]|].
  split; [lia|]. intros x [->|Hx]; [lia|]. specialize (IH2 x Hx). lia.
Qed.

Lemma fold_min_in (k : Z) (ks : list Z) : In (fold_right Z.min k ks) (k :: ks).
Proof.
  induction ks as [|y ks IH]; simpl; [auto|].
  destruct (Z.min_spec y (fold_right Z.min k ks)) as [[_ ->]|[_ ->]]; [auto|].
  destruct IH as [H|H]; auto.
Qed.

Lemma Min_Max_bounds (v : IntVar) (k : Z) :
  Contains v k = true -> Min v <= k <= Max v.
Proof.
  rewrite Contains_In. unfold Min, Max.
  destruct (domain v) as [|k0 ks]; [intros []|].
  pose proof (fold_min_le k0 ks) as [H1 H2].
  pose proof (fold_max_ge k0 ks) as [H3 H4].
  intros [<-|Hin]; [lia|]. specialize (H2 k Hin). specialize (H4 k Hin). lia.
Qed.

Lemma Min_contained (v : IntVar) :
  domain v <> [] -> Contains v (Min v) = true.
Proof.
  intros Hne. apply Contains_In. unfold Min.
  destruct (domain v) as [|k0 ks]; [congruence|]. apply fold_min_in.
Qed.

End IntVarFacts.

Module OptimizeFacts.

Import Int64 Int64Facts IntVar IntVarFacts Decision Optimize.

Lemma ApplyBound_Some (o : OptimizeVar) (var var' : IntVar) (k : Z) :
  ApplyBound o var = Some var' ->
  (Contains var' k = true <-> Contains var k = true /\ within_bound o k).
Proof.
  unfold ApplyBound, within_bound, SetMin, SetMax. intros H.
  destruct (maximize_ o); rewrite (restrict_Some _ _ _ k H);
    [rewrite Z.leb_le | rewrite Z.leb_le]; reflexivity.
Qed.

Lemma ApplyBound_None (o : OptimizeVar) (var : IntVar) :
  ApplyBound o var = None <->
  forall k, Contains var k = true -> ~ within_bound o k.
Proof.
  unfold ApplyBound, within_bound, SetMin, SetMax.
  destruct (maximize_ o); rewrite restrict_None;
    split; intros H k Hk; specialize (H k Hk);
    [apply Z.leb_gt in H; lia | apply Z.leb_gt; lia
    |apply Z.leb_gt in H; lia | apply Z.leb_gt; lia].
Qed.

(** C3.  [EnterSearch] sets [best_] to the worst side, [kint64min] when
    maximizing and [kint64max] when minimizing; [RefuteDecision] and
    [RestartSearch] both apply the bound: [SetMin] at [best_ + step_] when
    maximizing, [SetMax] at [best_ - step_] when minimizing (in [int64]
    arithmetic), which keeps exactly the values of the objective within the
    bound and fails when there is none; as long as the sum or difference fits
    an [int64] it is the exact one. *)
Theorem OptimizeVar_bound (o : OptimizeVar) (d : Decision) (var : IntVar) :
  best_ (EnterSearch o) = (if maximize_ o then kint64min else kint64max) /\
  maximize_ (EnterSearch o) = maximize_ o /\
  step_ (EnterSearch o) = step_ o /\
  RefuteDecision o d var = ApplyBound o var /\
  RestartSearch o var = ApplyBound o var /\
  ApplyBound o var =
    (if maximize_ o then SetMin var (add (best_ o) (step_ o))
     else SetMax var (sub (best_ o) (step_ o))) /\
  (forall var' k,
      ApplyBound o var = Some var' ->
      (Contains var' k = true <->
       Contains var k = true /\
       if maximize_ o then add (best_ o) (step_ o) <= k
       else k <= sub (best_ o) (step_ o))) /\
  (ApplyBound o var = None <->
   forall k, Contains var k = true ->
             ~ (if maximize_ o then add (best_ o) (step_ o) <= k
                else k <= sub (best_ o) (step_ o))) /\
  (in_range (best_ o + step_ o) -> add (best_ o) (step_ o) = best_ o + step_ o) /\
  (in_range (best_ o - step_ o) -> sub (best_ o) (step_ o) = best_ o - step_ o).
Proof.
  do 6 (split; [reflexivity|]).
  split; [intros var' k H; exact (ApplyBound_Some o var var' k H)|].
  split; [exact (ApplyBound_None o var)|].
  split; intros H; apply wrap_id; exact H.
Qed.

Lemma OptimizeVar_bound_witness :
  let o := mkOptimizeVar 1 5 true in
  let var := mkIntVar [3; 6; 9] in
  ApplyBound o var = Some (mkIntVar [6; 9]) /\
  (Contains (mkIntVar [6; 9]) 6 = true <->
   Contains var 6 = true /\ add 5 1 <= 6).
Proof.
  split; [reflexivity|].
  apply (OptimizeVar_bound (mkOptimizeVar 1 5 true) balancing_decision
           (mkIntVar [3; 6; 9])).
  reflexivity.
Defined.

Lemma AcceptSolution_improves (o : OptimizeVar) (var : IntVar) (val : Z) :
  Value var = Some val ->
  (AcceptSolution o var = Some true <-> improves o val) /\
  (AcceptSolution o var = Some false <-> ~ improves o val).
Proof.
  intros Hv. unfold AcceptSolution. rewrite Hv.
  set (b := (maximize_ o && (best_ o <? val))
            || (negb (maximize_ o) && (val <? best_ o))).
  assert (Hb : b = true <-> improves o val).
  { unfold b, improves. destruct (maximize_ o); simpl.
    - rewrite orb_false_r, Z.ltb_lt. split; [auto|].
      intros [[_ H]|[H _]]; [exact H | discriminate].
    - rewrite Z.ltb_lt. split; [auto|].
      intros [[H _]|[_ H]]; [discriminate | exact H]. }
  destruct b; split; split; intros H; try discriminate; try reflexivity.
  - apply Hb. reflexivity.
  - exfalso. apply H. apply Hb. reflexivity.
  - apply Hb in H. discriminate.
  - intros H'. apply Hb in H'. discriminate.
Qed.

(** With the objective bound, every monitor answers the vote. *)
Lemma accept_solution_answers (m : Monitor) (var : IntVar) (val : Z) :
  Value var = Some val -> exists b, accept_solution m var = Some b.
Proof.
  intros Hv. destruct m as [o|accept]; simpl; [|eauto].
  unfold AcceptSolution. rewrite Hv. eauto.
Qed.

(** The fold returns the conjunction of the answers. *)
Lemma AcceptSolution_fold_all (ms : list Monitor) (var : IntVar) (val : Z) :
  Value var = Some val ->
  exists b,
    AcceptSolution_fold ms var = Some b /\
    (b = true <-> forall m, In m ms -> accept_solution m var = Some true).
Proof.
  intros Hv. induction ms as [|m ms (b' & Hf & Hb)].
  - exists true. split; [reflexivity|]. split; [intros _ m []|reflexivity].
  - destruct (accept_solution_answers m var val Hv) as (b & Hm).
    exists (b && b'). cbn [AcceptSolution_fold]. rewrite Hm, Hf.
    split; [reflexivity|]. rewrite andb_true_iff, Hb. split.
    + intros [-> Hall] m' [<-|Hin]; [exact Hm | apply Hall; exact Hin].
    + intros Hall. split.
      * specialize (Hall m (or_introl eq_refl)). congruence.
      * intros m' Hin. apply Hall. right. exact Hin.
Qed.

(** A vote against the solution by any monitor decides the fold. *)
Lemma AcceptSolution_fold_veto (ms : list Monitor) (var : IntVar) (val : Z)
    (m : Monitor) :
  Value var = Some val ->
  In m ms ->
  accept_solution m var = Some false ->
  AcceptSolution_fold ms var = Some false.
Proof.
  intros Hv Hin Hm.
  destruct (AcceptSolution_fold_all ms var val Hv) as (b & Hf & Hb).
  rewrite Hf. f_equal. destruct b; [|reflexivity].
  assert (H : accept_solution m var = Some true)
    by (apply Hb; [reflexivity | exact Hin]).
  congruence.
Qed.

(** C10.  With the objective bound to [val], [AcceptSolution] returns, and
    answers true if and only if [val] strictly improves [best_]
    ([val > best_] when maximizing, [val < best_] when minimizing) and false
    otherwise, whatever bound was or was not applied before; the conjunction
    of the votes of the monitors of a search returns as well, is true only
    when every monitor answers true, and is false, the solution being
    rejected, as soon as the [OptimizeVar] is one of the monitors and the
    value does not strictly improve [best_]. *)
Theorem AcceptSolution_vote (o : OptimizeVar) (var : IntVar) (val : Z) :
  Value var = Some val ->
  (AcceptSolution o var = Some true <->
   (maximize_ o = true /\ val > best_ o) \/
   (maximize_ o = false /\ val < best_ o)) /\
  (AcceptSolution o var = Some false <->
   ~ ((maximize_ o = true /\ val > best_ o) \/
      (maximize_ o = false /\ val < best_ o))) /\
  (forall ms,
      In (OptimizeMonitor o) ms ->
      ~ ((maximize_ o = true /\ val > best_ o) \/
         (maximize_ o = false /\ val < best_ o)) ->
      AcceptSolution_fold ms var = Some false) /\
  (forall ms,
      exists b,
        AcceptSolution_fold ms var = Some b /\
        (b = true <->
         forall m, In m ms -> accept_solution m var = Some true)).
Proof.
  intros Hv. destruct (AcceptSolution_improves o var val Hv) as [Ht Hf].
  assert (Heq : improves o val <->
                (maximize_ o = true /\ val > best_ o) \/
                (maximize_ o = false /\ val < best_ o))
    by (unfold improves; split; (intros [[? ?]|[? ?]]; [left|right]);
        split; auto; lia).
  split; [rewrite Ht; exact Heq|].
  split; [rewrite Hf, Heq; reflexivity|].
  split.
  - intros ms Hin Hno.
    apply (AcceptSolution_fold_veto ms var val (OptimizeMonitor o) Hv Hin).
    simpl. apply Hf. rewrite Heq. exact Hno.
  - intros ms. exact (AcceptSolution_fold_all ms var val Hv).
Qed.

Lemma AcceptSolution_vote_witness :
  let o := mkOptimizeVar 1 5 false in
  let var := mkIntVar [5] in
  Value var = Some 5 /\
  AcceptSolution o var = Some false /\
  AcceptSolution_fold [OtherMonitor (fun _ => true); OptimizeMonitor o] var =
    Some false.
Proof.
  assert (Hno : ~ ((false = true /\ 5 > 5) \/ (false = false /\ 5 < 5)))
    by (intros [[H _]|[_ H]]; discriminate H).
  destruct (AcceptSolution_vote (mkOptimizeVar 1 5 false) (mkIntVar [5]) 5
              eq_refl) as (_ & Hfalse & Hfold & _).
  split; [reflexivity|]. split.
  - apply Hfalse. exact Hno.
  - apply Hfold; [right; left; reflexivity | exact Hno].
Defined.

End OptimizeFacts.

Module AnnealingFacts.

Import Int64 Int64Facts IntVar Decision Annealing.








End AnnealingFacts.

Module GLSFacts.

Import Int64 GLS.

(** C1 fails on the code.  In [two_arcs] the arcs (0, 1) and (1, 0) both
    cost 3.  The first [LocalOptimum] finds them tied at utility 3 and
    penalizes both.  The second finds them tied again, at utility
    [3 / (1 + 1) = 1.5]; the greatest utility is cut to the integer 1, which
    equals no utility of the vector, and only the first arc of the sorted
    vector is penalized: the penalty of the tied arc (1, 0) stays 1. *)
Theorem LocalOptimum_skips_tied_arc :
  exists g1 g2,
    LocalOptimum two_arcs = Some (g1, true) /\
    Value (penalties_ g1) (0, 1) = Some 1 /\
    Value (penalties_ g1) (1, 0) = Some 1 /\
    utilities g1 =
      Some [((0, 1), Double.div (Double.of_int64 3) (Double.of_int64 2));
            ((1, 0), Double.div (Double.of_int64 3) (Double.of_int64 2))] /\
    LocalOptimum g1 = Some (g2, true) /\
    Value (penalties_ g2) (0, 1) = Some 2 /\
    Value (penalties_ g2) (1, 0) = Some 1.
Proof.
  do 2 eexists. repeat split; vm_compute; reflexivity.
Qed.

(** The outcome does not depend on the order in which the sort leaves the
    two tied arcs: with (1, 0) first, (0, 1) is the one left out. *)
Lemma penalize_tied_other_order :
  let half := Double.div (Double.of_int64 3) (Double.of_int64 2) in
  let p1 := mkTable [[0; 1]; [1]] true in
  exists p2,
    penalize [((1, 0), half); ((0, 1), half)] p1 = Some p2 /\
    Value p2 (1, 0) = Some 2 /\
    Value p2 (0, 1) = Some 1.
Proof.
  eexists. repeat split; vm_compute; reflexivity.
Qed.

(** The sparse store shows the same outcome. *)
Lemma LocalOptimum_skips_tied_arc_sparse :
  exists g1 g2,
    LocalOptimum two_arcs_sparse = Some (g1, true) /\
    Value (penalties_ g1) (0, 1) = Some 1 /\
    Value (penalties_ g1) (1, 0) = Some 1 /\
    LocalOptimum g1 = Some (g2, true) /\
    Value (penalties_ g2) (0, 1) = Some 2 /\
    Value (penalties_ g2) (1, 0) = Some 1.
Proof.
  do 2 eexists. repeat split; vm_compute; reflexivity.
Qed.

(** The same conversion also penalizes an arc that is not maximal: with
    costs 3 and 1, the second [LocalOptimum] sees the utilities 1.5 and 1,
    cuts 1.5 to 1 and penalizes both arcs. *)
Lemma LocalOptimum_penalizes_lesser_arc :
  let g0 := mkGuidedLocalSearch false 4 2 (mkAssignment [1; 0] [])
              (Binary (fun i _ => if i =? 0 then 3 else 1)) (MakeTable 2) in
  exists g1 g2,
    LocalOptimum g0 = Some (g1, true) /\
    Value (penalties_ g1) (0, 1) = Some 1 /\
    Value (penalties_ g1) (1, 0) = Some 0 /\
    utilities g1 =
      Some [((0, 1), Double.div (Double.of_int64 3) (Double.of_int64 2));
            ((1, 0), Double.of_int64 1)] /\
    LocalOptimum g1 = Some (g2, true) /\
    Value (penalties_ g2) (0, 1) = Some 2 /\
    Value (penalties_ g2) (1, 0) = Some 1.
Proof.
  do 2 eexists. repeat split; vm_compute; reflexivity.
Qed.

(** The general shape of the defect: whenever the greatest utility is not
    the [double] of an integer, the loop stops at once, and an arc tied with
    the first one is left as it was. *)
Lemma penalize_fractional_maximum {P : Type} `{GuidedLocalSearchPenalties P}
    (a0 a1 : Arc) (u : spec_float) (rest : list (Arc * spec_float)) (p : P)
    (z : Z) :
  Double.to_int64 u = Some z ->
  Double.eqb (Double.of_int64 z) u = false ->
  penalize ((a0, u) :: (a1, u) :: rest) p = Increment p a0.
Proof.
  intros Hz Hne. unfold penalize. rewrite Hz.
  destruct (Increment p a0) as [p'|]; [|reflexivity].
  cbn [increment_while]. rewrite Hne. reflexivity.
Qed.

End GLSFacts.

Module TabuFacts.

Import Int64 Decision Tabu.

Lemma sum_of_app (rho : Valuation) (vs ws : list Var) :
  sum_of rho (vs ++ ws) = sum_of rho vs + sum_of rho ws.
Proof.
  unfold sum_of. induction vs as [|v vs IH]; simpl; [reflexivity|].
  rewrite IH. lia.
Qed.

Lemma post_literal_eq (literal : IntExpr -> Z -> Var -> Constraint)
    (entry : VarValue) (s : Solver) :
  post_literal literal entry s =
  Some (next_var s,
        {| next_var := S (next_var s);
           constraints :=
             literal (EVar (var_ entry)) (value_ entry) (next_var s)
             :: constraints s |}).
Proof. reflexivity. Qed.

Lemma post_literals_cons (literal : IntExpr -> Z -> Var -> Constraint)
    (entry : VarValue) (entries : list VarValue) (s : Solver) :
  post_literals literal (entry :: entries) s =
  match post_literal literal entry s with
  | Some (v, s1) =>
      match post_literals literal entries s1 with
      | Some (vs, s2) => Some (v :: vs, s2)
      | None => None
      end
  | None => None
  end.
Proof.
  cbn [post_literals]. unfold mbind, Action_bind, bind.
  destruct (post_literal literal entry s) as [[v s1]|]; [|reflexivity].
  destruct (post_literals literal entries s1) as [[vs s2]|]; reflexivity.
Qed.

Section Literals.

Variable literal : IntExpr -> Z -> Var -> Constraint.
Variable truth : Valuation -> VarValue -> Z.
Hypothesis literal_truth :
  forall rho entry b,
    holds rho (literal (EVar (var_ entry)) (value_ entry) b) ->
    rho b = truth rho entry.

(** The loop over a tabu list always runs to its end and creates one
    variable for each entry, in their order; the sum of these variables is,
    under the constraints it posts, the number of entries whose literal is
    true; and these constraints hold as soon as the literal of each entry
    holds for its variable. *)
Lemma post_literals_spec (entries : list VarValue) :
  forall s,
    exists cs,
      post_literals literal entries s =
        Some (seq (next_var s) (length entries),
              {| next_var := (next_var s + length entries)%nat;
                 constraints := cs ++ constraints s |}) /\
      (forall rho,
          Forall (holds rho) cs ->
          sum_of rho (seq (next_var s) (length entries)) =
          fold_right (fun e acc => truth rho e + acc) 0 entries) /\
      (forall rho,
          (forall i e,
              entries !! i = Some e ->
              holds rho (literal (EVar (var_ e)) (value_ e)
                           (next_var s + i)%nat)) ->
          Forall (holds rho) cs).
Proof.
  induction entries as [|entry entries IH]; intros s.
  - exists []. destruct s as [n cs0]; simpl. rewrite Nat.add_0_r.
    repeat split; intros; constructor.
  - rewrite post_literals_cons, post_literal_eq.
    match goal with
    | |- context [post_literals literal entries ?s1] =>
        destruct (IH s1) as (cs & Heq & Hsum & Hall)
    end.
    rewrite Heq. cbn [constraints next_var] in *.
    exists (cs ++ [literal (EVar (var_ entry)) (value_ entry) (next_var s)]).
    split.
    { cbn [length seq]. rewrite <- app_assoc, Nat.add_succ_r. reflexivity. }
    split.
    + intros rho H. apply Forall_app in H as [Hcs Hl].
      apply Forall_inv in Hl.
      cbn [length seq]. unfold sum_of in *. cbn [map fold_right].
      rewrite (Hsum rho Hcs), (literal_truth rho entry _ Hl). reflexivity.
    + intros rho H. apply Forall_app. split.
      * apply Hall. intros i e Hi.
        replace (S (next_var s) + i)%nat with (next_var s + S i)%nat by lia.
        apply (H (S i)). exact Hi.
      * constructor; [|constructor].
        specialize (H 0%nat entry eq_refl).
        rewrite Nat.add_0_r in H. exact H.
Qed.

End Literals.

Lemma ApplyDecision_eq (t : TabuSearch) (d : Decision) (s : Solver) :
  is_balancing d = false ->
  ApplyDecision t d s =
  let s1 := {| next_var := S (next_var s);
               constraints := aspiration_ct t (next_var s) :: constraints s |} in
  match post_literals IsEqualCstCt (keep_tabu_list_ t) s1 with
  | None => None
  | Some (keep_vars, s2) =>
      match post_literals IsDifferentCstCt (forbid_tabu_list_ t) s2 with
      | None => None
      | Some (forbid_vars, s3) =>
          let tabu_vars := keep_vars ++ forbid_vars in
          match
            (if 0 <? Z.of_nat (length tabu_vars) then
               match tabu_threshold (length tabu_vars) (tabu_factor_ t) with
               | None => None
               | Some c =>
                   Some {| next_var := S (next_var s3);
                           constraints :=
                             GreaterOrEqual (ESum [next_var s; next_var s3]) 1
                             :: IsGreaterOrEqualCstCt (ESum tabu_vars) c
                                  (next_var s3)
                             :: constraints s3 |}
               end
             else Some s3) with
          | None => None
          | Some s4 =>
              Some (tt, {| next_var := next_var s4;
                           constraints :=
                             NonEquality (EVar (objective_ t)) (last_ t)
                             :: descent_ct t :: constraints s4 |})
          end
      end
  end.
Proof.
  intros Hd. unfold ApplyDecision. rewrite Hd.
  unfold mbind, Action_bind, bind, MakeBoolVar, AddConstraint.
  cbv zeta. fold (aspiration_ct t (next_var s)). fold (descent_ct t).
  destruct (post_literals IsEqualCstCt _ _) as [[kv s2]|]; [|reflexivity].
  destruct (post_literals IsDifferentCstCt _ _) as [[fv s3]|]; [|reflexivity].
  destruct (0 <? Z.of_nat (length (kv ++ fv))); [|reflexivity].
  cbn [next_var constraints].
  destruct (tabu_threshold _ _); reflexivity.
Qed.

Lemma keep_literal_truth (rho : Valuation) (entry : VarValue) (b : Var) :
  holds rho (IsEqualCstCt (EVar (var_ entry)) (value_ entry) b) ->
  rho b = keep_truth rho entry.
Proof.
  simpl. unfold reifies, keep_truth.
  destruct (Z.eqb_spec (rho (var_ entry)) (value_ entry)); lia.
Qed.

Lemma forbid_literal_truth (rho : Valuation) (entry : VarValue) (b : Var) :
  holds rho (IsDifferentCstCt (EVar (var_ entry)) (value_ entry) b) ->
  rho b = forbid_truth rho entry.
Proof.
  simpl. unfold reifies, forbid_truth.
  destruct (Z.eqb_spec (rho (var_ entry)) (value_ entry)); lia.
Qed.

Lemma kept_fold (rho : Valuation) (l : list VarValue) :
  kept rho l = fold_right (fun e acc => keep_truth rho e + acc) 0 l.
Proof. induction l as [|e l IH]; simpl; [|rewrite IH]; reflexivity. Qed.

Lemma avoided_fold (rho : Valuation) (l : list VarValue) :
  avoided rho l = fold_right (fun e acc => forbid_truth rho e + acc) 0 l.
Proof. induction l as [|e l IH]; simpl; [|rewrite IH]; reflexivity. Qed.

Lemma aspiration_ct_holds (rho : Valuation) (t : TabuSearch) (b : Var) :
  holds rho (aspiration_ct t b) ->
  (aspiration_holds rho t /\ rho b = 1) \/ (~ aspiration_holds rho t /\ rho b = 0).
Proof.
  unfold aspiration_ct, aspiration_holds.
  destruct (maximize_ t); simpl; unfold reifies; tauto.
Qed.

Lemma descent_ct_holds (rho : Valuation) (t : TabuSearch) :
  holds rho (descent_ct t) -> descent_holds rho t.
Proof.
  unfold descent_ct, descent_holds. destruct (maximize_ t); simpl; tauto.
Qed.

(** *** The posted constraints ask for nothing more *)

Lemma aspiration_test_holds (rho : Valuation) (t : TabuSearch) :
  aspiration_test rho t = true <-> aspiration_holds rho t.
Proof.
  unfold aspiration_test, aspiration_holds.
  destruct (maximize_ t); apply Z.leb_le.
Qed.

Lemma kept_ext (rho rho' : Valuation) (l : list VarValue) :
  Forall (fun e => rho' (var_ e) = rho (var_ e)) l ->
  kept rho' l = kept rho l.
Proof.
  induction 1 as [|e l He _ IH]; simpl; [reflexivity|].
  rewrite He, IH. reflexivity.
Qed.

Lemma avoided_ext (rho rho' : Valuation) (l : list VarValue) :
  Forall (fun e => rho' (var_ e) = rho (var_ e)) l ->
  avoided rho' l = avoided rho l.
Proof.
  induction 1 as [|e l He _ IH]; simpl; [reflexivity|].
  rewrite He, IH. reflexivity.
Qed.

Lemma extend_below (t : TabuSearch) (s : Solver) (c : Z) (rho : Valuation)
    (v : Var) :
  (v < next_var s)%nat -> extend t s c rho v = rho v.
Proof.
  intros Hv. unfold extend.
  destruct (Nat.ltb_spec v (next_var s)); [reflexivity | lia].
Qed.

Lemma extend_aspiration (t : TabuSearch) (s : Solver) (c : Z)
    (rho : Valuation) :
  extend t s c rho (next_var s) = if aspiration_test rho t then 1 else 0.
Proof.
  unfold extend.
  destruct (Nat.ltb_spec (next_var s) (next_var s)); [lia|].
  rewrite Nat.eqb_refl. reflexivity.
Qed.

Lemma extend_keep (t : TabuSearch) (s : Solver) (c : Z) (rho : Valuation)
    (i : nat) (e : VarValue) :
  keep_tabu_list_ t !! i = Some e ->
  extend t s c rho (S (next_var s) + i)%nat = keep_truth rho e.
Proof.
  intros Hi. pose proof (lookup_lt_Some _ _ _ Hi) as Hlt. unfold extend.
  destruct (Nat.ltb_spec (S (next_var s) + i) (next_var s)); [lia|].
  destruct (Nat.eqb_spec (S (next_var s) + i) (next_var s)); [lia|].
  destruct (Nat.ltb_spec (S (next_var s) + i)
              (next_var s + 1 + length (keep_tabu_list_ t))); [|lia].
  replace (S (next_var s) + i - (next_var s + 1))%nat with i by lia.
  rewrite Hi. reflexivity.
Qed.

Lemma extend_forbid (t : TabuSearch) (s : Solver) (c : Z) (rho : Valuation)
    (i : nat) (e : VarValue) :
  forbid_tabu_list_ t !! i = Some e ->
  extend t s c rho
    (S (next_var s) + length (keep_tabu_list_ t) + i)%nat =
  forbid_truth rho e.
Proof.
  intros Hi. pose proof (lookup_lt_Some _ _ _ Hi) as Hlt. unfold extend.
  set (n := next_var s). set (k := length (keep_tabu_list_ t)).
  destruct (Nat.ltb_spec (S n + k + i) n); [lia|].
  destruct (Nat.eqb_spec (S n + k + i) n); [lia|].
  destruct (Nat.ltb_spec (S n + k + i) (n + 1 + k)); [lia|].
  destruct (Nat.ltb_spec (S n + k + i)
              (n + 1 + k + length (forbid_tabu_list_ t))); [|lia].
  replace (S n + k + i - (n + 1 + k))%nat with i by lia.
  rewrite Hi. reflexivity.
Qed.

Lemma extend_tabu (t : TabuSearch) (s : Solver) (c : Z) (rho : Valuation) :
  extend t s c rho
    (S (next_var s) + length (keep_tabu_list_ t)
     + length (forbid_tabu_list_ t))%nat =
  if c <=? satisfied_literals rho t then 1 else 0.
Proof.
  unfold extend.
  set (n := next_var s). set (k := length (keep_tabu_list_ t)).
  set (f := length (forbid_tabu_list_ t)).
  destruct (Nat.ltb_spec (S n + k + f) n); [lia|].
  destruct (Nat.eqb_spec (S n + k + f) n); [lia|].
  destruct (Nat.ltb_spec (S n + k + f) (n + 1 + k)); [lia|].
  destruct (Nat.ltb_spec (S n + k + f) (n + 1 + k + f)); [lia|].
  destruct (Nat.eqb_spec (S n + k + f) (n + 1 + k + f)); [reflexivity|lia].
Qed.

Lemma extend_keep_holds (t : TabuSearch) (s : Solver) (c : Z)
    (rho : Valuation) (i : nat) (e : VarValue) :
  (var_ e < next_var s)%nat ->
  keep_tabu_list_ t !! i = Some e ->
  holds (extend t s c rho)
    (IsEqualCstCt (EVar (var_ e)) (value_ e) (S (next_var s) + i)%nat).
Proof.
  intros He Hi. cbn [holds eval]. unfold reifies.
  rewrite (extend_keep t s c rho i e Hi), (extend_below t s c rho _ He).
  unfold keep_truth.
  destruct (Z.eqb_spec (rho (var_ e)) (value_ e)); [left|right]; split; auto.
Qed.

Lemma extend_forbid_holds (t : TabuSearch) (s : Solver) (c : Z)
    (rho : Valuation) (i : nat) (e : VarValue) :
  (var_ e < next_var s)%nat ->
  forbid_tabu_list_ t !! i = Some e ->
  holds (extend t s c rho)
    (IsDifferentCstCt (EVar (var_ e)) (value_ e)
       (S (next_var s) + length (keep_tabu_list_ t) + i)%nat).
Proof.
  intros He Hi. cbn [holds eval]. unfold reifies.
  rewrite (extend_forbid t s c rho i e Hi), (extend_below t s c rho _ He).
  unfold forbid_truth.
  destruct (Z.eqb_spec (rho (var_ e)) (value_ e)); [right|left]; split; auto.
Qed.

(** C4, as amended.  On a decision that is not the balancing decision, with
    at least one entry in the tabu lists, [ApplyDecision] posts constraints
    under which the number of true tabu literals ([var == value] for an
    entry of the keep list, [var != value] for one of the forbid list) is at
    least the product of the number of entries by [tabu_factor_] converted to
    [int64], that is cut to an integer, unless the aspiration literal
    holds; the objective moves from [current_] by at least the step, and
    differs from the last objective value.  The constraints ask for nothing
    more: values of the variables of the model that meet these conditions
    extend, by values for the boolean variables that [ApplyDecision]
    creates, to values under which every constraint it posts holds. *)
Theorem ApplyDecision_threshold (t : TabuSearch) (d : Decision) (s : Solver)
    (c : Z) :
  is_balancing d = false ->
  (0 < entries t)%nat ->
  tabu_threshold (entries t) (tabu_factor_ t) = Some c ->
  exists s' posted,
    ApplyDecision t d s = Some (tt, s') /\
    constraints s' = posted ++ constraints s /\
    (forall rho,
      Forall (holds rho) (constraints s') ->
      (c <= satisfied_literals rho t \/ aspiration_holds rho t) /\
      descent_holds rho t /\
      rho (objective_ t) <> last_ t) /\
    (scoped t s ->
     forall rho,
      (c <= satisfied_literals rho t \/ aspiration_holds rho t) ->
      descent_holds rho t ->
      rho (objective_ t) <> last_ t ->
      (forall v, (v < next_var s)%nat -> extend t s c rho v = rho v) /\
      Forall (holds (extend t s c rho)) posted).
Proof.
  intros Hd Hn Hc. rewrite ApplyDecision_eq by exact Hd. cbv zeta.
  match goal with
  | |- context [post_literals IsEqualCstCt _ ?s1] =>
      destruct (post_literals_spec IsEqualCstCt keep_truth keep_literal_truth
                  (keep_tabu_list_ t) s1)
        as (kcs & Hk & Hksum & Hkall)
  end.
  rewrite Hk.
  match goal with
  | |- context [post_literals IsDifferentCstCt _ ?s2] =>
      destruct (post_literals_spec IsDifferentCstCt forbid_truth
                  forbid_literal_truth (forbid_tabu_list_ t) s2)
        as (fcs & Hf & Hfsum & Hfall)
  end.
  rewrite Hf. clear Hk Hf.
  cbn [next_var constraints] in *.
  set (n := next_var s) in *.
  set (kv := seq (S n) (length (keep_tabu_list_ t))) in *.
  set (fv := seq (S n + length (keep_tabu_list_ t))
               (length (forbid_tabu_list_ t))) in *.
  match goal with
  | |- context [tabu_threshold ?len _] =>
      assert (Hlen : len = entries t)
        by (unfold entries, kv, fv; rewrite length_app, !length_seq; lia);
      rewrite Hlen, Hc
  end.
  clearbody kv fv.
  destruct (Z.ltb_spec 0 (Z.of_nat (entries t))) as [_|]; [|lia].
  cbn [next_var constraints].
  set (tabu := (S n + length (keep_tabu_list_ t)
                + length (forbid_tabu_list_ t))%nat).
  eexists.
  exists (NonEquality (EVar (objective_ t)) (last_ t)
          :: descent_ct t
          :: GreaterOrEqual (ESum [n; tabu]) 1
          :: IsGreaterOrEqualCstCt (ESum (kv ++ fv)) c tabu
          :: fcs ++ kcs ++ [aspiration_ct t n]).
  split; [reflexivity|].
  split.
  { cbn [constraints app]. rewrite <- !app_assoc. reflexivity. }
  split.
  - cbn [constraints]. intros rho Hall.
    apply Forall_cons_1 in Hall as [Hne Hall].
    apply Forall_cons_1 in Hall as [Hdesc Hall].
    apply Forall_cons_1 in Hall as [Hor Hall].
    apply Forall_cons_1 in Hall as [Htabu Hall].
    apply Forall_app in Hall as [Hfcs Hall].
    apply Forall_app in Hall as [Hkcs Hall].
    apply Forall_cons_1 in Hall as [Hasp _].
    split; [|split; [apply descent_ct_holds; exact Hdesc | exact Hne]].
    apply aspiration_ct_holds in Hasp.
    simpl in Htabu, Hor. unfold reifies in Htabu.
    match type of Htabu with
    | context [fold_right Z.add 0 (map rho ?l)] =>
        change (fold_right Z.add 0 (map rho l)) with (sum_of rho l) in Htabu
    end.
    rewrite sum_of_app, (Hksum rho Hkcs), (Hfsum rho Hfcs),
      <- kept_fold, <- avoided_fold in Htabu.
    unfold satisfied_literals.
    destruct Hasp as [[Ha _]|[_ Ha]]; [right; exact Ha|].
    left. lia.
  - intros [Hobj Hvars] rho Hor Hdesc Hne.
    apply Forall_app in Hvars as [Hkvars Hfvars].
    set (rho' := extend t s c rho).
    assert (Hbelow : forall v, (v < n)%nat -> rho' v = rho v)
      by (intros v Hv; apply extend_below; exact Hv).
    split; [exact Hbelow|].
    assert (Hkeep : Forall (holds rho') kcs).
    { apply Hkall. intros i e Hi. apply extend_keep_holds; [|exact Hi].
      exact (Forall_lookup_1 _ _ _ _ Hkvars Hi). }
    assert (Hforbid : Forall (holds rho') fcs).
    { apply Hfall. intros i e Hi. apply extend_forbid_holds; [|exact Hi].
      exact (Forall_lookup_1 _ _ _ _ Hfvars Hi). }
    assert (Hsat : satisfied_literals rho' t = satisfied_literals rho t).
    { unfold satisfied_literals. f_equal; [apply kept_ext|apply avoided_ext];
        eapply Forall_impl; eauto; intros e He; apply Hbelow; exact He. }
    assert (Hsum : sum_of rho' kv + sum_of rho' fv = satisfied_literals rho t).
    { rewrite <- Hsat, (Hksum rho' Hkeep), (Hfsum rho' Hforbid),
        <- kept_fold, <- avoided_fold. reflexivity. }
    assert (Hasp : rho' n = if aspiration_test rho t then 1 else 0)
      by apply extend_aspiration.
    assert (Htabu : rho' tabu = if c <=? satisfied_literals rho t then 1 else 0)
      by apply extend_tabu.
    assert (Hat : aspiration_holds rho' t <-> aspiration_holds rho t)
      by (unfold aspiration_holds; rewrite (Hbelow _ Hobj); reflexivity).
    repeat (apply Forall_cons; split).
    + simpl. rewrite (Hbelow _ Hobj). exact Hne.
    + unfold descent_ct, descent_holds in *.
      destruct (maximize_ t); simpl; rewrite (Hbelow _ Hobj); exact Hdesc.
    + simpl. rewrite Hasp, Htabu.
      destruct (aspiration_test rho t) eqn:Ha;
        destruct (Z.leb_spec c (satisfied_literals rho t)); try lia.
      destruct Hor as [Hor|Hor]; [lia|].
      apply aspiration_test_holds in Hor. congruence.
    + simpl. unfold reifies.
      match goal with
      | |- context [fold_right Z.add 0 (map rho' ?l)] =>
          change (fold_right Z.add 0 (map rho' l)) with (sum_of rho' l)
      end.
      rewrite sum_of_app, Hsum, Htabu.
      destruct (Z.leb_spec c (satisfied_literals rho t)); [left|right];
        split; lia.
    + apply Forall_app. split; [exact Hforbid|].
      apply Forall_app. split; [exact Hkeep|].
      constructor; [|constructor].
      assert (Hr : reifies rho' n (aspiration_holds rho' t)).
      { unfold reifies. rewrite Hasp, Hat, <- aspiration_test_holds.
        destruct (aspiration_test rho t); [left|right]; split; auto. }
      unfold aspiration_ct, aspiration_holds in *.
      destruct (maximize_ t); exact Hr.
Qed.

(** The state of [after_one_move] is the one that the monitor reaches by
    [one_move]. *)
Lemma one_move_reaches : one_move = Some after_one_move.
Proof. vm_compute. reflexivity. Qed.

Lemma after_one_move_scoped : scoped after_one_move (mkSolver 10%nat []).
Proof.
  split; [simpl; lia|]. repeat constructor; simpl; lia.
Qed.

Lemma ApplyDecision_threshold_witness :
  exists s' posted,
    ApplyDecision after_one_move (branching_decision 0) (mkSolver 10%nat []) =
      Some (tt, s') /\
    constraints s' = posted ++ [] /\
    (forall rho,
      Forall (holds rho) (constraints s') ->
      (1 <= satisfied_literals rho after_one_move \/
       aspiration_holds rho after_one_move) /\
      descent_holds rho after_one_move /\
      rho (objective_ after_one_move) <> last_ after_one_move) /\
    (scoped after_one_move (mkSolver 10%nat []) ->
     forall rho,
      (1 <= satisfied_literals rho after_one_move \/
       aspiration_holds rho after_one_move) ->
      descent_holds rho after_one_move ->
      rho (objective_ after_one_move) <> last_ after_one_move ->
      (forall v, (v < 10)%nat ->
                 extend after_one_move (mkSolver 10%nat []) 1 rho v = rho v) /\
      Forall (holds (extend after_one_move (mkSolver 10%nat []) 1 rho)) posted).
Proof.
  apply (ApplyDecision_threshold after_one_move (branching_decision 0)
           (mkSolver 10%nat []) 1);
    [reflexivity | unfold entries; simpl; lia | vm_compute; reflexivity].
Defined.

(** C4, as stated, fails: the threshold is not the ceiling of the product.
    After one move of one variable, a state that the monitor reaches from its
    construction with a tabu factor of three quarters, there are two entries
    and the product 1.5 is cut to 1; the constraints posted accept a
    valuation with one true literal and no aspiration, below the ceiling
    2. *)
Lemma ApplyDecision_below_ceiling :
  one_move = Some after_one_move /\
  exists s',
    ApplyDecision after_one_move (branching_decision 0) (mkSolver 10%nat []) =
      Some (tt, s') /\
    Forall (holds one_literal) (constraints s') /\
    ~ aspiration_holds one_literal after_one_move /\
    satisfied_literals one_literal after_one_move = 1 /\
    entries after_one_move = 2%nat /\
    exact_value (tabu_factor_ after_one_move) = Some (3 * 2 ^ 51, 2 ^ 53) /\
    tabu_threshold (entries after_one_move) (tabu_factor_ after_one_move) =
      Some 1 /\
    ceiling_threshold (entries after_one_move) (tabu_factor_ after_one_move) =
      Some 2.
Proof.
  split; [vm_compute; reflexivity|].
  eexists. split; [vm_compute; reflexivity|].
  split.
  { repeat (apply Forall_cons; split); try apply Forall_nil;
      simpl; unfold reifies; simpl; unfold sub, wrap, kint64max; simpl; lia. }
  split; [vm_compute; intros H; apply H; reflexivity|].
  repeat split; vm_compute; reflexivity.
Qed.

End TabuFacts.

Module RandomValueFacts.

Import Int64 Int64Facts IntVar IntVarFacts RandomValue.

(** C8 fails on the code.  The domain {1, 10} has 2 values in a span of 10,
    so the selector counts; [Rand64(2)] may return 0, and then the first
    decrement takes the rank to -1, the loop never meets rank 0, the check
    [index <= 0] passes and the selector returns 0, which is not in the
    domain. *)
Theorem Select_outside_domain :
  let v := mkIntVar [1; 10] in
  Size v = 2 /\ Min v = 1 /\ Max v = 10 /\
  Select v [0] = Some 0 /\
  Contains v 0 = false.
Proof. repeat split. Qed.

(** With the other possible draw the selector returns the least value. *)
Lemma Select_rank_one :
  Select (mkIntVar [1; 10]) [1] = Some 1.
Proof. reflexivity. Qed.

Lemma sample_contained (v : IntVar) (draws : list Z) (k : Z) :
  sample v draws = Some k -> Contains v k = true.
Proof.
  induction draws as [|r draws IH]; simpl; [discriminate|].
  destruct (Contains v (add (Min v) r)) eqn:Hc; [|exact IH].
  intros [= <-]. exact Hc.
Qed.

Lemma count_up_contained (v : IntVar) (fuel : nat) :
  forall i index k,
    count_up v fuel i index = Some (inl k) -> Contains v k = true.
Proof.
  induction fuel as [|fuel IH]; intros i index k; simpl; [discriminate|].
  destruct (i <=? Max v); [|discriminate].
  destruct (Contains v i) eqn:Hc; [|apply IH].
  destruct (sub index 1 =? 0); [|apply IH].
  intros [= <-]. exact Hc.
Qed.

Lemma count_down_contained (v : IntVar) (fuel : nat) :
  forall i index k,
    count_down v fuel i index = Some (inl k) -> Contains v k = true.
Proof.
  induction fuel as [|fuel IH]; intros i index k; simpl; [discriminate|].
  destruct (Min v <? i); [|discriminate].
  destruct (Contains v i) eqn:Hc; [|apply IH].
  destruct (sub index 1 =? 0); [|apply IH].
  intros [= <-]. exact Hc.
Qed.

(** Every value the selector returns from inside a loop is in the domain;
    the only other result is the 0 of the final [return 0LL]. *)
Lemma Select_contained_or_zero (v : IntVar) (draws : list Z) (k : Z) :
  Select v draws = Some k -> Contains v k = true \/ k = 0.
Proof.
  unfold Select.
  destruct (Z.quot (add (sub (Max v) (Min v)) 1) 4 <? Size v).
  - intros H. left. exact (sample_contained v draws k H).
  - destruct draws as [|index draws]; [discriminate|].
    set (fuel := Z.to_nat (add (sub (Max v) (Min v)) 1 + 1)).
    destruct (index <=? Z.quot (Size v) 2).
    + destruct (count_up v fuel (Min v) index) as [[i|j]|] eqn:Hl; simpl.
      * intros [= <-]. left. exact (count_up_contained v fuel _ _ _ Hl).
      * destruct (j <=? 0); [|discriminate]. intros [= <-]. right. reflexivity.
      * discriminate.
    + destruct (count_down v fuel (Max v) index) as [[i|j]|] eqn:Hl; simpl.
      * intros [= <-]. left. exact (count_down_contained v fuel _ _ _ Hl).
      * destruct (j <=? 0); [|discriminate]. intros [= <-]. right. reflexivity.
      * discriminate.
Qed.

Lemma contained_from_cons (v : IntVar) (i n : Z) :
  0 < n ->
  contained_from v i n =
  (if Contains v i then 1 else 0) + contained_from v (i + 1) (n - 1).
Proof.
  intros Hn. unfold contained_from. rewrite seqZ_cons by lia.
  replace (Z.succ i) with (i + 1) by lia.
  replace (Z.pred n) with (n - 1) by lia.
  rewrite filter_cons. destruct (Contains v i); simpl; lia.
Qed.

Lemma contained_from_snoc (v : IntVar) (i n : Z) :
  0 < n ->
  contained_from v i n =
  contained_from v i (n - 1) + (if Contains v (i + n - 1) then 1 else 0).
Proof.
  intros Hn. unfold contained_from.
  replace n with ((n - 1) + 1) at 1 by lia.
  rewrite seqZ_app by lia. rewrite filter_app, length_app.
  change (seqZ (i + (n - 1)) 1) with [i + (n - 1)].
  replace (i + (n - 1)) with (i + n - 1) by lia.
  rewrite filter_cons. destruct (Contains v (i + n - 1)); simpl; lia.
Qed.

Lemma contained_from_nil (v : IntVar) (i n : Z) :
  n <= 0 -> contained_from v i n = 0.
Proof.
  intros Hn. unfold contained_from.
  destruct n; try lia; reflexivity.
Qed.

Lemma contained_from_nonneg (v : IntVar) (i n : Z) : 0 <= contained_from v i n.
Proof. unfold contained_from. lia. Qed.

(** Every value of the domain is counted between [Min] and [Max]. *)
Lemma Size_le_contained (v : IntVar) :
  NoDup (domain v) ->
  Size v <= contained_from v (Min v) (Max v - Min v + 1).
Proof.
  intros Hnd. unfold Size, contained_from.
  apply Nat2Z.inj_le. apply NoDup_incl_length.
  - apply NoDup_ListNoDup. exact Hnd.
  - intros k Hk. apply list_elem_of_In, list_elem_of_filter.
    assert (Hc : Contains v k = true) by (apply Contains_In; exact Hk).
    split; [rewrite Hc; exact I|].
    apply elem_of_seqZ. pose proof (Min_Max_bounds v k Hc). lia.
Qed.

Lemma add_1 (i : Z) : kint64min <= i < kint64max -> add i 1 = i + 1.
Proof.
  intros H. unfold add. apply wrap_id.
  unfold in_range, kint64min, kint64max in *. lia.
Qed.

Lemma sub_1 (i : Z) : kint64min < i <= kint64max -> sub i 1 = i - 1.
Proof.
  intros H. unfold sub. apply wrap_id.
  unfold in_range, kint64min, kint64max in *. lia.
Qed.

(** Counting up with a rank of at least 1 that the values ahead can reach
    returns the value of that rank. *)
Lemma count_up_hits (v : IntVar) (fuel : nat) :
  Max v < kint64max ->
  forall i index,
    kint64min <= i ->
    1 <= index <= contained_from v i (Max v - i + 1) ->
    index <= kint64max ->
    Max v - i + 2 <= Z.of_nat fuel ->
    exists k, count_up v fuel i index = Some (inl k) /\ Contains v k = true.
Proof.
  intros Max_range.
  induction fuel as [|fuel IH]; intros i index Hi Hidx Hmax Hfuel.
  - rewrite contained_from_nil in Hidx by lia. lia.
  - cbn [count_up].
    destruct (Z.leb_spec i (Max v)) as [Hle|Hgt];
      [|rewrite contained_from_nil in Hidx by lia; lia].
    rewrite contained_from_cons in Hidx by lia.
    replace (Max v - i + 1 - 1) with (Max v - (i + 1) + 1) in Hidx by lia.
    rewrite add_1 by lia.
    destruct (Contains v i) eqn:Hc.
    + rewrite sub_1 by (unfold kint64min in *; lia).
      destruct (Z.eqb_spec (index - 1) 0) as [He|Hne].
      * exists i. split; [reflexivity | exact Hc].
      * apply IH; lia.
    + apply IH; lia.
Qed.

(** Counting up with a rank of 0 or less never returns from inside the loop
    and ends with a rank that passes the final check. *)
Lemma count_up_misses (v : IntVar) (fuel : nat) :
  Max v < kint64max ->
  forall i index,
    kint64min <= i <= Max v + 1 ->
    kint64min + Z.of_nat fuel <= index <= 0 ->
    Max v - i + 2 <= Z.of_nat fuel ->
    exists j, count_up v fuel i index = Some (inr j) /\ j <= 0.
Proof.
  intros Max_range.
  induction fuel as [|fuel IH]; intros i index Hi Hidx Hfuel; [lia|].
  cbn [count_up].
  destruct (Z.leb_spec i (Max v)) as [Hle|Hgt];
    [|exists index; split; [reflexivity | lia]].
  rewrite add_1 by lia.
  destruct (Contains v i).
  - rewrite sub_1 by (unfold kint64min, kint64max in *; lia).
    destruct (Z.eqb_spec (index - 1) 0) as [He|Hne]; [lia|].
    apply IH; lia.
  - apply IH; lia.
Qed.

(** Counting down with a rank of at least 1 that the values above [Min] can
    reach returns the value of that rank from the top. *)
Lemma count_down_hits (v : IntVar) (fuel : nat) :
  kint64min <= Min v -> Max v < kint64max ->
  forall i index,
    Min v <= i <= Max v ->
    1 <= index <= contained_from v (Min v + 1) (i - Min v) ->
    index <= kint64max ->
    i - Min v + 1 <= Z.of_nat fuel ->
    exists k, count_down v fuel i index = Some (inl k) /\ Contains v k = true.
Proof.
  intros Min_range Max_range.
  induction fuel as [|fuel IH]; intros i index Hi Hidx Hmax Hfuel; [lia|].
  cbn [count_down].
  destruct (Z.ltb_spec (Min v) i) as [Hlt|Hge];
    [|rewrite contained_from_nil in Hidx by lia; lia].
  rewrite contained_from_snoc in Hidx by lia.
  replace (Min v + 1 + (i - Min v) - 1) with i in Hidx by lia.
  replace (i - Min v - 1) with (i - 1 - Min v) in Hidx by lia.
  rewrite (sub_1 i) by (unfold kint64min, kint64max in *; lia).
  destruct (Contains v i) eqn:Hc.
  - rewrite sub_1 by (unfold kint64min in *; lia).
    destruct (Z.eqb_spec (index - 1) 0) as [He|Hne].
    + exists i. split; [reflexivity | exact Hc].
    + apply IH; lia.
  - apply IH; lia.
Qed.

(** What the selector does when it counts (the domain fills at most a
    quarter of its span): a rank of 0 makes it return 0, whatever the
    domain; any other rank makes it return a value of the domain. *)
Theorem Select_counting (v : IntVar) (index : Z) (draws : list Z) :
  well_formed v ->
  Size v <= Z.quot (Max v - Min v + 1) 4 ->
  0 <= index < Size v ->
  (index = 0 -> Select v (index :: draws) = Some 0) /\
  (1 <= index ->
   exists k, Select v (index :: draws) = Some k /\ Contains v k = true).
Proof.
  intros (Hne & Hnd & Hmin & Hmax & Hspan) Hsparse Hidx.
  pose proof (Min_contained v Hne) as HcMin.
  pose proof (Min_Max_bounds v (Min v) HcMin) as Hmm.
  pose proof (Size_le_contained v Hnd) as Hcount.
  assert (Hspan_eq : add (sub (Max v) (Min v)) 1 = Max v - Min v + 1).
  { unfold add, sub. rewrite (wrap_id (Max v - Min v));
      [apply wrap_id|]; unfold in_range, kint64min, kint64max in *; lia. }
  unfold Select. rewrite Hspan_eq.
  destruct (Z.ltb_spec (Z.quot (Max v - Min v + 1) 4) (Size v)) as [|_]; [lia|].
  assert (Hhalf : Z.quot (Size v) 2 <= Size v).
  { apply Z.quot_le_upper_bound; lia. }
  assert (Hquarter : Z.quot (Max v - Min v + 1) 4 <= Max v - Min v + 1).
  { apply Z.quot_le_upper_bound; lia. }
  set (fuel := Z.to_nat (Max v - Min v + 1 + 1)).
  split.
  - intros ->.
    destruct (Z.leb_spec 0 (Z.quot (Size v) 2)) as [_|Hneg];
      [|pose proof (Z.quot_pos (Size v) 2); lia].
    destruct (count_up_misses v fuel Hmax (Min v) 0) as (j & Hj & Hj0);
      [lia | unfold fuel, kint64min, kint64max in *; lia | unfold fuel; lia |].
    rewrite Hj. simpl.
    destruct (Z.leb_spec j 0); [reflexivity | lia].
  - intros H1.
    destruct (Z.leb_spec index (Z.quot (Size v) 2)) as [Hup|Hdown].
    + destruct (count_up_hits v fuel Hmax (Min v) index) as (k & Hk & Hc);
        [lia | lia | lia | unfold fuel; lia |].
      exists k. rewrite Hk. split; [reflexivity | exact Hc].
    + rewrite contained_from_cons, HcMin in Hcount by lia.
      replace (Max v - Min v + 1 - 1) with (Max v - Min v) in Hcount by lia.
      destruct (count_down_hits v fuel Hmin Hmax (Max v) index)
        as (k & Hk & Hc);
        [lia | lia | lia | unfold fuel; lia |].
      exists k. rewrite Hk. split; [reflexivity | exact Hc].
Qed.

End RandomValueFacts.

Module BitsetFacts.

Import Bitset.

(** *** The least significant bit *)

Lemma land_double (a b : Z) : Z.land (2 * a) (2 * b) = 2 * Z.land a b.
Proof.
  apply Z.bits_inj'. intros i Hi.
  rewrite Z.land_spec.
  destruct (Z.eq_dec i 0) as [->|Hne].
  - rewrite !Z.testbit_even_0. reflexivity.
  - replace i with (Z.succ (i - 1)) by lia.
    rewrite !Z.testbit_even_succ by lia. rewrite Z.land_spec. reflexivity.
Qed.

Lemma land_odd (a b : Z) :
  Z.land (2 * a + 1) (2 * b + 1) = 2 * Z.land a b + 1.
Proof.
  apply Z.bits_inj'. intros i Hi.
  rewrite Z.land_spec.
  destruct (Z.eq_dec i 0) as [->|Hne].
  - rewrite !Z.testbit_odd_0. reflexivity.
  - replace i with (Z.succ (i - 1)) by lia.
    rewrite !Z.testbit_odd_succ by lia. rewrite Z.land_spec. reflexivity.
Qed.

(** In unbounded arithmetic [n & ~(n - 1)] is the lowest bit set in [n]. *)
Lemma lowest_bit_pos (p : positive) :
  exists k,
    0 <= k /\
    Z.land (Zpos p) (Z.lnot (Zpos p - 1)) = 2 ^ k /\
    Z.testbit (Zpos p) k = true /\
    (forall i, 0 <= i < k -> Z.testbit (Zpos p) i = false) /\
    2 ^ k <= Zpos p.
Proof.
  induction p as [p IH|p IH|].
  - exists 0. split; [lia|]. split; [|split; [reflexivity|split; [lia|lia]]].
    replace (Zpos p~1) with (2 * Zpos p + 1) by lia.
    replace (2 * Zpos p + 1 - 1) with (2 * Zpos p) by lia.
    replace (Z.lnot (2 * Zpos p)) with (2 * Z.lnot (Zpos p) + 1)
      by (unfold Z.lnot; lia).
    rewrite land_odd, Z.land_lnot_diag. reflexivity.
  - destruct IH as (k & Hk & Hland & Hbit & Hlow & Hle).
    exists (k + 1). split; [lia|].
    replace (Zpos p~0) with (2 * Zpos p) by lia.
    split; [|split; [|split]].
    + replace (Z.lnot (2 * Zpos p - 1)) with (2 * Z.lnot (Zpos p - 1))
        by (unfold Z.lnot; lia).
      rewrite land_double, Hland, Z.pow_add_r by lia. lia.
    + replace (k + 1) with (Z.succ k) by lia.
      rewrite Z.testbit_even_succ by lia. exact Hbit.
    + intros i Hi. destruct (Z.eq_dec i 0) as [->|Hne].
      * apply Z.testbit_even_0.
      * replace i with (Z.succ (i - 1)) by lia.
        rewrite Z.testbit_even_succ by lia. apply Hlow. lia.
    + rewrite Z.pow_add_r by lia. lia.
  - exists 0. repeat split; try reflexivity; lia.
Qed.

Lemma land_uint64 (n x : Z) :
  0 <= n < 2 ^ 64 -> Z.land n (uint64 x) = Z.land n x.
Proof.
  intros Hn. unfold uint64. rewrite <- Z.land_ones by lia.
  rewrite (Z.land_comm x), Z.land_assoc, Z.land_ones by lia.
  rewrite Z.mod_small by lia. reflexivity.
Qed.

Lemma land_uint32 (n x : Z) :
  0 <= n < 2 ^ 32 -> Z.land n (uint32 x) = Z.land n x.
Proof.
  intros Hn. unfold uint32. rewrite <- Z.land_ones by lia.
  rewrite (Z.land_comm x), Z.land_assoc, Z.land_ones by lia.
  rewrite Z.mod_small by lia. reflexivity.
Qed.

Lemma lowest_bit_words :
  LeastSignificantBitWord64 0 = 0 /\
  LeastSignificantBitWord32 0 = 0 /\
  (forall n, 0 < n < 2 ^ 64 ->
     exists k, 0 <= k < 64 /\
       LeastSignificantBitWord64 n = 2 ^ k /\
       Z.testbit n k = true /\
       forall i, 0 <= i < k -> Z.testbit n i = false) /\
  (forall n, 0 < n < 2 ^ 32 ->
     exists k, 0 <= k < 32 /\
       LeastSignificantBitWord32 n = 2 ^ k /\
       Z.testbit n k = true /\
       forall i, 0 <= i < k -> Z.testbit n i = false).
Proof.
  split; [reflexivity|]. split; [reflexivity|]. split.
  - intros n Hn. destruct n as [|p|p]; try lia.
    destruct (lowest_bit_pos p) as (k & Hk & Hland & Hbit & Hlow & Hle).
    exists k. split.
    + split; [lia|]. apply (Z.pow_lt_mono_r_iff 2); lia.
    + split; [|split; assumption].
      unfold LeastSignificantBitWord64.
      rewrite land_uint64 by lia. unfold uint64.
      rewrite Z.mod_small by lia. exact Hland.
  - intros n Hn. destruct n as [|p|p]; try lia.
    destruct (lowest_bit_pos p) as (k & Hk & Hland & Hbit & Hlow & Hle).
    exists k. split.
    + split; [lia|]. apply (Z.pow_lt_mono_r_iff 2); lia.
    + split; [|split; assumption].
      unfold LeastSignificantBitWord32.
      rewrite land_uint32 by lia. unfold uint32.
      rewrite Z.mod_small by lia. exact Hland.
Qed.

(** [LeastSignificantBitWord64] and [LeastSignificantBitWord32] return the
    word with only the lowest set bit of [n], and 0 for 0. *)
Theorem LeastSignificantBitWord_lowest :
  LeastSignificantBitWord64 0 = 0 /\
  LeastSignificantBitWord32 0 = 0 /\
  (forall n, 0 < n < 2 ^ 64 ->
     exists k, 0 <= k < 64 /\
       LeastSignificantBitWord64 n = 2 ^ k /\
       Z.testbit n k = true /\
       forall i, 0 <= i < k -> Z.testbit n i = false) /\
  (forall n, 0 < n < 2 ^ 32 ->
     exists k, 0 <= k < 32 /\
       LeastSignificantBitWord32 n = 2 ^ k /\
       Z.testbit n k = true /\
       forall i, 0 <= i < k -> Z.testbit n i = false).
Proof. exact lowest_bit_words. Qed.

Lemma LeastSignificantBitWord_lowest_witness :
  exists k, 0 <= k < 64 /\
    LeastSignificantBitWord64 40 = 2 ^ k /\
    Z.testbit 40 k = true /\
    forall i, 0 <= i < k -> Z.testbit 40 i = false.
Proof.
  apply (proj1 (proj2 (proj2 LeastSignificantBitWord_lowest)) 40). lia.
Defined.

(** The hash of the de Bruijn sequence sends each power of two to the entry
    of the table that holds its exponent. *)
Lemma kTab64_power (k : Z) :
  0 <= k < 64 ->
  kTab64 !! Z.to_nat (Z.shiftr (uint64 (2 ^ k * kSeq64)) 58) = Some k.
Proof.
  intros Hk.
  assert (H : forallb
                (fun k => match kTab64 !! Z.to_nat
                                   (Z.shiftr (uint64 (2 ^ k * kSeq64)) 58) with
                          | Some r => r =? k
                          | None => false
                          end) (seqZ 0 64) = true) by (vm_compute; reflexivity).
  rewrite forallb_forall in H.
  specialize (H k ltac:(apply list_elem_of_In, elem_of_seqZ; lia)).
  destruct (kTab64 !! _) as [r|]; [|discriminate].
  apply Z.eqb_eq in H. congruence.
Qed.

(** The 32-bit table holds at index [k] the hash of [2 ^ k], not the exponent
    of the power whose hash is [k]: a power of two is sent to the entry found
    at the index given by its own entry. *)
Lemma kTab32_power (k : Z) :
  0 <= k < 32 ->
  exists h,
    kTab32 !! Z.to_nat k = Some h /\
    Z.shiftr (uint32 (2 ^ k * kSeq32)) 27 = h /\
    kTab32 !! Z.to_nat (Z.shiftr (uint32 (2 ^ k * kSeq32)) 27) =
    kTab32 !! Z.to_nat h.
Proof.
  intros Hk.
  assert (H : forallb
                (fun k => match kTab32 !! Z.to_nat k with
                          | Some h =>
                              Z.shiftr (uint32 (2 ^ k * kSeq32)) 27 =? h
                          | None => false
                          end) (seqZ 0 32) = true) by (vm_compute; reflexivity).
  rewrite forallb_forall in H.
  specialize (H k ltac:(apply list_elem_of_In, elem_of_seqZ; lia)).
  destruct (kTab32 !! Z.to_nat k) as [h|]; [|discriminate].
  apply Z.eqb_eq in H. exists h. rewrite H. auto.
Qed.

Lemma uint64_opp (n : Z) :
  0 < n < 2 ^ 64 -> uint64 (- n) = uint64 (Z.lnot (uint64 (n - 1))).
Proof.
  intros Hn. unfold uint64. rewrite (Z.mod_small (n - 1)) by lia.
  unfold Z.lnot. f_equal. lia.
Qed.

Lemma uint32_opp (n : Z) :
  0 < n < 2 ^ 32 -> uint32 (- n) = uint32 (Z.lnot (uint32 (n - 1))).
Proof.
  intros Hn. unfold uint32. rewrite (Z.mod_small (n - 1)) by lia.
  unfold Z.lnot. f_equal. lia.
Qed.

(** [LeastSignificantBitPosition64] returns the position of the lowest bit
    set in a word that is not 0: that bit is set and no bit below it is. *)
Theorem LeastSignificantBitPosition64_lowest (n : Z) :
  0 < n < 2 ^ 64 ->
  exists k, LeastSignificantBitPosition64 n = Some k /\
    0 <= k < 64 /\ Z.testbit n k = true /\
    forall i, 0 <= i < k -> Z.testbit n i = false.
Proof.
  destruct lowest_bit_words as (_ & _ & H64 & _).
  intros Hn. destruct (H64 n Hn) as (k & Hk & Hw & Hbit & Hlow).
  exists k. split; [|auto].
  unfold LeastSignificantBitPosition64. rewrite uint64_opp by exact Hn.
  fold (LeastSignificantBitWord64 n). rewrite Hw.
  apply kTab64_power. exact Hk.
Qed.

Lemma LeastSignificantBitPosition64_lowest_witness :
  exists k, LeastSignificantBitPosition64 40 = Some k /\
    0 <= k < 64 /\ Z.testbit 40 k = true /\
    forall i, 0 <= i < k -> Z.testbit 40 i = false.
Proof. apply (LeastSignificantBitPosition64_lowest 40). lia. Defined.

(** [LeastSignificantBitPosition32] on a word that is not 0, with [k] the
    position of its lowest set bit: the result is the entry of [kTab32] at
    the index held by entry [k], and it is [k] itself only for the positions
    0, 1, 12 and 25. *)
Theorem LeastSignificantBitPosition32_table (n : Z) :
  0 < n < 2 ^ 32 ->
  exists k h r,
    0 <= k < 32 /\ Z.testbit n k = true /\
    (forall i, 0 <= i < k -> Z.testbit n i = false) /\
    kTab32 !! Z.to_nat k = Some h /\
    kTab32 !! Z.to_nat h = Some r /\
    LeastSignificantBitPosition32 n = Some r /\
    (r = k <-> k = 0 \/ k = 1 \/ k = 12 \/ k = 25).
Proof.
  destruct lowest_bit_words as (_ & _ & _ & H32).
  intros Hn. destruct (H32 n Hn) as (k & Hk & Hw & Hbit & Hlow).
  destruct (kTab32_power k Hk) as (h & Hh & Hhash & Hidx).
  assert (H : forallb
                (fun k => match kTab32 !! Z.to_nat k with
                          | Some h =>
                              match kTab32 !! Z.to_nat h with
                              | Some r =>
                                  Bool.eqb (r =? k)
                                    ((k =? 0) || (k =? 1) || (k =? 12)
                                     || (k =? 25))
                              | None => false
                              end
                          | None => false
                          end) (seqZ 0 32) = true) by (vm_compute; reflexivity).
  rewrite forallb_forall in H.
  specialize (H k ltac:(apply list_elem_of_In, elem_of_seqZ; lia)).
  rewrite Hh in H.
  destruct (kTab32 !! Z.to_nat h) as [r|] eqn:Hr; [|discriminate].
  exists k, h, r.
  split; [exact Hk|]. split; [exact Hbit|]. split; [exact Hlow|].
  split; [exact Hh|]. split; [exact Hr|]. split.
  { unfold LeastSignificantBitPosition32. rewrite uint32_opp by exact Hn.
    fold (LeastSignificantBitWord32 n). rewrite Hw. exact Hidx. }
  split.
  - intros ->. rewrite Z.eqb_refl in H. apply eqb_prop in H. symmetry in H.
    rewrite !orb_true_iff, !Z.eqb_eq in H. tauto.
  - intros Hk4. apply Z.eqb_eq.
    assert (Hor : (k =? 0) || (k =? 1) || (k =? 12) || (k =? 25) = true)
      by (rewrite !orb_true_iff, !Z.eqb_eq; tauto).
    rewrite Hor in H. apply eqb_prop in H. exact H.
Qed.

Lemma LeastSignificantBitPosition32_table_witness :
  exists k h r,
    0 <= k < 32 /\ Z.testbit 4 k = true /\
    (forall i, 0 <= i < k -> Z.testbit 4 i = false) /\
    kTab32 !! Z.to_nat k = Some h /\
    kTab32 !! Z.to_nat h = Some r /\
    LeastSignificantBitPosition32 4 = Some r /\
    (r = k <-> k = 0 \/ k = 1 \/ k = 12 \/ k = 25).
Proof. apply (LeastSignificantBitPosition32_table 4). lia. Defined.

(** For the word 4, whose lowest set bit is at position 2, the 32-bit
    function returns 7. *)
Lemma LeastSignificantBitPosition32_of_4 :
  LeastSignificantBitPosition32 4 = Some 7.
Proof. reflexivity. Qed.

(** *** The most significant bit *)

Lemma land_shiftl_mask (n m k : Z) :
  0 <= k -> Z.land n (Z.shiftl m k) = Z.shiftl (Z.land (Z.shiftr n k) m) k.
Proof.
  intros Hk. apply Z.bits_inj'. intros i Hi.
  rewrite Z.land_spec, !Z.shiftl_spec by lia.
  destruct (Z.ltb_spec i k).
  - rewrite !(Z.testbit_neg_r _ (i - k)) by lia. apply andb_false_r.
  - rewrite Z.land_spec, Z.shiftr_spec by lia.
    replace (i - k + k) with i by lia. reflexivity.
Qed.

Lemma high_mask64 (n k : Z) :
  0 <= n < 2 ^ 64 -> 0 <= k ->
  (Z.land n (uint64 (Z.shiftl kAllBits64 k)) =? 0) = (n <? 2 ^ k).
Proof.
  intros Hn Hk. rewrite land_uint64 by exact Hn.
  rewrite land_shiftl_mask by exact Hk.
  change kAllBits64 with (Z.ones 64). rewrite Z.land_ones by lia.
  rewrite Z.shiftr_div_pow2, Z.shiftl_mul_pow2 by lia.
  assert (H2k : 0 < 2 ^ k) by (apply Z.pow_pos_nonneg; lia).
  assert (Hq : 0 <= n / 2 ^ k < 2 ^ 64).
  { split; [apply Z.div_pos; lia|].
    apply Z.le_lt_trans with n; [apply Z.div_le_upper_bound; nia | lia]. }
  rewrite Z.mod_small by exact Hq.
  destruct (Z.ltb_spec n (2 ^ k)) as [Hlt|Hge].
  - rewrite Z.div_small by lia. reflexivity.
  - apply Z.eqb_neq.
    assert (1 <= n / 2 ^ k) by (apply Z.div_le_lower_bound; lia). nia.
Qed.

Lemma high_mask32 (n k : Z) :
  0 <= n < 2 ^ 32 -> 0 <= k ->
  (Z.land n (uint32 (Z.shiftl kAllBits32 k)) =? 0) = (n <? 2 ^ k).
Proof.
  intros Hn Hk. rewrite land_uint32 by exact Hn.
  rewrite land_shiftl_mask by exact Hk.
  change kAllBits32 with (Z.ones 32). rewrite Z.land_ones by lia.
  rewrite Z.shiftr_div_pow2, Z.shiftl_mul_pow2 by lia.
  assert (H2k : 0 < 2 ^ k) by (apply Z.pow_pos_nonneg; lia).
  assert (Hq : 0 <= n / 2 ^ k < 2 ^ 32).
  { split; [apply Z.div_pos; lia|].
    apply Z.le_lt_trans with n; [apply Z.div_le_upper_bound; nia | lia]. }
  rewrite Z.mod_small by exact Hq.
  destruct (Z.ltb_spec n (2 ^ k)) as [Hlt|Hge].
  - rewrite Z.div_small by lia. reflexivity.
  - apply Z.eqb_neq.
    assert (1 <= n / 2 ^ k) by (apply Z.div_le_lower_bound; lia). nia.
Qed.

Lemma msb_step64_eq (k b n : Z) :
  0 <= n < 2 ^ 64 -> 0 <= k ->
  msb_step64 k (b, n) =
  if n <? 2 ^ k then (b, n) else (Z.lor b k, n / 2 ^ k).
Proof.
  intros Hn Hk. unfold msb_step64.
  rewrite high_mask64, Z.shiftr_div_pow2 by lia. reflexivity.
Qed.

Lemma msb_step32_eq (k b n : Z) :
  0 <= n < 2 ^ 32 -> 0 <= k ->
  msb_step32 k (b, n) =
  if n <? 2 ^ k then (b, n) else (Z.lor b k, n / 2 ^ k).
Proof.
  intros Hn Hk. unfold msb_step32.
  rewrite high_mask32, Z.shiftr_div_pow2 by lia. reflexivity.
Qed.

Ltac div_lia := Z.to_euclidean_division_equations; lia.

Ltac msb_paths step_eq mask_eq :=
  repeat (rewrite step_eq by div_lia;
          match goal with
          | |- context [?a <? ?b] => destruct (Z.ltb_spec a b); cbv iota
          end);
  rewrite mask_eq by div_lia;
  match goal with
  | |- context [?a <? ?b] => destruct (Z.ltb_spec a b)
  end;
  repeat match goal with
         | |- context [Z.lor ?a ?b] =>
             let v := eval vm_compute in (Z.lor a b) in
             change (Z.lor a b) with v
         end;
  symmetry; apply Z.log2_unique; div_lia.

(** [MostSignificantBitPosition64] returns the position of the highest bit
    set in a word that is not 0, the integer logarithm of the word. *)
Theorem MostSignificantBitPosition64_log2 (n : Z) :
  0 < n < 2 ^ 64 -> MostSignificantBitPosition64 n = Z.log2 n.
Proof.
  intros Hn. unfold MostSignificantBitPosition64.
  msb_paths msb_step64_eq high_mask64.
Qed.

Lemma MostSignificantBitPosition64_log2_witness :
  MostSignificantBitPosition64 40 = Z.log2 40.
Proof. apply MostSignificantBitPosition64_log2. lia. Defined.

(** [MostSignificantBitPosition32] returns the position of the highest bit
    set in a 32-bit word that is not 0. *)
Theorem MostSignificantBitPosition32_log2 (n : Z) :
  0 < n < 2 ^ 32 -> MostSignificantBitPosition32 n = Z.log2 n.
Proof.
  intros Hn. unfold MostSignificantBitPosition32.
  msb_paths msb_step32_eq high_mask32.
Qed.

Lemma MostSignificantBitPosition32_log2_witness :
  MostSignificantBitPosition32 40 = Z.log2 40.
Proof. apply MostSignificantBitPosition32_log2. lia. Defined.

(** On the word 0 both return 0. *)
Lemma MostSignificantBitPosition_zero :
  MostSignificantBitPosition64 0 = 0 /\ MostSignificantBitPosition32 0 = 0.
Proof. split; reflexivity. Qed.

(** *** Counting bits *)

Lemma land_split (j l h l' h' : Z) :
  0 <= j -> 0 <= l < 2 ^ j -> 0 <= l' < 2 ^ j ->
  Z.land (l + 2 ^ j * h) (l' + 2 ^ j * h') = Z.land l l' + 2 ^ j * Z.land h h'.
Proof.
  intros Hj Hl Hl'.
  assert (Hp : 0 < 2 ^ j) by (apply Z.pow_pos_nonneg; lia).
  set (x := Z.land (l + 2 ^ j * h) (l' + 2 ^ j * h')).
  assert (Hd : forall a b, 0 <= a < 2 ^ j -> (a + 2 ^ j * b) / 2 ^ j = b).
  { intros a b Ha. rewrite (Z.mul_comm (2 ^ j)), Z.div_add by lia.
    rewrite Z.div_small by lia. lia. }
  assert (Hm : forall a b, 0 <= a < 2 ^ j -> (a + 2 ^ j * b) mod 2 ^ j = a).
  { intros a b Ha. rewrite (Z.mul_comm (2 ^ j)), Z.mod_add by lia.
    apply Z.mod_small; lia. }
  assert (Hhi : x / 2 ^ j = Z.land h h').
  { unfold x. rewrite <- !Z.shiftr_div_pow2 by lia.
    rewrite Z.shiftr_land, !Z.shiftr_div_pow2 by lia.
    rewrite !Hd by lia. reflexivity. }
  assert (Hlo : x mod 2 ^ j = Z.land l l').
  { unfold x. rewrite <- !Z.land_ones by lia.
    rewrite <- (Z.land_diag (Z.ones j)) at 1.
    rewrite Z.land_assoc, <- (Z.land_assoc (l + 2 ^ j * h)).
    rewrite (Z.land_comm (l' + 2 ^ j * h')), Z.land_assoc.
    rewrite <- Z.land_assoc, !Z.land_ones by lia.
    rewrite !Hm by lia. reflexivity. }
  rewrite (Z.div_mod x (2 ^ j)) by lia. rewrite Hhi, Hlo. lia.
Qed.

Lemma land_low_masked (j a t m : Z) :
  0 <= j -> 0 <= a < 2 ^ j -> 0 <= m < 2 ^ j ->
  Z.land (a + 2 ^ j * t) m = Z.land a m.
Proof.
  intros Hj Ha Hm.
  replace m with (m + 2 ^ j * 0) at 1 by lia.
  rewrite land_split by lia. rewrite Z.land_0_r. lia.
Qed.

Lemma land_nonneg_le (a b : Z) : 0 <= a -> 0 <= b -> 0 <= Z.land a b <= a.
Proof.
  intros Ha Hb. split; [apply Z.land_nonneg; lia|].
  assert (Hd : 0 <= Z.ldiff a b) by (apply Z.ldiff_nonneg; lia).
  assert (Hs : Z.land a b + Z.ldiff a b = a).
  { rewrite Z.add_nocarry_lxor.
    - apply Z.bits_inj'. intros i Hi.
      rewrite Z.lxor_spec, Z.land_spec, Z.ldiff_spec.
      destruct (Z.testbit a i), (Z.testbit b i); reflexivity.
    - apply Z.bits_inj'. intros i Hi.
      rewrite !Z.land_spec, Z.ldiff_spec, Z.bits_0.
      destruct (Z.testbit a i), (Z.testbit b i); reflexivity. }
  lia.
Qed.

Lemma rep_S (k : nat) : rep (S k) = 1 + 256 * rep k.
Proof. reflexivity. Qed.

Lemma rep_nonneg (k : nat) : 0 <= rep k.
Proof. induction k; [simpl; lia | rewrite rep_S; lia]. Qed.

(** Each of the three additions acts on the lowest byte and on the other
    bytes separately. *)
Lemma pairs_split (k : nat) (b x : Z) :
  0 <= b < 256 ->
  pairs (S k) (b + 256 * x) = pairs 1 b + 256 * pairs k x.
Proof.
  intros Hb. unfold pairs. rewrite !rep_S. change (rep 0) with 0.
  rewrite !Z.shiftr_div_pow2 by lia. change (2 ^ 1) with 2.
  replace ((b + 256 * x) / 2)
    with ((b / 2 + 2 ^ 7 * (x mod 2)) + 2 ^ 8 * (x / 2)) by div_lia.
  replace (85 * (1 + 256 * rep k)) with (85 + 2 ^ 8 * (85 * rep k)) by lia.
  rewrite land_split by div_lia.
  rewrite (land_low_masked 7) by div_lia.
  change (85 * (1 + 256 * 0)) with 85. lia.
Qed.

Lemma nibbles_split (k : nat) (b x : Z) :
  0 <= b < 256 ->
  nibbles (S k) (b + 256 * x) = nibbles 1 b + 256 * nibbles k x.
Proof.
  intros Hb. unfold nibbles. rewrite !rep_S. change (rep 0) with 0.
  rewrite !Z.shiftr_div_pow2 by lia. change (2 ^ 2) with 4.
  replace ((b + 256 * x) / 4)
    with ((b / 4 + 2 ^ 6 * (x mod 4)) + 2 ^ 8 * (x / 4)) by div_lia.
  replace (51 * (1 + 256 * rep k)) with (51 + 2 ^ 8 * (51 * rep k)) by lia.
  replace (b + 256 * x) with (b + 2 ^ 8 * x) by lia.
  rewrite !land_split by div_lia.
  rewrite (land_low_masked 6) by div_lia.
  change (51 * (1 + 256 * 0)) with 51. lia.
Qed.

Lemma octets_split (k : nat) (c y : Z) :
  0 <= c <= 68 -> y mod 16 <= 4 ->
  octets (S k) (c + 256 * y) = octets 1 c + 256 * octets k y.
Proof.
  intros Hc Hy. unfold octets. rewrite !rep_S. change (rep 0) with 0.
  rewrite !Z.shiftr_div_pow2 by lia. change (2 ^ 4) with 16.
  replace (c + 256 * y + (c + 256 * y) / 16)
    with ((c + c / 16 + 2 ^ 4 * (y mod 16)) + 2 ^ 8 * (y + y / 16))
    by div_lia.
  replace (15 * (1 + 256 * rep k)) with (15 + 2 ^ 8 * (15 * rep k)) by lia.
  rewrite land_split by div_lia.
  change (15 * (1 + 256 * 0)) with 15.
  change 15 with (Z.ones 4) at 1 3. rewrite !Z.land_ones by lia.
  div_lia.
Qed.

Lemma popcount_double (x : Z) : 0 <= x -> popcount (2 * x) = popcount x.
Proof. destruct x; intros; try reflexivity; lia. Qed.

Lemma popcount_succ_double (x : Z) :
  0 <= x -> popcount (2 * x + 1) = 1 + popcount x.
Proof. destruct x; intros; try reflexivity; lia. Qed.

Lemma popcount_nonneg (n : Z) : 0 <= popcount n.
Proof.
  destruct n as [|p|p]; simpl; try lia.
  induction p; simpl; lia.
Qed.

Lemma popcount_split (j : nat) :
  forall a x, 0 <= a < 2 ^ Z.of_nat j -> 0 <= x ->
  popcount (a + 2 ^ Z.of_nat j * x) = popcount a + popcount x.
Proof.
  induction j as [|j IH]; intros a x Ha Hx.
  - change (2 ^ Z.of_nat 0) with 1 in *.
    replace a with 0 by lia. replace (0 + 1 * x) with x by lia. reflexivity.
  - rewrite Nat2Z.inj_succ, Z.pow_succ_r in * by lia.
    assert (Hp : 0 < 2 ^ Z.of_nat j) by (apply Z.pow_pos_nonneg; lia).
    assert (Hr : a mod 2 = 0 \/ a mod 2 = 1) by div_lia.
    assert (Ha2 : 0 <= a / 2 < 2 ^ Z.of_nat j) by div_lia.
    destruct Hr as [Hr|Hr].
    + replace (a + 2 * 2 ^ Z.of_nat j * x)
        with (2 * (a / 2 + 2 ^ Z.of_nat j * x)) by div_lia.
      replace a with (2 * (a / 2)) at 2 by div_lia.
      rewrite !popcount_double by nia. apply IH; lia.
    + replace (a + 2 * 2 ^ Z.of_nat j * x)
        with (2 * (a / 2 + 2 ^ Z.of_nat j * x) + 1) by div_lia.
      replace a with (2 * (a / 2) + 1) at 2 by div_lia.
      rewrite !popcount_succ_double by nia. rewrite IH by lia. lia.
Qed.

Lemma popcount_bytes (n : Z) :
  0 <= n -> popcount n = popcount (n mod 256) + popcount (n / 256).
Proof.
  intros Hn. rewrite <- (popcount_split 8) by div_lia.
  f_equal. change (2 ^ Z.of_nat 8) with 256. div_lia.
Qed.

(** What the three additions do to one byte, checked on the 256 bytes. *)
Lemma byte_table (b : Z) :
  0 <= b < 256 ->
  0 <= pairs 1 b < 256 /\
  0 <= nibbles 1 (pairs 1 b) <= 68 /\
  nibbles 1 (pairs 1 b) mod 16 <= 4 /\
  octets 1 (nibbles 1 (pairs 1 b)) = popcount b /\
  popcount b <= 8.
Proof.
  intros Hb.
  assert (H : forallb
                (fun b =>
                   let p := pairs 1 b in
                   let u := nibbles 1 p in
                   (0 <=? p) && (p <? 256) && (0 <=? u) && (u <=? 68)
                   && (u mod 16 <=? 4) && (octets 1 u =? popcount b)
                   && (popcount b <=? 8))
                (seqZ 0 256) = true) by (vm_compute; reflexivity).
  rewrite forallb_forall in H.
  specialize (H b ltac:(apply list_elem_of_In, elem_of_seqZ; lia)).
  cbv zeta in H. rewrite !andb_true_iff in H.
  destruct H as ((((((H1 & H2) & H3) & H4) & H5) & H6) & H7).
  apply Z.leb_le in H1, H3, H4, H5, H7. apply Z.ltb_lt in H2.
  apply Z.eqb_eq in H6. repeat split; assumption.
Qed.

Lemma nibbles_pairs_split (k : nat) (n : Z) :
  nibbles (S k) (pairs (S k) n) =
  nibbles 1 (pairs 1 (n mod 256)) + 256 * nibbles k (pairs k (n / 256)).
Proof.
  assert (Hb : 0 <= n mod 256 < 256) by div_lia.
  rewrite (Z.div_mod n 256) at 1 by lia.
  rewrite (Z.add_comm (256 * (n / 256))).
  rewrite pairs_split by exact Hb.
  apply nibbles_split. apply (byte_table _ Hb).
Qed.

Lemma nibbles_pairs_low (k : nat) (n : Z) :
  nibbles k (pairs k n) mod 16 <= 4.
Proof.
  destruct k as [|k].
  - unfold nibbles. change (51 * rep 0) with 0. rewrite !Z.land_0_r.
    div_lia.
  - rewrite nibbles_pairs_split.
    pose proof (byte_table (n mod 256) ltac:(div_lia)) as (_ & _ & H & _).
    revert H. generalize (nibbles 1 (pairs 1 (n mod 256))).
    generalize (nibbles k (pairs k (n / 256))). intros. div_lia.
Qed.

(** The three additions leave in every byte the number of bits that were set
    in it. *)
Lemma octets_bytesum (k : nat) :
  forall n, octets k (nibbles k (pairs k n)) = bytesum k n.
Proof.
  induction k as [|k IH]; intros n.
  - unfold octets. change (15 * rep 0) with 0. apply Z.land_0_r.
  - rewrite nibbles_pairs_split.
    pose proof (byte_table (n mod 256) ltac:(div_lia)) as (_ & H & _ & Hp & _).
    rewrite octets_split by (try exact H; apply nibbles_pairs_low).
    rewrite Hp, IH. reflexivity.
Qed.

Lemma nibbles_pairs_bound (k : nat) :
  forall n, 0 <= nibbles k (pairs k n) <= 68 * rep k.
Proof.
  induction k as [|k IH]; intros n.
  - unfold nibbles. change (rep 0) with 0. rewrite !Z.land_0_r. lia.
  - rewrite nibbles_pairs_split, rep_S.
    pose proof (byte_table (n mod 256) ltac:(div_lia)) as (_ & H & _).
    specialize (IH (n / 256)). lia.
Qed.

Lemma pairs_bound (k : nat) (n : Z) : 0 <= n -> 0 <= pairs k n <= n.
Proof.
  intros Hn. unfold pairs.
  assert (H : 0 <= Z.land (Z.shiftr n 1) (85 * rep k) <= Z.shiftr n 1).
  { apply land_nonneg_le.
    - apply Z.shiftr_nonneg. lia.
    - pose proof (rep_nonneg k). lia. }
  revert H. generalize (Z.land (Z.shiftr n 1) (85 * rep k)).
  rewrite Z.shiftr_div_pow2 by lia. change (2 ^ 1) with 2. intros. div_lia.
Qed.

Lemma bytesum_popcount (k : nat) :
  forall n, 0 <= n < 256 ^ Z.of_nat k ->
  exists cs, length cs = k /\ Forall (fun c => 0 <= c <= 8) cs /\
    bytesum k n = fold_right (fun c acc => c + 256 * acc) 0 cs /\
    popcount n = fold_right Z.add 0 cs.
Proof.
  induction k as [|k IH]; intros n Hn.
  - exists []. change (256 ^ Z.of_nat 0) with 1 in Hn.
    replace n with 0 by lia. repeat split; constructor.
  - rewrite Nat2Z.inj_succ, Z.pow_succ_r in Hn by lia.
    destruct (IH (n / 256) ltac:(div_lia)) as (cs & Hl & Hc & Hs & Hp).
    exists (popcount (n mod 256) :: cs).
    pose proof (byte_table (n mod 256) ltac:(div_lia)) as (_ & _ & _ & _ & H8).
    split; [simpl; congruence|]. split.
    { constructor; [|exact Hc]. split; [apply popcount_nonneg|exact H8]. }
    split.
    { simpl. rewrite Hs. reflexivity. }
    rewrite popcount_bytes by lia. simpl. rewrite Hp. reflexivity.
Qed.

Lemma uint64_small (z : Z) : 0 <= z < 2 ^ 64 -> uint64 z = z.
Proof. apply Z.mod_small. Qed.

Lemma uint32_small (z : Z) : 0 <= z < 2 ^ 32 -> uint32 z = z.
Proof. apply Z.mod_small. Qed.

Lemma BitCount64_steps (n : Z) :
  0 <= n < 2 ^ 64 ->
  BitCount64 n =
  Z.shiftr (uint64 (octets 8 (nibbles 8 (pairs 8 n)) * 0x0101010101010101)) 56.
Proof.
  intros Hn. unfold BitCount64. cbv zeta.
  pose proof (pairs_bound 8 n ltac:(lia)) as Hp.
  pose proof (nibbles_pairs_bound 8 n) as Hu.
  change (68 * rep 8) with 0x4444444444444444 in Hu.
  change 0x5555555555555555 with (85 * rep 8).
  change 0x3333333333333333 with (51 * rep 8).
  change 0x0F0F0F0F0F0F0F0F with (15 * rep 8).
  fold (pairs 8 n). rewrite (uint64_small (pairs 8 n)) by lia.
  fold (nibbles 8 (pairs 8 n)).
  rewrite (uint64_small (nibbles 8 (pairs 8 n))) by lia.
  rewrite (uint64_small (_ + _)).
  - reflexivity.
  - rewrite Z.shiftr_div_pow2 by lia. div_lia.
Qed.

Lemma BitCount32_steps (n : Z) :
  0 <= n < 2 ^ 32 ->
  BitCount32 n =
  let n := octets 4 (nibbles 4 (pairs 4 n)) in
  let n := uint32 (n + Z.shiftr n 8) in
  let n := uint32 (n + Z.shiftr n 16) in
  Z.land n 0x0000003F.
Proof.
  intros Hn. unfold BitCount32. cbv zeta.
  pose proof (pairs_bound 4 n ltac:(lia)) as Hp.
  pose proof (nibbles_pairs_bound 4 n) as Hu.
  change (68 * rep 4) with 0x44444444 in Hu.
  change 0x55555555 with (85 * rep 4).
  change 0x33333333 with (51 * rep 4).
  change 0x0F0F0F0F with (15 * rep 4).
  fold (pairs 4 n). rewrite (uint32_small (pairs 4 n)) by lia.
  fold (nibbles 4 (pairs 4 n)).
  rewrite (uint32_small (nibbles 4 (pairs 4 n))) by lia.
  rewrite (uint32_small (nibbles 4 (pairs 4 n) + _)).
  - reflexivity.
  - rewrite Z.shiftr_div_pow2 by lia. div_lia.
Qed.


Lemma bytes_total64 (c0 c1 c2 c3 c4 c5 c6 c7 : Z) :
  0 <= c0 <= 8 -> 0 <= c1 <= 8 -> 0 <= c2 <= 8 -> 0 <= c3 <= 8 ->
  0 <= c4 <= 8 -> 0 <= c5 <= 8 -> 0 <= c6 <= 8 -> 0 <= c7 <= 8 ->
  Z.shiftr
    (uint64 ((c0 + 256 * (c1 + 256 * (c2 + 256 * (c3 + 256 * (c4 + 256 * (c5 + 256 * (c6 + 256 * (c7 + 256 * 0)))))))) * 0x0101010101010101)) 56 =
  c0 + (c1 + (c2 + (c3 + (c4 + (c5 + (c6 + (c7 + 0))))))).
Proof.
  intros H0 H1 H2 H3 H4 H5 H6 H7.
  set (low := 1 * (c0) + 256 * (c0 + c1) + 65536 * (c0 + c1 + c2) + 16777216 * (c0 + c1 + c2 + c3) + 4294967296 * (c0 + c1 + c2 + c3 + c4) + 1099511627776 * (c0 + c1 + c2 + c3 + c4 + c5) + 281474976710656 * (c0 + c1 + c2 + c3 + c4 + c5 + c6)).
  set (high := 1 * c1 + 1 * c2 + 256 * c2 + 1 * c3 + 256 * c3 + 65536 * c3 + 1 * c4 + 256 * c4 + 65536 * c4 + 16777216 * c4 + 1 * c5 + 256 * c5 + 65536 * c5 + 16777216 * c5 + 4294967296 * c5 + 1 * c6 + 256 * c6 + 65536 * c6 + 16777216 * c6 + 4294967296 * c6 + 1099511627776 * c6 + 1 * c7 + 256 * c7 + 65536 * c7 + 16777216 * c7 + 4294967296 * c7 + 1099511627776 * c7 + 281474976710656 * c7).
  replace ((c0 + 256 * (c1 + 256 * (c2 + 256 * (c3 + 256 * (c4 + 256 * (c5 + 256 * (c6 + 256 * (c7 + 256 * 0)))))))) * 0x0101010101010101)
    with ((low + 2 ^ 56 * (c0 + c1 + c2 + c3 + c4 + c5 + c6 + c7)) + high * 2 ^ 64)
    by (unfold low, high; lia).
  unfold uint64. rewrite Z.mod_add by lia.
  assert (Hlow : 0 <= low < 2 ^ 56) by (unfold low; lia).
  rewrite Z.mod_small by lia.
  rewrite Z.shiftr_div_pow2 by lia.
  rewrite (Z.mul_comm (2 ^ 56)), Z.div_add by lia.
  rewrite Z.div_small by exact Hlow. lia.
Qed.

Lemma bytes_total32 (c0 c1 c2 c3 : Z) :
  0 <= c0 <= 8 -> 0 <= c1 <= 8 -> 0 <= c2 <= 8 -> 0 <= c3 <= 8 ->
  (let n := c0 + 256 * (c1 + 256 * (c2 + 256 * (c3 + 256 * 0))) in
   let n := uint32 (n + Z.shiftr n 8) in
   let n := uint32 (n + Z.shiftr n 16) in
   Z.land n 0x0000003F) =
  c0 + (c1 + (c2 + (c3 + 0))).
Proof.
  intros H0 H1 H2 H3. cbv zeta.
  set (n := c0 + 256 * (c1 + 256 * (c2 + 256 * (c3 + 256 * 0)))).
  assert (E1 : Z.shiftr n 8 = c1 + 256 * c2 + 65536 * c3).
  { rewrite Z.shiftr_div_pow2 by lia. symmetry.
    apply (Z.div_unique n (2 ^ 8) _ c0); unfold n; lia. }
  rewrite E1. rewrite (uint32_small (n + _)) by (unfold n; lia).
  set (m := n + (c1 + 256 * c2 + 65536 * c3)).
  assert (E2 : Z.shiftr m 16 = (c2 + c3) + 256 * c3).
  { rewrite Z.shiftr_div_pow2 by lia. symmetry.
    apply (Z.div_unique m (2 ^ 16) _ ((c0 + c1) + 256 * (c1 + c2)));
      unfold m, n; lia. }
  rewrite E2. rewrite (uint32_small (m + _)) by (unfold m, n; lia).
  change 0x0000003F with (Z.ones 6). rewrite Z.land_ones by lia.
  symmetry.
  apply (Z.mod_unique _ (2 ^ 6) (4 * (c1 + c2 + c3) + 1024 * (c2 + c3)
                                  + 262144 * c3));
    unfold m, n; lia.
Qed.

(** [BitCount64] returns the number of bits set in a 64-bit word. *)
Theorem BitCount64_popcount (n : Z) :
  0 <= n < 2 ^ 64 -> BitCount64 n = popcount n.
Proof.
  intros Hn. rewrite BitCount64_steps by exact Hn.
  rewrite octets_bytesum.
  destruct (bytesum_popcount 8 n Hn) as (cs & Hl & Hc & Hs & Hp).
  rewrite Hs, Hp.
  do 9 (destruct cs as [|? cs]; try discriminate Hl).
  repeat match goal with
         | H : Forall _ (_ :: _) |- _ =>
             let H1 := fresh in let H2 := fresh in
             apply Forall_cons in H as [H1 H2]
         end.
  cbn [fold_right]. apply bytes_total64; assumption.
Qed.

Lemma BitCount64_popcount_witness : BitCount64 0xF0F1 = popcount 0xF0F1.
Proof. apply BitCount64_popcount. lia. Defined.

(** [BitCount32] returns the number of bits set in a 32-bit word. *)
Theorem BitCount32_popcount (n : Z) :
  0 <= n < 2 ^ 32 -> BitCount32 n = popcount n.
Proof.
  intros Hn. rewrite BitCount32_steps by exact Hn. cbv zeta.
  rewrite octets_bytesum.
  destruct (bytesum_popcount 4 n Hn) as (cs & Hl & Hc & Hs & Hp).
  rewrite Hs, Hp.
  do 5 (destruct cs as [|? cs]; try discriminate Hl).
  repeat match goal with
         | H : Forall _ (_ :: _) |- _ =>
             let H1 := fresh in let H2 := fresh in
             apply Forall_cons in H as [H1 H2]
         end.
  cbn [fold_right]. apply bytes_total32; assumption.
Qed.

Lemma BitCount32_popcount_witness : BitCount32 0xF0F1 = popcount 0xF0F1.
Proof. apply BitCount32_popcount. lia. Defined.

(** *** Ranges of bits *)

Ltac bool_lia :=
  repeat match goal with
         | |- context [?a <=? ?b] => destruct (Z.leb_spec a b)
         | |- context [?a <? ?b] => destruct (Z.ltb_spec a b)
         | |- context [?a =? ?b] => destruct (Z.eqb_spec a b)
         end;
  simpl; try reflexivity; try lia.

Lemma testbit_uint64 (z i : Z) :
  Z.testbit (uint64 z) i = (i <? 64) && Z.testbit z i.
Proof. unfold uint64. apply Z.testbit_mod_pow2. lia. Qed.

Lemma testbit_uint32 (z i : Z) :
  Z.testbit (uint32 z) i = (i <? 32) && Z.testbit z i.
Proof. unfold uint32. apply Z.testbit_mod_pow2. lia. Qed.

Lemma testbit_kAllBits64 (i : Z) :
  Z.testbit kAllBits64 i = (0 <=? i) && (i <? 64).
Proof. change kAllBits64 with (Z.ones 64). apply Z.testbit_ones. lia. Qed.

Lemma testbit_kAllBits32 (i : Z) :
  Z.testbit kAllBits32 i = (0 <=? i) && (i <? 32).
Proof. change kAllBits32 with (Z.ones 32). apply Z.testbit_ones. lia. Qed.

Lemma testbit_kAllBits64_pred (i : Z) :
  Z.testbit (kAllBits64 - 1) i = (1 <=? i) && (i <? 64).
Proof.
  change (kAllBits64 - 1) with (Z.shiftl (Z.ones 63) 1).
  destruct (Z.le_gt_cases 0 i) as [Hi|Hi].
  - rewrite Z.shiftl_spec, Z.testbit_ones by lia. bool_lia.
  - rewrite Z.testbit_neg_r by lia. bool_lia.
Qed.

Lemma testbit_kAllBits32_pred (i : Z) :
  Z.testbit (kAllBits32 - 1) i = (1 <=? i) && (i <? 32).
Proof.
  change (kAllBits32 - 1) with (Z.shiftl (Z.ones 31) 1).
  destruct (Z.le_gt_cases 0 i) as [Hi|Hi].
  - rewrite Z.shiftl_spec, Z.testbit_ones by lia. bool_lia.
  - rewrite Z.testbit_neg_r by lia. bool_lia.
Qed.

Lemma interval64_testbit (s i : Z) :
  0 <= s <= 63 -> 0 <= i ->
  Z.testbit (IntervalUp64 s) i = (s <=? i) && (i <? 64) /\
  Z.testbit (IntervalDown64 s) i = (i <=? s).
Proof.
  intros Hs Hi. unfold IntervalUp64, IntervalDown64. split.
  - rewrite testbit_uint64, Z.shiftl_spec, testbit_kAllBits64 by lia.
    bool_lia.
  - rewrite Z.shiftr_spec, testbit_kAllBits64 by lia. bool_lia.
Qed.

(** [IntervalUp64 s] has the bits from [s] up set, and
    [IntervalDown64 s] the bits from 0 to [s]. *)
Theorem Interval64_bits (s i : Z) :
  0 <= s <= 63 -> 0 <= i ->
  Z.testbit (IntervalUp64 s) i = (s <=? i) && (i <? 64) /\
  Z.testbit (IntervalDown64 s) i = (i <=? s).
Proof. exact (interval64_testbit s i). Qed.

Lemma Interval64_bits_witness :
  Z.testbit (IntervalUp64 3) 5 = (3 <=? 5) && (5 <? 64) /\
  Z.testbit (IntervalDown64 3) 5 = (5 <=? 3).
Proof. apply Interval64_bits; lia. Defined.

Lemma interval32_testbit (s i : Z) :
  0 <= s <= 31 -> 0 <= i ->
  Z.testbit (IntervalUp32 s) i = (s <=? i) && (i <? 32) /\
  Z.testbit (IntervalDown32 s) i = (i <=? s).
Proof.
  intros Hs Hi. unfold IntervalUp32, IntervalDown32. split.
  - rewrite testbit_uint32, Z.shiftl_spec, testbit_kAllBits32 by lia.
    bool_lia.
  - rewrite Z.shiftr_spec, testbit_kAllBits32 by lia. bool_lia.
Qed.

(** [IntervalUp32 s] has the bits from [s] up set, and
    [IntervalDown32 s] the bits from 0 to [s]. *)
Theorem Interval32_bits (s i : Z) :
  0 <= s <= 31 -> 0 <= i ->
  Z.testbit (IntervalUp32 s) i = (s <=? i) && (i <? 32) /\
  Z.testbit (IntervalDown32 s) i = (i <=? s).
Proof. exact (interval32_testbit s i). Qed.

Lemma Interval32_bits_witness :
  Z.testbit (IntervalUp32 3) 5 = (3 <=? 5) && (5 <? 32) /\
  Z.testbit (IntervalDown32 3) 5 = (5 <=? 3).
Proof. apply Interval32_bits; lia. Defined.

(** [OneRange64 s e] has exactly the bits from [s] to [e] set: it is the
    number [2 ^ (e + 1) - 2 ^ s], and the bits that [IntervalUp64 s] and
    [IntervalDown64 e] share. *)
Theorem OneRange64_bits (s e : Z) :
  0 <= s <= e -> e <= 63 ->
  (forall i, 0 <= i ->
             Z.testbit (OneRange64 s e) i = (s <=? i) && (i <=? e)) /\
  OneRange64 s e = Z.land (IntervalUp64 s) (IntervalDown64 e) /\
  OneRange64 s e = 2 ^ (e + 1) - 2 ^ s.
Proof.
  intros Hs He.
  assert (Hbits : forall i, 0 <= i ->
            Z.testbit (OneRange64 s e) i = (s <=? i) && (i <=? e)).
  { intros i Hi. unfold OneRange64.
    rewrite Z.lxor_spec, !testbit_uint64, !Z.shiftl_spec by lia.
    rewrite testbit_kAllBits64, testbit_kAllBits64_pred. bool_lia. }
  split; [exact Hbits|]. split.
  - apply Z.bits_inj'. intros i Hi.
    rewrite Hbits, Z.land_spec by lia.
    destruct (interval64_testbit s i ltac:(lia) Hi) as [-> _].
    destruct (interval64_testbit e i ltac:(lia) Hi) as [_ ->]. bool_lia.
  - assert (H2 : 0 < 2 ^ s <= 2 ^ (e + 1)).
    { split; [apply Z.pow_pos_nonneg; lia|].
      apply Z.pow_le_mono_r; lia. }
    apply Z.bits_inj'. intros i Hi. rewrite Hbits by lia.
    replace (2 ^ (e + 1) - 2 ^ s) with (Z.shiftl (Z.ones (e + 1 - s)) s).
    + rewrite Z.shiftl_spec, Z.testbit_ones by lia. bool_lia.
    + rewrite Z.shiftl_mul_pow2, Z.ones_equiv by lia.
      rewrite <- Z.sub_1_r, Z.mul_sub_distr_r, <- Z.pow_add_r by lia.
      replace (e + 1 - s + s) with (e + 1) by lia. lia.
Qed.

Lemma OneRange64_bits_witness :
  (forall i, 0 <= i ->
             Z.testbit (OneRange64 2 5) i = (2 <=? i) && (i <=? 5)) /\
  OneRange64 2 5 = Z.land (IntervalUp64 2) (IntervalDown64 5) /\
  OneRange64 2 5 = 2 ^ (5 + 1) - 2 ^ 2.
Proof. apply OneRange64_bits; lia. Defined.

(** [OneRange32 s e] has exactly the bits from [s] to [e] set. *)
Theorem OneRange32_bits (s e : Z) :
  0 <= s <= e -> e <= 31 ->
  (forall i, 0 <= i ->
             Z.testbit (OneRange32 s e) i = (s <=? i) && (i <=? e)) /\
  OneRange32 s e = Z.land (IntervalUp32 s) (IntervalDown32 e) /\
  OneRange32 s e = 2 ^ (e + 1) - 2 ^ s.
Proof.
  intros Hs He.
  assert (Hbits : forall i, 0 <= i ->
            Z.testbit (OneRange32 s e) i = (s <=? i) && (i <=? e)).
  { intros i Hi. unfold OneRange32.
    rewrite Z.lxor_spec, !testbit_uint32, !Z.shiftl_spec by lia.
    rewrite testbit_kAllBits32, testbit_kAllBits32_pred. bool_lia. }
  split; [exact Hbits|]. split.
  - apply Z.bits_inj'. intros i Hi.
    rewrite Hbits, Z.land_spec by lia.
    destruct (interval32_testbit s i ltac:(lia) Hi) as [-> _].
    destruct (interval32_testbit e i ltac:(lia) Hi) as [_ ->]. bool_lia.
  - assert (H2 : 0 < 2 ^ s <= 2 ^ (e + 1)).
    { split; [apply Z.pow_pos_nonneg; lia|].
      apply Z.pow_le_mono_r; lia. }
    apply Z.bits_inj'. intros i Hi. rewrite Hbits by lia.
    replace (2 ^ (e + 1) - 2 ^ s) with (Z.shiftl (Z.ones (e + 1 - s)) s).
    + rewrite Z.shiftl_spec, Z.testbit_ones by lia. bool_lia.
    + rewrite Z.shiftl_mul_pow2, Z.ones_equiv by lia.
      rewrite <- Z.sub_1_r, Z.mul_sub_distr_r, <- Z.pow_add_r by lia.
      replace (e + 1 - s + s) with (e + 1) by lia. lia.
Qed.

Lemma OneRange32_bits_witness :
  (forall i, 0 <= i ->
             Z.testbit (OneRange32 2 5) i = (2 <=? i) && (i <=? 5)) /\
  OneRange32 2 5 = Z.land (IntervalUp32 2) (IntervalDown32 5) /\
  OneRange32 2 5 = 2 ^ (5 + 1) - 2 ^ 2.
Proof. apply OneRange32_bits; lia. Defined.

(** *** Bitsets *)

Lemma BitPos64_mod (pos : Z) : BitPos64 pos = pos mod 64.
Proof.
  unfold BitPos64. change 63 with (Z.ones 6). apply Z.land_ones. lia.
Qed.

Lemma BitPos32_mod (pos : Z) : BitPos32 pos = pos mod 32.
Proof.
  unfold BitPos32. change 31 with (Z.ones 5). apply Z.land_ones. lia.
Qed.

Lemma BitOffset64_div (pos : Z) : BitOffset64 pos = pos / 64.
Proof. unfold BitOffset64. apply Z.shiftr_div_pow2. lia. Qed.

Lemma BitOffset32_div (pos : Z) : BitOffset32 pos = pos / 32.
Proof. unfold BitOffset32. apply Z.shiftr_div_pow2. lia. Qed.

Lemma OneBit64_pow (j : Z) : 0 <= j < 64 -> OneBit64 j = 2 ^ j.
Proof.
  intros Hj. unfold OneBit64. rewrite Z.shiftl_1_l. apply uint64_small.
  split; [apply Z.pow_nonneg; lia | apply Z.pow_lt_mono_r; lia].
Qed.

Lemma OneBit32_pow (j : Z) : 0 <= j < 32 -> OneBit32 j = 2 ^ j.
Proof.
  intros Hj. unfold OneBit32. rewrite Z.shiftl_1_l. apply uint32_small.
  split; [apply Z.pow_nonneg; lia | apply Z.pow_lt_mono_r; lia].
Qed.

Lemma land_pow2_eqb (w j : Z) :
  0 <= j -> negb (Z.land w (2 ^ j) =? 0) = Z.testbit w j.
Proof.
  intros Hj.
  assert (H : Z.land w (2 ^ j) = if Z.testbit w j then 2 ^ j else 0).
  { apply Z.bits_inj'. intros i Hi.
    rewrite Z.land_spec, Z.pow2_bits_eqb by lia.
    destruct (Z.eqb_spec j i) as [->|Hne].
    - destruct (Z.testbit w i); [|rewrite Z.bits_0; reflexivity].
      rewrite Z.pow2_bits_eqb, Z.eqb_refl by lia. reflexivity.
    - rewrite andb_false_r. destruct (Z.testbit w j).
      + rewrite Z.pow2_bits_eqb by lia. symmetry. apply Z.eqb_neq. exact Hne.
      + rewrite Z.bits_0. reflexivity. }
  rewrite H.
  assert (Hp : 0 < 2 ^ j) by (apply Z.pow_pos_nonneg; lia).
  destruct (Z.testbit w j); [|reflexivity].
  destruct (Z.eqb_spec (2 ^ j) 0); [lia | reflexivity].
Qed.

Lemma IsBitSet64_testbit (bitset : list Z) (pos : Z) :
  0 <= pos -> IsBitSet64 bitset pos = bit_at bitset pos.
Proof.
  intros Hpos. unfold IsBitSet64, bit_at.
  rewrite BitOffset64_div, BitPos64_mod.
  assert (Hj : 0 <= pos mod 64 < 64) by (apply Z.mod_pos_bound; lia).
  rewrite OneBit64_pow by exact Hj.
  destruct (bitset !! Z.to_nat (pos / 64)) as [w|]; [|reflexivity].
  rewrite land_pow2_eqb by lia. reflexivity.
Qed.

(** [IsBitSet64] reads bit [pos mod 64] of word [pos / 64], and is undefined
    exactly when the bitset has no such word; positions are those of
    [BitShift64]: the first bit of word [v] is bit [64 * v]. *)
Theorem IsBitSet64_bit_at (bitset : list Z) (pos : Z) :
  0 <= pos ->
  IsBitSet64 bitset pos = bit_at bitset pos /\
  (IsBitSet64 bitset pos = None <-> Z.of_nat (length bitset) <= pos / 64) /\
  (pos < 2 ^ 64 -> BitShift64 (BitOffset64 pos) + BitPos64 pos = pos).
Proof.
  intros Hpos. unfold IsBitSet64, bit_at.
  rewrite BitOffset64_div, BitPos64_mod.
  assert (Hj : 0 <= pos mod 64 < 64) by (apply Z.mod_pos_bound; lia).
  rewrite OneBit64_pow by exact Hj.
  assert (Hq : 0 <= pos / 64) by (apply Z.div_pos; lia).
  split; [|split].
  - destruct (bitset !! Z.to_nat (pos / 64)) as [w|]; [|reflexivity].
    rewrite land_pow2_eqb by lia. reflexivity.
  - destruct (bitset !! Z.to_nat (pos / 64)) as [w|] eqn:Hw.
    + apply lookup_lt_Some in Hw. split; [discriminate | lia].
    + apply lookup_ge_None in Hw. split; [lia | reflexivity].
  - intros Hlt. unfold BitShift64.
    rewrite Z.shiftl_mul_pow2 by lia. change (2 ^ 6) with 64.
    rewrite uint64_small by div_lia. div_lia.
Qed.

Lemma IsBitSet64_bit_at_witness :
  IsBitSet64 [0; 4] 66 = bit_at [0; 4] 66 /\
  (IsBitSet64 [0; 4] 66 = None <-> Z.of_nat (length [0; 4]) <= 66 / 64) /\
  (66 < 2 ^ 64 -> BitShift64 (BitOffset64 66) + BitPos64 66 = 66).
Proof. apply IsBitSet64_bit_at. lia. Defined.

(** [IsBitSet32] reads bit [pos mod 32] of word [pos / 32]. *)
Theorem IsBitSet32_bit_at (bitset : list Z) (pos : Z) :
  0 <= pos ->
  (IsBitSet32 bitset pos =
   match bitset !! Z.to_nat (pos / 32) with
   | Some w => Some (Z.testbit w (pos mod 32))
   | None => None
   end) /\
  (IsBitSet32 bitset pos = None <-> Z.of_nat (length bitset) <= pos / 32) /\
  (pos < 2 ^ 32 -> BitShift32 (BitOffset32 pos) + BitPos32 pos = pos).
Proof.
  intros Hpos. unfold IsBitSet32.
  rewrite BitOffset32_div, BitPos32_mod.
  assert (Hj : 0 <= pos mod 32 < 32) by (apply Z.mod_pos_bound; lia).
  rewrite OneBit32_pow by exact Hj.
  assert (Hq : 0 <= pos / 32) by (apply Z.div_pos; lia).
  split; [|split].
  - destruct (bitset !! Z.to_nat (pos / 32)) as [w|]; [|reflexivity].
    rewrite land_pow2_eqb by lia. reflexivity.
  - destruct (bitset !! Z.to_nat (pos / 32)) as [w|] eqn:Hw.
    + apply lookup_lt_Some in Hw. split; [discriminate | lia].
    + apply lookup_ge_None in Hw. split; [lia | reflexivity].
  - intros Hlt. unfold BitShift32.
    rewrite Z.shiftl_mul_pow2 by lia. change (2 ^ 5) with 32.
    rewrite uint32_small by div_lia. div_lia.
Qed.

Lemma IsBitSet32_bit_at_witness :
  (IsBitSet32 [0; 0; 4] 66 =
   match [0; 0; 4] !! Z.to_nat (66 / 32) with
   | Some w => Some (Z.testbit w (66 mod 32))
   | None => None
   end) /\
  (IsBitSet32 [0; 0; 4] 66 = None <->
   Z.of_nat (length [0; 0; 4]) <= 66 / 32) /\
  (66 < 2 ^ 32 -> BitShift32 (BitOffset32 66) + BitPos32 66 = 66).
Proof. apply IsBitSet32_bit_at. lia. Defined.

Lemma bit_at_insert (bitset : list Z) (pos q : Z) (w w' : Z) :
  0 <= pos -> 0 <= q ->
  bitset !! Z.to_nat (pos / 64) = Some w ->
  (forall j, 0 <= j < 64 -> j <> pos mod 64 ->
             Z.testbit w' j = Z.testbit w j) ->
  bit_at (<[Z.to_nat (pos / 64) := w']> bitset) q =
  if q =? pos then Some (Z.testbit w' (pos mod 64)) else bit_at bitset q.
Proof.
  intros Hpos Hq Hw Hother. unfold bit_at.
  pose proof (lookup_lt_Some _ _ _ Hw) as Hlen.
  assert (Hqd : 0 <= q / 64) by (apply Z.div_pos; lia).
  assert (Hpd : 0 <= pos / 64) by (apply Z.div_pos; lia).
  destruct (Z.eqb_spec q pos) as [->|Hne].
  - rewrite list_lookup_insert_eq by exact Hlen. reflexivity.
  - destruct (Z.eq_dec (q / 64) (pos / 64)) as [Heq|Hd].
    + rewrite Heq, list_lookup_insert_eq, Hw by exact Hlen. f_equal.
      apply Hother; [apply Z.mod_pos_bound; lia|].
      intros Hm. apply Hne.
      rewrite (Z.div_mod q 64), (Z.div_mod pos 64) by lia. congruence.
    + rewrite list_lookup_insert_ne by lia. reflexivity.
Qed.

(** After [SetBit64] at [pos] the bit [pos] is set and every other bit of the
    bitset is as before; [ClearBit64] clears the bit and leaves the others.
    Both are undefined exactly when the bitset has no word [pos / 64], and
    both keep the words within 64 bits. *)
Theorem SetBit64_ClearBit64 (bitset : list Z) (pos : Z) :
  0 <= pos ->
  (forall bitset',
      SetBit64 bitset pos = Some bitset' ->
      length bitset' = length bitset /\
      (Forall (fun w => 0 <= w < 2 ^ 64) bitset ->
       Forall (fun w => 0 <= w < 2 ^ 64) bitset') /\
      forall q, 0 <= q ->
        IsBitSet64 bitset' q =
        if q =? pos then Some true else IsBitSet64 bitset q) /\
  (forall bitset',
      ClearBit64 bitset pos = Some bitset' ->
      length bitset' = length bitset /\
      (Forall (fun w => 0 <= w < 2 ^ 64) bitset ->
       Forall (fun w => 0 <= w < 2 ^ 64) bitset') /\
      forall q, 0 <= q ->
        IsBitSet64 bitset' q =
        if q =? pos then Some false else IsBitSet64 bitset q) /\
  (SetBit64 bitset pos = None <-> Z.of_nat (length bitset) <= pos / 64) /\
  (ClearBit64 bitset pos = None <-> Z.of_nat (length bitset) <= pos / 64).
Proof.
  intros Hpos. unfold SetBit64, ClearBit64.
  rewrite BitOffset64_div, BitPos64_mod.
  assert (Hj : 0 <= pos mod 64 < 64) by (apply Z.mod_pos_bound; lia).
  rewrite OneBit64_pow by exact Hj.
  assert (Hq : 0 <= pos / 64) by (apply Z.div_pos; lia).
  assert (Hp : 0 < 2 ^ (pos mod 64) < 2 ^ 64).
  { split; [apply Z.pow_pos_nonneg; lia | apply Z.pow_lt_mono_r; lia]. }
  destruct (bitset !! Z.to_nat (pos / 64)) as [w|] eqn:Hw.
  - split; [|split; [|split; split; try discriminate;
                      apply lookup_lt_Some in Hw; lia]].
    + intros bitset' [= <-]. split; [apply length_insert|]. split.
      * intros Hall. apply Forall_insert; [exact Hall|].
        pose proof (Forall_lookup_1 _ _ _ _ Hall Hw) as Hr. cbv beta in Hr.
        split; [apply Z.lor_nonneg; lia|].
        assert (Hpos' : 0 < Z.lor w (2 ^ (pos mod 64))).
        { assert (H0 : 0 <= Z.lor w (2 ^ (pos mod 64)))
            by (apply Z.lor_nonneg; lia).
          destruct (Z.eq_dec (Z.lor w (2 ^ (pos mod 64))) 0) as [E|]; [|lia].
          apply Z.lor_eq_0_iff in E. lia. }
        apply Z.log2_lt_pow2; [exact Hpos'|].
        rewrite Z.log2_lor by lia.
        apply Z.max_lub_lt; [|apply Z.log2_lt_pow2; lia].
        destruct (Z.eq_dec w 0) as [->|Hw0]; [simpl; lia|].
        apply Z.log2_lt_pow2; lia.
      * intros q Hq0.
        rewrite !IsBitSet64_testbit by exact Hq0.
        assert (Hother : forall j, 0 <= j < 64 -> j <> pos mod 64 ->
                  Z.testbit (Z.lor w (2 ^ (pos mod 64))) j = Z.testbit w j).
        { intros j Hj' Hne. rewrite Z.lor_spec, Z.pow2_bits_eqb by lia.
          destruct (Z.eqb_spec (pos mod 64) j); [lia|]. apply orb_false_r. }
        rewrite (bit_at_insert bitset pos q w _ Hpos Hq0 Hw Hother).
        rewrite Z.lor_spec, Z.pow2_bits_eqb, Z.eqb_refl, orb_true_r by lia.
        reflexivity.
    + intros bitset' [= <-]. split; [apply length_insert|]. split.
      * intros Hall. apply Forall_insert; [exact Hall|].
        pose proof (Forall_lookup_1 _ _ _ _ Hall Hw) as Hr. cbv beta in Hr.
        assert (Hm : 0 <= uint64 (Z.lnot (2 ^ (pos mod 64))))
          by (apply Z.mod_pos_bound; lia).
        pose proof (land_nonneg_le w _ ltac:(lia) Hm). lia.
      * intros q Hq0.
        rewrite !IsBitSet64_testbit by exact Hq0.
        assert (Hother : forall j, 0 <= j < 64 -> j <> pos mod 64 ->
                  Z.testbit
                    (Z.land w (uint64 (Z.lnot (2 ^ (pos mod 64))))) j =
                  Z.testbit w j).
        { intros j Hj' Hne.
          rewrite Z.land_spec, testbit_uint64, Z.lnot_spec,
            Z.pow2_bits_eqb by lia.
          destruct (Z.eqb_spec (pos mod 64) j); [lia|].
          destruct (Z.ltb_spec j 64); [|lia]. apply andb_true_r. }
        rewrite (bit_at_insert bitset pos q w _ Hpos Hq0 Hw Hother).
        rewrite Z.land_spec, testbit_uint64, Z.lnot_spec,
          Z.pow2_bits_eqb, Z.eqb_refl by lia.
        rewrite !andb_false_r. reflexivity.
  - apply lookup_ge_None in Hw.
    split; [intros ? [=]|]. split; [intros ? [=]|].
    split; split; intros; try reflexivity; lia.
Qed.

Lemma SetBit64_ClearBit64_witness :
  exists bitset',
    SetBit64 [0; 4] 3 = Some bitset' /\
    forall q, 0 <= q ->
      IsBitSet64 bitset' q = if q =? 3 then Some true else IsBitSet64 [0; 4] q.
Proof.
  exists [8; 4]. split; [reflexivity|].
  apply (proj1 (SetBit64_ClearBit64 [0; 4] 3 ltac:(lia)) [8; 4] eq_refl).
Defined.

(** [BitLength64 size] is the number of words that [size] bits need, the
    quotient of [size] by 64 rounded up; from [2 ^ 64 - 63] on the sum wraps
    and the result is 0. *)
Theorem BitLength64_words (size : Z) :
  0 <= size < 2 ^ 64 ->
  (size < 2 ^ 64 - 63 ->
   64 * (BitLength64 size - 1) < size <= 64 * BitLength64 size) /\
  (2 ^ 64 - 63 <= size -> BitLength64 size = 0).
Proof.
  intros Hs. unfold BitLength64, uint64.
  rewrite Z.shiftr_div_pow2 by lia. change (2 ^ 6) with 64.
  split; intros H; div_lia.
Qed.

Lemma BitLength64_words_witness :
  (65 < 2 ^ 64 - 63 ->
   64 * (BitLength64 65 - 1) < 65 <= 64 * BitLength64 65) /\
  (2 ^ 64 - 63 <= 65 -> BitLength64 65 = 0).
Proof. apply BitLength64_words. lia. Defined.

(** [BitLength32 size] is the number of 32-bit words that [size] bits need;
    from [2 ^ 32 - 31] on the sum wraps and the result is 0. *)
Theorem BitLength32_words (size : Z) :
  0 <= size < 2 ^ 32 ->
  (size < 2 ^ 32 - 31 ->
   32 * (BitLength32 size - 1) < size <= 32 * BitLength32 size) /\
  (2 ^ 32 - 31 <= size -> BitLength32 size = 0).
Proof.
  intros Hs. unfold BitLength32, uint32.
  rewrite Z.shiftr_div_pow2 by lia. change (2 ^ 5) with 32.
  split; intros H; div_lia.
Qed.

Lemma BitLength32_words_witness :
  (65 < 2 ^ 32 - 31 ->
   32 * (BitLength32 65 - 1) < 65 <= 32 * BitLength32 65) /\
  (2 ^ 32 - 31 <= 65 -> BitLength32 65 = 0).
Proof. apply BitLength32_words. lia. Defined.

End BitsetFacts.

(** ** The tabu lists along a search *)

Module TabuListFacts.

Import Int64 Int64Facts Tabu.


Lemma newest_first_app_l (b : Z) (l1 l2 : list VarValue) :
  newest_first b (l1 ++ l2) -> newest_first b l1.
Proof.
  revert b. induction l1 as [|e l1 IH]; simpl; [auto|].
  intros b [H1 H2]. split; [exact H1 | apply IH; exact H2].
Qed.

Lemma newest_first_last (b : Z) (l : list VarValue) (e : VarValue) :
  newest_first b (l ++ [e]) -> Forall (fun x => stamp_ e <= stamp_ x) l.
Proof.
  revert b. induction l as [|x l IH]; simpl; intros b H; [constructor|].
  destruct H as [_ H]. constructor; [|apply (IH _ H)].
  destruct l as [|y l]; simpl in H; [lia|].
  destruct H as [Hy H]. specialize (IH _ (conj Hy H)).
  apply Forall_inv in IH. lia.
Qed.

(** The loop of [AgeList] stops at the first entry from the back that is
    not older than the bound. *)
Lemma pop_back_while_spec (bound : Z) (from_back : list VarValue) :
  exists dropped,
    from_back = dropped ++ pop_back_while bound from_back /\
    Forall (fun e => stamp_ e < bound) dropped /\
    match pop_back_while bound from_back with
    | [] => True
    | e :: _ => bound <= stamp_ e
    end.
Proof.
  induction from_back as [|e r (dropped & Heq & Hd & Hk)].
  - exists []. repeat split. constructor.
  - cbn [pop_back_while]. destruct (Z.ltb_spec (stamp_ e) bound) as [Hlt|Hge].
    + exists (e :: dropped). split; [simpl; congruence|].
      split; [constructor; assumption | exact Hk].
    + exists []. split; [reflexivity|]. split; [constructor | exact Hge].
Qed.

Lemma AgeList_split (stamp_now tenure : Z) (l : list VarValue) :
  exists removed,
    l = AgeList stamp_now tenure l ++ removed /\
    Forall (fun e => stamp_ e < sub stamp_now tenure) removed /\
    match last (AgeList stamp_now tenure l) with
    | Some e => sub stamp_now tenure <= stamp_ e
    | None => True
    end.
Proof.
  unfold AgeList.
  destruct (pop_back_while_spec (sub stamp_now tenure) (rev l))
    as (dropped & Heq & Hd & Hk).
  exists (rev dropped). split; [|split].
  - rewrite <- rev_app_distr, <- Heq, rev_involutive. reflexivity.
  - apply Forall_rev. exact Hd.
  - destruct (pop_back_while _ _) as [|e r]; [exact I|].
    cbn [rev]. rewrite last_snoc. exact Hk.
Qed.

Lemma filter_all (p : VarValue -> bool) (l : list VarValue) :
  Forall (fun e => p e = true) l -> List.filter p l = l.
Proof.
  induction 1 as [|e l He _ IH]; simpl; [reflexivity|].
  rewrite He, IH. reflexivity.
Qed.

Lemma filter_none (p : VarValue -> bool) (l : list VarValue) :
  Forall (fun e => p e = false) l -> List.filter p l = [].
Proof.
  induction 1 as [|e l He _ IH]; simpl; [reflexivity|].
  rewrite He, IH. reflexivity.
Qed.

Lemma AgeList_recent (stamp_now tenure b : Z) (l : list VarValue) :
  newest_first b l ->
  in_range (stamp_now - tenure) ->
  AgeList stamp_now tenure l = recent stamp_now tenure l.
Proof.
  intros Hl Hr.
  destruct (AgeList_split stamp_now tenure l) as (removed & Heq & Hd & Hk).
  unfold sub in *. rewrite wrap_id in * by exact Hr.
  set (kept := AgeList stamp_now tenure l) in *. clearbody kept.
  unfold recent. subst l. rewrite List.filter_app.
  rewrite (filter_none _ removed), app_nil_r.
  - symmetry. apply filter_all.
    induction kept as [|e kept' _] using rev_ind.
    + constructor.
    + rewrite last_snoc in Hk.
      apply newest_first_app_l in Hl.
      apply newest_first_last in Hl.
      apply Forall_app. split.
      * eapply Forall_impl; [exact Hl|]. intros x Hx. cbv beta in Hx.
        apply Z.leb_le. lia.
      * constructor; [apply Z.leb_le; exact Hk | constructor].
  - eapply Forall_impl; [exact Hd|]. intros x Hx. cbv beta in Hx.
    apply Z.leb_gt. exact Hx.
Qed.










(** [AgeLists] on such lists leaves exactly the entries that are not older
    than the tenure of their list, in their order, and advances the
    stamp. *)
Theorem AgeLists_recent (t : TabuSearch) (b : Z) :
  newest_first b (keep_tabu_list_ t) ->
  newest_first b (forbid_tabu_list_ t) ->
  in_range (stamp t - keep_tenure_ t) ->
  in_range (stamp t - forbid_tenure_ t) ->
  keep_tabu_list_ (AgeLists t) =
    recent (stamp t) (keep_tenure_ t) (keep_tabu_list_ t) /\
  forbid_tabu_list_ (AgeLists t) =
    recent (stamp t) (forbid_tenure_ t) (forbid_tabu_list_ t) /\
  stamp (AgeLists t) = add (stamp t) 1.
Proof.
  intros Hk Hf Hrk Hrf. cbn [AgeLists keep_tabu_list_ forbid_tabu_list_ stamp].
  split; [exact (AgeList_recent _ _ b _ Hk Hrk)|].
  split; [exact (AgeList_recent _ _ b _ Hf Hrf) | reflexivity].
Qed.

Lemma AgeLists_recent_witness :
  let t :=
    {| maximize_ := false; objective_ := 0%nat; step_ := 1; current_ := 0;
       best_ := 0; vars_ := [1%nat]; assignment_ := [Some 5]; last_ := 0;
       keep_tabu_list_ := [mkVarValue 1%nat 5 4; mkVarValue 1%nat 3 1];
       keep_tenure_ := 2;
       forbid_tabu_list_ := [mkVarValue 1%nat 3 4; mkVarValue 1%nat 7 1];
       forbid_tenure_ := 2;
       tabu_factor_ := three_quarters; stamp := 4 |} in
  keep_tabu_list_ (AgeLists t) = [mkVarValue 1%nat 5 4] /\
  forbid_tabu_list_ (AgeLists t) = [mkVarValue 1%nat 3 4] /\
  stamp (AgeLists t) = 5.
Proof.
  cbv zeta.
  refine (AgeLists_recent _ 4 _ _ _ _);
    first [ simpl; lia | vm_compute; split; discriminate ].
Defined.

End TabuListFacts.

(** ** What the collectors hold after a search *)

Module CollectorContentsFacts.

Import Collector.

Lemma at_solutions_snoc (ss : list Solver) (s : Solver) (c : Collector) :
  at_solutions (ss ++ [s]) c = fst (AtSolution s (at_solutions ss c)).
Proof.
  revert c. induction ss as [|s' ss IH]; intros c; simpl; [reflexivity|].
  apply IH.
Qed.

Lemma PushSolution_recorded (p : option Assignment) (ss : list Solver)
    (s : Solver) :
  PushSolution s (recorded p ss) = recorded p (ss ++ [s]).
Proof.
  unfold PushSolution, recorded. cbn [prototype_ recycle_solutions_ last].
  rewrite !map_app. cbn [map].
  destruct p as [a|]; reflexivity.
Qed.

Lemma BaseEnterSearch_recorded (b : SolutionCollector) :
  BaseEnterSearch b = recorded (prototype_ b) [].
Proof. reflexivity. Qed.

Lemma PushSolution_PopSolution_recorded (p : option Assignment)
    (ss : list Solver) (s : Solver) :
  (length ss <= 1)%nat ->
  PushSolution s (PopSolution (recorded p ss)) = recorded p [s].
Proof.
  intros Hlen. destruct ss as [|s' [|? ?]]; [| |simpl in Hlen; lia].
  - apply (PushSolution_recorded p [] s).
  - destruct p as [a|]; reflexivity.
Qed.

(** [AllSolutionCollector] holds after a search every solution of that
    search, in order, each with the time, the branches and the failures of
    the moment; it asks for the search to go on at each. *)
Theorem AllSolutionCollector_records (b : SolutionCollector)
    (ss : list Solver) :
  at_solutions ss (EnterSearch (AllSolutionCollector b)) =
    AllSolutionCollector (recorded (prototype_ b) ss) /\
  solution_count (at_solutions ss (EnterSearch (AllSolutionCollector b))) =
    Z.of_nat (length ss) /\
  forall s c, snd (AtSolution s (AllSolutionCollector c)) = true.
Proof.
  assert (H : at_solutions ss (EnterSearch (AllSolutionCollector b)) =
              AllSolutionCollector (recorded (prototype_ b) ss)).
  { induction ss as [|s ss IH] using rev_ind; [reflexivity|].
    rewrite at_solutions_snoc, IH. cbn [AtSolution fst].
    rewrite PushSolution_recorded. reflexivity. }
  split; [exact H|]. split; [|reflexivity].
  rewrite H. unfold solution_count. cbn [base_of recorded solutions_].
  rewrite length_map. reflexivity.
Qed.

(** [LastSolutionCollector] holds after a search the last solution of that
    search and no other, and nothing when there was none. *)
Theorem LastSolutionCollector_records (b : SolutionCollector)
    (ss : list Solver) :
  at_solutions ss (EnterSearch (LastSolutionCollector b)) =
    LastSolutionCollector
      (recorded (prototype_ b)
         (match last ss with Some s => [s] | None => [] end)) /\
  forall s c, snd (AtSolution s (LastSolutionCollector c)) = true.
Proof.
  split; [|reflexivity].
  induction ss as [|s ss IH] using rev_ind; [reflexivity|].
  rewrite at_solutions_snoc, IH, last_snoc. cbn [AtSolution fst].
  rewrite PushSolution_PopSolution_recorded; [reflexivity|].
  destruct (last ss); simpl; lia.
Qed.

Lemma at_solutions_done (ss : list Solver) (b : SolutionCollector) :
  at_solutions ss (FirstSolutionCollector b true) =
  FirstSolutionCollector b true.
Proof. induction ss as [|s ss IH]; simpl; [reflexivity | exact IH]. Qed.

(** [FirstSolutionCollector] holds after a search the first solution of that
    search and no other, and stops the search at every solution. *)
Theorem FirstSolutionCollector_records (b : SolutionCollector) (done : bool)
    (ss : list Solver) :
  at_solutions ss (EnterSearch (FirstSolutionCollector b done)) =
    FirstSolutionCollector (recorded (prototype_ b) (take 1 ss))
      (match ss with [] => false | _ :: _ => true end) /\
  forall s c d, snd (AtSolution s (FirstSolutionCollector c d)) = false.
Proof.
  split; [|intros s c []; reflexivity].
  destruct ss as [|s ss]; [reflexivity|].
  cbn [EnterSearch at_solutions AtSolution fst].
  rewrite at_solutions_done, BaseEnterSearch_recorded, PushSolution_recorded.
  reflexivity.
Qed.

Lemma AtSolution_best (p : Assignment) (objective : Var) (maximize : bool)
    (best : Z) (kept : list Solver) (s : Solver) :
  a_objective p = Some objective ->
  (length kept <= 1)%nat ->
  fst (AtSolution s
         (BestValueSolutionCollector (recorded (Some p) kept) maximize best)) =
  if (if maximize then best <? objective_bound maximize objective s
      else objective_bound maximize objective s <? best)
  then BestValueSolutionCollector (recorded (Some p) [s]) maximize
         (objective_bound maximize objective s)
  else BestValueSolutionCollector (recorded (Some p) kept) maximize best.
Proof.
  intros Ho Hlen. cbn [AtSolution recorded prototype_]. rewrite Ho.
  fold (recorded (Some p) kept). unfold objective_bound.
  destruct maximize; cbn [andb negb].
  - destruct (best <? var_max s objective); [|reflexivity].
    cbn [fst]. rewrite PushSolution_PopSolution_recorded by exact Hlen.
    reflexivity.
  - destruct (var_min s objective <? best); [|reflexivity].
    cbn [fst]. rewrite PushSolution_PopSolution_recorded by exact Hlen.
    reflexivity.
Qed.

(** [BestValueSolutionCollector], with an objective in its prototype, holds
    after a search at most one solution; [best_] is the bound of the objective
    (its maximum when maximizing, its minimum when minimizing) at the solution
    held, which is a solution of that search, and no solution of the search
    has a strictly better bound; nothing is held only while [best_] is still
    the worst value, which no solution improved on. *)
Theorem BestValueSolutionCollector_records (b : SolutionCollector)
    (maximize : bool) (best0 : Z) (p : Assignment) (objective : Var)
    (ss : list Solver) :
  prototype_ b = Some p ->
  a_objective p = Some objective ->
  exists kept best,
    at_solutions ss (EnterSearch (BestValueSolutionCollector b maximize best0))
      = BestValueSolutionCollector (recorded (Some p) kept) maximize best /\
    (length kept <= 1)%nat /\
    (forall s, In s ss ->
               ~ better maximize (objective_bound maximize objective s) best) /\
    (forall s, kept = [s] ->
               In s ss /\ objective_bound maximize objective s = best) /\
    (kept = [] ->
     best = (if maximize then Int64.kint64min else Int64.kint64max)).
Proof.
  intros Hp Ho. induction ss as [|s ss IH] using rev_ind.
  - exists [], (if maximize then Int64.kint64min else Int64.kint64max).
    cbn [at_solutions EnterSearch]. rewrite BaseEnterSearch_recorded, Hp.
    split; [reflexivity|]. split; [simpl; lia|].
    split; [intros s []|]. split; [discriminate|].
    intros _. reflexivity.
  - destruct IH as (kept & best & Heq & Hlen & Hbest & Hkept & Hnone).
    rewrite at_solutions_snoc, Heq, (AtSolution_best p objective) by assumption.
    set (x := objective_bound maximize objective s).
    assert (Hcase :
              (if maximize then best <? x else x <? best) = true <->
              better maximize x best).
    { unfold better. destruct maximize; apply Z.ltb_lt. }
    destruct (if maximize then best <? x else x <? best) eqn:Hc.
    + assert (Hb : better maximize x best) by (apply Hcase; reflexivity).
      exists [s], x. split; [reflexivity|]. split; [simpl; lia|].
      split; [|split].
      * intros s' Hin. apply in_app_or in Hin as [Hin|[<-|[]]].
        -- specialize (Hbest s' Hin). unfold better in *.
           destruct maximize; lia.
        -- fold x. unfold better. destruct maximize; lia.
      * intros s' [= <-]. split; [apply in_or_app; right; left|]; reflexivity.
      * discriminate.
    + assert (Hb : ~ better maximize x best)
        by (intros H; apply Hcase in H; discriminate).
      exists kept, best. split; [reflexivity|]. split; [exact Hlen|].
      split; [|split].
      * intros s' Hin. apply in_app_or in Hin as [Hin|[<-|[]]];
          [apply Hbest; exact Hin | exact Hb].
      * intros s' Hk. destruct (Hkept s' Hk) as [Hin Hv].
        split; [apply in_or_app; left; exact Hin | exact Hv].
      * exact Hnone.
Qed.

Lemma BestValueSolutionCollector_records_witness :
  let p := mkAssignment [1%nat] [0] (Some 0%nat) 0 in
  let s1 := mkSolver 1 1 1 (fun _ => 7) (fun _ => 7) (fun _ => 7) in
  let s2 := mkSolver 2 2 2 (fun _ => 4) (fun _ => 4) (fun _ => 4) in
  let s3 := mkSolver 3 3 3 (fun _ => 9) (fun _ => 9) (fun _ => 9) in
  exists kept best,
    at_solutions [s1; s2; s3]
      (EnterSearch
         (BestValueSolutionCollector (MakeSolutionCollector (Some p)) false 0))
      = BestValueSolutionCollector (recorded (Some p) kept) false best /\
    (length kept <= 1)%nat /\
    (forall s, In s [s1; s2; s3] ->
               ~ better false (objective_bound false 0%nat s) best) /\
    (forall s, kept = [s] ->
               In s [s1; s2; s3] /\ objective_bound false 0%nat s = best) /\
    (kept = [] -> best = Int64.kint64max).
Proof.
  cbv zeta.
  apply (BestValueSolutionCollector_records
           (MakeSolutionCollector
              (Some (mkAssignment [1%nat] [0] (Some 0%nat) 0)))
           false 0 (mkAssignment [1%nat] [0] (Some 0%nat) 0) 0%nat);
    reflexivity.
Defined.

End CollectorContentsFacts.

(** ** The constant restart *)

Module ConstantRestartFacts.

Import Int64 Int64Facts ConstantRestart.

Lemma fail_n_from (frequency : Z) (n : nat) :
  1 <= frequency <= kint32max ->
  forall k,
    0 <= k < frequency ->
    fail_n n (mkConstantRestart frequency k) =
    (mkConstantRestart frequency ((k + Z.of_nat n) mod frequency),
     (k + Z.of_nat n) / frequency).
Proof.
  intros Hf. induction n as [|n IH]; intros k Hk.
  - cbn [fail_n]. rewrite Z.add_0_r, Z.mod_small, Z.div_small by lia.
    reflexivity.
  - cbn [fail_n]. unfold BeginFail. cbn [frequency_ current_fails_].
    assert (Hadd : add k 1 = k + 1).
    { apply wrap_id. unfold in_range, kint64min, kint64max, kint32max in *.
      lia. }
    rewrite Hadd.
    replace (k + Z.of_nat (S n)) with (k + 1 + Z.of_nat n) by lia.
    destruct (Z.leb_spec frequency (k + 1)) as [Hle|Hlt].
    + assert (Hk1 : k + 1 = frequency) by lia.
      rewrite (IH 0) by lia. rewrite Hk1.
      replace (frequency + Z.of_nat n)
        with (0 + Z.of_nat n + 1 * frequency) by lia.
      rewrite Z.mod_add, Z.div_add by lia. f_equal. lia.
    + rewrite (IH (k + 1)) by lia. reflexivity.
Qed.

(** A [ConstantRestart] of frequency at least 1 requests, in the first [n]
    failures since its construction, one restart for every [frequency]
    failures: [n / frequency] restarts, with [n mod frequency] failures
    counted toward the next. *)
Theorem ConstantRestart_schedule (frequency : Z) (n : nat) :
  1 <= frequency <= kint32max ->
  exists m,
    MakeConstantRestart frequency = Some m /\
    fail_n n m =
    (mkConstantRestart frequency (Z.of_nat n mod frequency),
     Z.of_nat n / frequency).
Proof.
  intros Hf. unfold MakeConstantRestart.
  destruct (Z.leb_spec 1 frequency) as [_|]; [|lia].
  eexists. split; [reflexivity|].
  rewrite (fail_n_from frequency n Hf 0) by lia. reflexivity.
Qed.

Lemma ConstantRestart_schedule_witness :
  exists m,
    MakeConstantRestart 3 = Some m /\
    fail_n 7 m = (mkConstantRestart 3 (7 mod 3), 7 / 3).
Proof.
  apply (ConstantRestart_schedule 3 7). vm_compute. split; discriminate.
Defined.

End ConstantRestartFacts.

(** ** The XML writer *)

Module XmlFacts.

Import Ascii Xml.
Import (notations) String.

Lemma escape_char_cases (c : ascii) :
  (c = quote /\ escape_char c = text "&quot;") \/
  (c = apostrophe /\ escape_char c = text "&apos;") \/
  (c = "<"%char /\ escape_char c = text "&lt;") \/
  (c = ">"%char /\ escape_char c = text "&gt;") \/
  (c = "&"%char /\ escape_char c = text "&amp;") \/
  (c <> quote /\ c <> apostrophe /\ c <> "<"%char /\ c <> ">"%char /\
   c <> "&"%char /\ escape_char c = [c]).
Proof.
  unfold escape_char.
  destruct (Ascii.eqb_spec c quote) as [->|H1]; [left; auto|].
  destruct (Ascii.eqb_spec c apostrophe) as [->|H2]; [right; left; auto|].
  destruct (Ascii.eqb_spec c "<"%char) as [->|H3];
    [right; right; left; auto|].
  destruct (Ascii.eqb_spec c ">"%char) as [->|H4];
    [right; right; right; left; auto|].
  destruct (Ascii.eqb_spec c "&"%char) as [->|H5];
    [right; right; right; right; left; auto|].
  right; right; right; right; right. auto 10.
Qed.

Lemma unescape_other (c : ascii) (rest : str) :
  c <> "&"%char -> unescape (c :: rest) = c :: unescape rest.
Proof.
  intros H. cbn [unescape].
  destruct (Ascii.eqb_spec c "&"%char); [contradiction | reflexivity].
Qed.

Lemma escape_spec (value : str) :
  Forall (fun c => c <> quote /\ c <> apostrophe /\
                   c <> "<"%char /\ c <> ">"%char) (escape value) /\
  unescape (escape value) = value.
Proof.
  induction value as [|c value [IHs IHu]]; [split; [constructor|reflexivity]|].
  cbn [escape].
  destruct (escape_char_cases c)
    as [[-> ->]|[[-> ->]|[[-> ->]|[[-> ->]|[[-> ->]|(H1 & H2 & H3 & H4 & H5 & ->)]]]]].
  - split; [|cbn; rewrite IHu; reflexivity].
    repeat (apply Forall_cons; split;
            [repeat split; intros H; discriminate H|]). exact IHs.
  - split; [|cbn; rewrite IHu; reflexivity].
    repeat (apply Forall_cons; split;
            [repeat split; intros H; discriminate H|]). exact IHs.
  - split; [|cbn; rewrite IHu; reflexivity].
    repeat (apply Forall_cons; split;
            [repeat split; intros H; discriminate H|]). exact IHs.
  - split; [|cbn; rewrite IHu; reflexivity].
    repeat (apply Forall_cons; split;
            [repeat split; intros H; discriminate H|]). exact IHs.
  - split; [|cbn; rewrite IHu; reflexivity].
    repeat (apply Forall_cons; split;
            [repeat split; intros H; discriminate H|]). exact IHs.
  - split.
    + apply Forall_cons. split; [auto|exact IHs].
    + cbn [app]. rewrite unescape_other by exact H5. rewrite IHu. reflexivity.
Qed.

(** Cutting at the first NUL commutes with escaping. *)
Lemma c_str_escape (value : str) : c_str (escape value) = escape (c_str value).
Proof.
  induction value as [|c value IH]; [reflexivity|].
  cbn [escape c_str].
  destruct (escape_char_cases c)
    as [[-> ->]|[[-> ->]|[[-> ->]|[[-> ->]|[[-> ->]|(H1 & H2 & H3 & H4 & H5 & Hc)]]]]];
    try (cbn; rewrite IH; reflexivity).
  rewrite Hc. cbn [app c_str].
  destruct (Ascii.eqb c nul); [reflexivity|].
  cbn [escape]. rewrite Hc, IH. reflexivity.
Qed.

Lemma c_str_no_nul (s : str) : Forall (fun c => c <> nul) s -> c_str s = s.
Proof.
  induction 1 as [|c s Hc _ IH]; [reflexivity|].
  cbn [c_str]. destruct (Ascii.eqb_spec c nul); [contradiction|].
  rewrite IH. reflexivity.
Qed.

(** [AddAttribute] appends the key, and between quotes a text that holds no
    quote, apostrophe or angle bracket, so that it can neither end the
    attribute nor open a tag, and that reads back as the value given, up to
    its first NUL character. *)
Theorem AddAttribute_value (key value : str) (x : XmlHelper) :
  exists written,
    content_ (AddAttribute key value x) =
      content_ x ++ text " " ++ c_str key ++ text "=" ++ [quote] ++ written
      ++ [quote] /\
    Forall (fun c => c <> quote /\ c <> apostrophe /\
                     c <> "<"%char /\ c <> ">"%char) written /\
    unescape written = c_str value /\
    (Forall (fun c => c <> nul) value -> unescape written = value) /\
    direction_down_ (AddAttribute key value x) = direction_down_ x /\
    tags_ (AddAttribute key value x) = tags_ x.
Proof.
  exists (c_str (escape value)). split; [reflexivity|].
  rewrite c_str_escape.
  destruct (escape_spec (c_str value)) as [Hs Hu].
  split; [exact Hs|]. split; [exact Hu|].
  split; [|split; reflexivity].
  intros Hn. rewrite Hu. apply c_str_no_nul. exact Hn.
Qed.

Lemma add_attributes_spec (attributes : list (str * str)) :
  forall x,
    add_attributes attributes x =
    {| content_ := content_ x ++ concat (map attribute_text attributes);
       direction_down_ := direction_down_ x;
       tags_ := tags_ x |}.
Proof.
  unfold add_attributes.
  induction attributes as [|kv attributes IH]; intros x.
  - cbn. rewrite app_nil_r. destruct x; reflexivity.
  - cbn [fold_left map concat]. rewrite IH.
    cbn [AddAttribute content_ direction_down_ tags_].
    unfold attribute_text. rewrite <- !app_assoc. reflexivity.
Qed.

Lemma write_spec :
  forall e x,
    write e x =
    Some {| content_ := content_ x ++ closing x ++ element_text e;
            direction_down_ := false;
            tags_ := tags_ x |}.
Proof.
  fix IH 1. intros [name attributes children] x.
  cbn [write]. rewrite add_attributes_spec.
  cbn [StartElement content_ direction_down_ tags_].
  set (start := (if direction_down_ x
                 then content_ x ++ text ">" ++ [newline]
                 else content_ x) ++ text "<" ++ c_str name).
  assert (Hstart : start = content_ x ++ closing x ++ text "<" ++ c_str name).
  { unfold start, closing. destruct (direction_down_ x);
      rewrite <- ?app_assoc; reflexivity. }
  clearbody start. subst start.
  set (opened := (content_ x ++ closing x ++ text "<" ++ c_str name)
                 ++ concat (map attribute_text attributes)).
  destruct children as [|child children].
  - cbn [EndElement tags_ direction_down_ content_ element_text map concat].
    unfold opened. rewrite <- !app_assoc. reflexivity.
  - assert (Hchildren :
      forall y,
        direction_down_ y = false ->
        (fix write_all (es : list Element) (x : XmlHelper) {struct es}
           : option XmlHelper :=
           match es with
           | [] => Some x
           | e' :: es' =>
               match write e' x with
               | Some x' => write_all es' x'
               | None => None
               end
           end) children y =
        Some {| content_ := content_ y ++ concat (map element_text children);
                direction_down_ := false;
                tags_ := tags_ y |}).
    { induction children as [|c cs IHcs]; intros y Hy.
      - cbn. rewrite app_nil_r. destruct y; cbn in *; subst; reflexivity.
      - rewrite IH. rewrite IHcs by reflexivity.
        cbn [content_ tags_ map concat]. unfold closing. rewrite Hy.
        cbn [app]. rewrite <- !app_assoc. reflexivity. }
    rewrite IH. rewrite Hchildren by reflexivity.
    cbn [EndElement tags_ direction_down_ content_ element_text map concat
         closing].
    unfold opened, closing. cbn [direction_down_].
    rewrite <- !app_assoc. reflexivity.
Qed.

(** A document written element by element, each by [StartElement], its
    attributes, its children and [EndElement], reads as the header followed by
    the text of the elements: an element without children closes itself,
    another one encloses its children between its opening and closing tags;
    every call is defined and the stack of open tags ends as it started. *)
Theorem write_document (e : Element) (x : XmlHelper) :
  exists x',
    write e (StartDocument x) = Some x' /\
    GetContent (EndDocument x') = header ++ element_text e /\
    direction_down_ x' = false /\
    tags_ x' = tags_ x.
Proof.
  eexists. split; [apply write_spec|].
  cbn [GetContent EndDocument StartDocument content_ direction_down_ tags_
       closing].
  unfold closing. cbn [direction_down_ app]. auto.
Qed.

(** [EndElement] is undefined when no element is open. *)
Lemma EndElement_without_element (x : XmlHelper) :
  tags_ x = [] <-> EndElement x = None.
Proof.
  unfold EndElement. destruct (tags_ x); split; intros H; try discriminate H;
    reflexivity.
Qed.

End XmlFacts.

(** ** Variable and value selectors *)

Module SelectorsFacts.

Import Int64 Int64Facts IntVar IntVarFacts Selectors.

Lemma cheapest_loop_snoc (var_evaluator : Z -> Z) (vars : list IntVar)
    (var : IntVar) :
  forall i best index,
    cheapest_loop var_evaluator (vars ++ [var]) i best index =
    let (best', index') := cheapest_loop var_evaluator vars i best index in
    let n := i + Z.of_nat (length vars) in
    if Bound var then (best', index')
    else if var_evaluator n <? best' then (var_evaluator n, n)
    else (best', index').
Proof.
  induction vars as [|v vars IH]; intros i best index.
  - cbn [app cheapest_loop length]. rewrite Z.add_0_r.
    destruct (Bound var); [reflexivity|].
    destruct (var_evaluator i <? best); reflexivity.
  - cbn [app cheapest_loop length].
    replace (i + Z.of_nat (S (length vars)))
      with (i + 1 + Z.of_nat (length vars)) by lia.
    destruct (Bound v); [apply IH|].
    destruct (var_evaluator i <? best); apply IH.
Qed.

Lemma unbound_at_snoc (vars : list IntVar) (var : IntVar) (j : Z) :
  unbound_at (vars ++ [var]) j <->
  unbound_at vars j \/ (j = Z.of_nat (length vars) /\ Bound var = false).
Proof.
  unfold unbound_at, var_at. destruct (Z.leb_spec 0 j) as [Hj|Hj].
  - destruct (Nat.lt_ge_cases (Z.to_nat j) (length vars)) as [Hlt|Hge].
    + rewrite lookup_app_l by exact Hlt. split; [auto|].
      intros [H|[Heq _]]; [exact H | lia].
    + rewrite lookup_app_r by exact Hge.
      rewrite (lookup_ge_None_2 vars) by exact Hge. split.
      * intros (v & Hv & Hb). right.
        destruct (Z.to_nat j - length vars)%nat as [|k] eqn:Hk;
          [|destruct k; discriminate Hv].
        injection Hv as <-. split; [lia | exact Hb].
      * intros [(v & Hv & _)|[Heq Hb]]; [discriminate Hv|].
        exists var. split; [|exact Hb].
        replace (Z.to_nat j - length vars)%nat with 0%nat by lia. reflexivity.
  - split; [intros (v & Hv & _); discriminate Hv|].
    intros [(v & Hv & _)|[Heq _]]; [discriminate Hv | lia].
Qed.

Lemma unbound_at_range (vars : list IntVar) (j : Z) :
  unbound_at vars j -> 0 <= j < Z.of_nat (length vars).
Proof.
  intros (v & Hv & _). unfold var_at in Hv.
  destruct (Z.leb_spec 0 j); [|discriminate Hv].
  apply lookup_lt_Some in Hv. lia.
Qed.

(** The loop keeps the first unbound variable of the least evaluation, when
    that is below [kint64max]. *)
Lemma cheapest_loop_spec (var_evaluator : Z -> Z) (vars : list IntVar) :
  let r := cheapest_loop var_evaluator vars 0 kint64max (-1) in
  (forall j, unbound_at vars j -> fst r <= var_evaluator j) /\
  ((snd r = -1 /\ fst r = kint64max) \/
   (unbound_at vars (snd r) /\ fst r = var_evaluator (snd r) /\
    fst r < kint64max /\
    forall j, unbound_at vars j -> j < snd r -> fst r < var_evaluator j)).
Proof.
  cbv zeta. induction vars as [|var vars (Hall & Hcase)] using rev_ind.
  - cbn [cheapest_loop fst snd]. split; [|left; auto].
    intros j Hu. apply unbound_at_range in Hu. simpl in Hu. lia.
  - rewrite cheapest_loop_snoc. rewrite Z.add_0_l.
    destruct (cheapest_loop var_evaluator vars 0 kint64max (-1))
      as [best index].
    cbn [fst snd] in *. cbv zeta.
    remember (Z.of_nat (length vars)) as n eqn:Hn0.
    destruct (Bound var) eqn:Hb.
    + cbn [fst snd]. split.
      * intros j Hu. apply unbound_at_snoc in Hu; rewrite <- ?Hn0 in Hu; destruct Hu as [Hu|[_ Hu]];
          [apply Hall; exact Hu | congruence].
      * destruct Hcase as [Hc|(Hu & Hf & Hlt & Hfirst)]; [left; exact Hc|].
        right. split; [apply unbound_at_snoc; left; exact Hu|].
        split; [exact Hf|]. split; [exact Hlt|].
        intros j Huj Hj. apply unbound_at_snoc in Huj; rewrite <- ?Hn0 in Huj; destruct Huj as [Huj|[_ Huj]];
          [apply Hfirst; assumption | congruence].
    + assert (Hn : unbound_at (vars ++ [var]) n)
        by (apply unbound_at_snoc; right; split; [exact Hn0 | exact Hb]).
      destruct (Z.ltb_spec (var_evaluator n) best) as [Hlt|Hge];
        cbn [fst snd].
      * split.
        -- intros j Hu. apply unbound_at_snoc in Hu; rewrite <- ?Hn0 in Hu; destruct Hu as [Hu|[-> _]];
             [specialize (Hall j Hu); lia | lia].
        -- right. split; [exact Hn|]. split; [reflexivity|].
           split; [destruct Hcase as [[_ ->]|(_ & _ & Hb' & _)]; lia|].
           intros j Hu Hj. apply unbound_at_snoc in Hu; rewrite <- ?Hn0 in Hu; destruct Hu as [Hu|[-> _]];
             [specialize (Hall j Hu); lia | lia].
      * split.
        -- intros j Hu. apply unbound_at_snoc in Hu; rewrite <- ?Hn0 in Hu; destruct Hu as [Hu|[-> _]];
             [apply Hall; exact Hu | lia].
        -- destruct Hcase as [Hc|(Hu & Hf & Hlt & Hfirst)]; [left; exact Hc|].
           right. split; [apply unbound_at_snoc; left; exact Hu|].
           split; [exact Hf|]. split; [exact Hlt|].
           intros j Huj Hj. apply unbound_at_snoc in Huj; rewrite <- ?Hn0 in Huj; destruct Huj as [Huj|[-> _]];
             [apply Hfirst; assumption|].
           apply unbound_at_range in Hu. lia.
Qed.

(** [CheapestVarSelector::Select], for an evaluator with [int64] values,
    returns the first unbound variable of least evaluation, provided that
    this evaluation is below [kint64max]; it returns [NULL], with [*id] the
    number of variables, not only when every variable is bound but also when
    the unbound variables all evaluate to [kint64max]. *)
Theorem CheapestVarSelector_least (var_evaluator : Z -> Z)
    (vars : list IntVar) :
  (forall i, var_evaluator i <= kint64max) ->
  (forall i,
      CheapestVarSelector_Select var_evaluator vars = (Some i, i) <->
      unbound_at vars i /\ var_evaluator i < kint64max /\
      (forall j, unbound_at vars j -> var_evaluator i <= var_evaluator j) /\
      (forall j, unbound_at vars j -> j < i ->
                 var_evaluator i < var_evaluator j)) /\
  (CheapestVarSelector_Select var_evaluator vars =
     (None, Z.of_nat (length vars)) <->
   forall j, unbound_at vars j -> var_evaluator j = kint64max) /\
  (forall r id, CheapestVarSelector_Select var_evaluator vars = (r, id) ->
                r = Some id \/ (r = None /\ id = Z.of_nat (length vars))).
Proof.
  intros Heval.
  pose proof (cheapest_loop_spec var_evaluator vars) as H.
  cbv zeta in H. unfold CheapestVarSelector_Select.
  destruct (cheapest_loop var_evaluator vars 0 kint64max (-1))
    as [best index] eqn:Hloop.
  cbn [fst snd] in H. destruct H as (Hall & Hcase).
  destruct Hcase as [[-> ->]|(Hu & -> & Hlt & Hfirst)].
  - change (-1 =? -1) with true. cbv iota.
    split; [|split].
    + intros i. split; [intros [=]|].
      intros (Hu & Hlt & _). specialize (Hall i Hu). lia.
    + split; [|reflexivity].
      intros _ j Hu. specialize (Hall j Hu). specialize (Heval j). lia.
    + intros r id [= <- <-]. right. auto.
  - pose proof (unbound_at_range _ _ Hu) as Hr.
    destruct (Z.eqb_spec index (-1)) as [|_]; [lia|].
    split; [|split].
    + intros i. split.
      * intros [= <-]. auto.
      * intros (Hui & Hlti & Hleast & Hfirst').
        assert (i = index); [|subst; reflexivity].
        destruct (Z.lt_trichotomy i index) as [Hij|[Hij|Hij]]; [|exact Hij|].
        -- specialize (Hfirst i Hui Hij). specialize (Hleast index Hu). lia.
        -- specialize (Hfirst' index Hu Hij). specialize (Hall i Hui). lia.
    + split; [intros [=]|].
      intros Hmax. specialize (Hmax index Hu). lia.
    + intros r id [= <- <-]. left. reflexivity.
Qed.

Lemma CheapestVarSelector_least_witness :
  CheapestVarSelector_Select (fun _ => kint64max)
    [mkIntVar [1; 2]; mkIntVar [3]] = (None, 2) <->
  forall j, unbound_at [mkIntVar [1; 2]; mkIntVar [3]] j ->
            (fun _ : Z => kint64max) j = kint64max.
Proof.
  apply (CheapestVarSelector_least (fun _ => kint64max)
           [mkIntVar [1; 2]; mkIntVar [3]]).
  intros _. lia.
Defined.

Lemma fold_max_in (k : Z) (ks : list Z) : In (fold_right Z.max k ks) (k :: ks).
Proof.
  induction ks as [|y ks IH]; simpl; [auto|].
  destruct (Z.max_spec y (fold_right Z.max k ks)) as [[_ ->]|[_ ->]]; [|auto].
  destruct IH as [H|H]; auto.
Qed.

Lemma Max_contained (v : IntVar) :
  domain v <> [] -> Contains v (Max v) = true.
Proof.
  intros Hne. apply Contains_In. unfold Max.
  destruct (domain v) as [|k0 ks]; [congruence|]. apply fold_max_in.
Qed.

Ltac quot_lia := Z.to_euclidean_division_equations; lia.

(** The loop of [CenterValueSelector::Select] from distance [i] on, when no
    value nearer to [mid] than [i] is in the domain and the maximum is at
    the last distance tried. *)
Lemma center_loop_nearest (v : IntVar) (mid : Z) (fuel : nat) :
  forall i,
    1 <= i ->
    in_range (mid - (i + Z.of_nat fuel) + 1) ->
    in_range (mid + (i + Z.of_nat fuel) - 1) ->
    Contains v (mid + (i + Z.of_nat fuel) - 1) = true ->
    (forall k, Contains v k = true -> i <= Z.abs (k - mid)) ->
    let r := center_loop v mid i fuel in
    Contains v r = true /\
    forall k, Contains v k = true -> Z.abs (r - mid) <= Z.abs (k - mid).
Proof.
  induction fuel as [|fuel IH]; intros i Hi Hlo Hhi Hmax Hnear; cbv zeta.
  - exfalso. specialize (Hnear _ Hmax). lia.
  - cbn [center_loop].
    assert (Ha : add mid i = mid + i).
    { apply wrap_id. unfold in_range, kint64min, kint64max in *. lia. }
    assert (Hs : sub mid i = mid - i).
    { apply wrap_id. unfold in_range, kint64min, kint64max in *. lia. }
    rewrite Ha, Hs.
    destruct (Contains v (mid + i)) eqn:Hc1.
    + split; [exact Hc1|]. intros k Hk. specialize (Hnear k Hk). lia.
    + destruct (Contains v (mid - i)) eqn:Hc2.
      * split; [exact Hc2|]. intros k Hk. specialize (Hnear k Hk). lia.
      * assert (Hfuel : (0 < fuel)%nat).
        { destruct fuel; [|lia]. exfalso.
          replace (mid + (i + Z.of_nat 1) - 1) with (mid + i) in Hmax by lia.
          congruence. }
        assert (Hi1 : add i 1 = i + 1).
        { apply wrap_id. unfold in_range, kint64min, kint64max in *. lia. }
        rewrite Hi1. apply IH.
        -- lia.
        -- unfold in_range in *. lia.
        -- unfold in_range in *. lia.
        -- replace (mid + (i + 1 + Z.of_nat fuel) - 1)
             with (mid + (i + Z.of_nat (S fuel)) - 1) by lia.
           exact Hmax.
        -- intros k Hk. specialize (Hnear k Hk).
           assert (Hne1 : k <> mid + i) by congruence.
           assert (Hne2 : k <> mid - i) by congruence. lia.
Qed.

(** [CenterValueSelector::Select] returns a value of the domain that is
    nearest to the middle [(Min + Max) / 2] of its bounds, the quotient being
    rounded toward zero: it never runs to its final [return 0LL]. *)
Theorem CenterValueSelector_nearest (v : IntVar) :
  domain v <> [] ->
  Forall in_range (domain v) ->
  in_range (Min v + Max v) ->
  let mid := Z.quot (Min v + Max v) 2 in
  Contains v (CenterValueSelector_Select v) = true /\
  forall k, Contains v k = true ->
            Z.abs (CenterValueSelector_Select v - mid) <= Z.abs (k - mid).
Proof.
  intros Hne Hdom Hsum. cbv zeta. unfold CenterValueSelector_Select.
  assert (Hadd : add (Min v) (Max v) = Min v + Max v) by (apply wrap_id; exact Hsum).
  rewrite Hadd. set (mid := Z.quot (Min v + Max v) 2).
  pose proof (Min_contained v Hne) as Hmin.
  pose proof (Max_contained v Hne) as Hmax.
  assert (Hrange : forall k, Contains v k = true -> in_range k).
  { intros k Hk. apply Contains_In in Hk.
    rewrite Forall_forall in Hdom. apply Hdom. apply list_elem_of_In. exact Hk. }
  pose proof (Hrange _ Hmin) as Hrmin. pose proof (Hrange _ Hmax) as Hrmax.
  pose proof (Min_Max_bounds v (Max v) Hmax) as [Hle _].
  assert (Hmid : Min v <= mid <= Max v) by (unfold mid; quot_lia).
  assert (Hlow : kint64min <= 2 * mid - Max v).
  { unfold mid, in_range, kint64min, kint64max in *. quot_lia. }
  destruct (Contains v mid) eqn:Hc.
  - split; [exact Hc|]. intros k _. lia.
  - assert (Hd : sub (Max v) mid = Max v - mid).
    { apply wrap_id. unfold in_range, kint64min, kint64max in *. lia. }
    rewrite Hd.
    assert (Hpos : 1 <= Max v - mid).
    { destruct (Z.eq_dec mid (Max v)) as [E|]; [|lia]. congruence. }
    replace (Max v - mid) with (1 + Z.of_nat (Z.to_nat (Max v - mid - 1)))
      by lia.
    replace (Z.to_nat (1 + Z.of_nat (Z.to_nat (Max v - mid - 1))))
      with (S (Z.to_nat (Max v - mid - 1))) by lia.
    apply center_loop_nearest.
    + lia.
    + unfold in_range, kint64min, kint64max in *. lia.
    + unfold in_range, kint64min, kint64max in *. lia.
    + replace (mid + (1 + Z.of_nat (S (Z.to_nat (Max v - mid - 1)))) - 1)
        with (Max v) by lia.
      exact Hmax.
    + intros k Hk. assert (k <> mid) by congruence. lia.
Qed.

Lemma CenterValueSelector_nearest_witness :
  Contains (mkIntVar [-3; 0]) (CenterValueSelector_Select (mkIntVar [-3; 0])) =
    true /\
  forall k, Contains (mkIntVar [-3; 0]) k = true ->
            Z.abs (CenterValueSelector_Select (mkIntVar [-3; 0])
                   - Z.quot (Min (mkIntVar [-3; 0]) + Max (mkIntVar [-3; 0])) 2)
            <= Z.abs (k - Z.quot (Min (mkIntVar [-3; 0])
                                  + Max (mkIntVar [-3; 0])) 2).
Proof.
  apply (CenterValueSelector_nearest (mkIntVar [-3; 0])).
  - discriminate.
  - repeat constructor; vm_compute; discriminate.
  - vm_compute. split; discriminate.
Defined.

End SelectorsFacts.
